(** * Safety-check instrumentation (goto_check) and Java trace validation

    A shallow embedding of [src/analyses/goto_check.cpp] and of
    [jbmc/src/java_bytecode/java_trace_validation.cpp], followed by the
    properties established about them.

    Expressions are the heterogeneous [irept] trees of the code base: a node
    has an identifier, a type, named attributes and an ordered list of
    operands.  Code that mutates the checker object is written as explicit
    state passing over the record [goto_checkt]; code that can throw or hit
    an invariant returns a [result]. *)

From Stdlib Require Import String List ZArith Bool Lia.
Import ListNotations.
Open Scope string_scope.
Open Scope list_scope.

(** ** The expression algebra *)

Definition irep_idt := string.

#[local] Unset Elimination Schemes.

(** A type: identifier ([ID_signedbv], [ID_pointer], ...), bit width, named
    flags and sub-types (the pointee of a pointer, the element of an
    array). *)
Inductive typet : Type :=
| Typ (tid : irep_idt) (width : N) (tnamed : list (irep_idt * irep_idt))
      (subtypes : list typet).

(** The value of a named attribute: an identifier, or the integer a constant
    built by [from_integer] denotes. *)
Inductive attrt : Type :=
| attr_id (s : irep_idt)
| attr_int (z : Z).

Inductive exprt : Type :=
| Expr (eid : irep_idt) (etype : typet) (named : list (irep_idt * attrt))
       (ops : list exprt).

#[local] Set Elimination Schemes.

Definition type_id (t : typet) : irep_idt := let 'Typ i _ _ _ := t in i.
Definition get_width (t : typet) : N := let 'Typ _ w _ _ := t in w.
Definition type_named (t : typet) := let 'Typ _ _ n _ := t in n.
Definition type_subtypes (t : typet) := let 'Typ _ _ _ s := t in s.

Definition id (e : exprt) : irep_idt := let 'Expr i _ _ _ := e in i.
Definition type (e : exprt) : typet := let 'Expr _ t _ _ := e in t.
Definition named_sub (e : exprt) := let 'Expr _ _ n _ := e in n.
Definition operands (e : exprt) : list exprt := let 'Expr _ _ _ o := e in o.

Definition has_operands (e : exprt) : bool :=
  match operands e with [] => false | _ :: _ => true end.

Fixpoint find_named {A : Type} (n : irep_idt) (l : list (irep_idt * A))
  : option A :=
  match l with
  | [] => None
  | (k, v) :: r => if String.eqb k n then Some v else find_named n r
  end.

(** [irept::get]: the attribute as an identifier, empty when absent. *)
Definition get (e : exprt) (n : irep_idt) : irep_idt :=
  match find_named n (named_sub e) with
  | Some (attr_id s) => s
  | _ => ""
  end.

Definition get_identifier (e : exprt) : irep_idt := get e "identifier".

(** [constant_exprt::get_value().empty()] *)
Definition value_empty (e : exprt) : bool :=
  match find_named "value" (named_sub e) with
  | None => true
  | Some (attr_id s) => String.eqb s ""
  | Some (attr_int _) => false
  end.

(** Structural equality, the [operator==] of [irept]. *)
Fixpoint list_eqb {A : Type} (eqb : A -> A -> bool) (l1 l2 : list A) : bool :=
  match l1, l2 with
  | [], [] => true
  | x :: r1, y :: r2 => eqb x y && list_eqb eqb r1 r2
  | _, _ => false
  end.

Definition pair_eqb {A B : Type} (ea : A -> A -> bool) (eb : B -> B -> bool)
  (p q : A * B) : bool :=
  ea (fst p) (fst q) && eb (snd p) (snd q).

Fixpoint typet_eqb (a b : typet) : bool :=
  match a, b with
  | Typ i1 w1 n1 s1, Typ i2 w2 n2 s2 =>
      String.eqb i1 i2 && N.eqb w1 w2 &&
      list_eqb (pair_eqb String.eqb String.eqb) n1 n2 &&
      (fix subs (l1 l2 : list typet) : bool :=
         match l1, l2 with
         | [], [] => true
         | x :: r1, y :: r2 => typet_eqb x y && subs r1 r2
         | _, _ => false
         end) s1 s2
  end.

Definition attrt_eqb (a b : attrt) : bool :=
  match a, b with
  | attr_id s1, attr_id s2 => String.eqb s1 s2
  | attr_int z1, attr_int z2 => Z.eqb z1 z2
  | _, _ => false
  end.

Fixpoint exprt_eqb (a b : exprt) : bool :=
  match a, b with
  | Expr i1 t1 n1 o1, Expr i2 t2 n2 o2 =>
      String.eqb i1 i2 && typet_eqb t1 t2 &&
      list_eqb (pair_eqb String.eqb attrt_eqb) n1 n2 &&
      (fix opsb (l1 l2 : list exprt) : bool :=
         match l1, l2 with
         | [], [] => true
         | x :: r1, y :: r2 => exprt_eqb x y && opsb r1 r2
         | _, _ => false
         end) o1 o2
  end.

Definition is_id (e : exprt) (i : irep_idt) : bool := String.eqb (id e) i.

(** ** Outcomes of code that may throw *)

Inductive exceptiont : Type :=
| runtime_error (what : string)        (* throw std::runtime_error(...) *)
| thrown (msg : string)                (* throw "..." *)
| assertion_failed (cond : string)     (* assert(...) *)
| invariant_violation (msg : string).  (* INVARIANT, PRECONDITION, ... *)

Inductive result (A : Type) : Type :=
| Ok (a : A)
| Err (x : exceptiont).
Arguments Ok {A} a.
Arguments Err {A} x.

Definition bind {A B : Type} (m : result A) (f : A -> result B) : result B :=
  match m with
  | Ok a => f a
  | Err x => Err x
  end.

Notation "'do' x <- m ; k" := (bind m (fun x => k))
  (at level 10, x name, m at level 100, k at level 200).
Notation "m ;; k" := (bind m (fun _ => k))
  (at level 100, k at level 200, right associativity).

(** [expr.op0()], [expr.op1()]: the source indexes the operand vector; an
    operand that is not there is an invariant violation here. *)
Definition op0 (e : exprt) : result exprt :=
  match operands e with
  | o :: _ => Ok o
  | [] => Err (invariant_violation "op0")
  end.

Definition op1 (e : exprt) : result exprt :=
  match operands e with
  | _ :: o :: _ => Ok o
  | _ => Err (invariant_violation "op1")
  end.

(** Modelled from the spec: [skip_typecast] (util/expr_util.cpp is not under
    src/): "after removing outer typecasts". *)
Fixpoint skip_typecast (e : exprt) : exprt :=
  match e with
  | Expr i _ _ (o :: _) => if String.eqb i "typecast" then skip_typecast o else e
  | _ => e
  end.

(** ** Identifiers (irep_ids.def) *)

Definition ID_symbol := "symbol".
Definition ID_constant := "constant".
Definition ID_member := "member".
Definition ID_index := "index".
Definition ID_dereference := "dereference".
Definition ID_address_of := "address_of".
Definition ID_typecast := "typecast".
Definition ID_plus := "+".
Definition ID_minus := "-".
Definition ID_mult := "*".
Definition ID_div := "/".
Definition ID_mod := "mod".
Definition ID_unary_minus := "unary-".
Definition ID_shl := "shl".
Definition ID_ashr := "ashr".
Definition ID_lshr := "lshr".
Definition ID_lt := "<".
Definition ID_le := "<=".
Definition ID_gt := ">".
Definition ID_ge := ">=".
Definition ID_equal := "=".
Definition ID_notequal := "notequal".
Definition ID_and := "and".
Definition ID_or := "or".
Definition ID_not := "not".
Definition ID_implies := "=>".
Definition ID_if := "if".
Definition ID_exists := "exists".
Definition ID_forall := "forall".
Definition ID_r_ok := "r_ok".
Definition ID_w_ok := "w_ok".
Definition ID_bool := "bool".
Definition ID_signedbv := "signedbv".
Definition ID_unsignedbv := "unsignedbv".
Definition ID_floatbv := "floatbv".
Definition ID_pointer := "pointer".
Definition ID_array := "array".
Definition ID_vector := "vector".
Definition ID_code := "code".
Definition ID_infinity := "infinity".
Definition ID_nil := "nil".
Definition ID_java := "java".
Definition ID_C := "C".
Definition ID_cpp := "cpp".
Definition ID_expression := "expression".
Definition ID_printf := "printf".
Definition ID_statement := "statement".
Definition ID_value := "value".
Definition ID_isinf := "isinf".
Definition ID_ieee_float_equal := "ieee_float_equal".
Definition ID_extractbits := "extractbits".
Definition ID_is_invalid_pointer := "is_invalid_pointer".
Definition ID_struct := "struct".
Definition ID_array_list := "array_list".
Definition ID_byte_extract_little_endian := "byte_extract_little_endian".
Definition ID_identifier := "identifier".

(** ** Java trace validation (java_trace_validation.cpp)

    [can_cast_expr<T>] is the test of the node identifier.
    [expr_try_dynamic_cast<T>] (util/expr_cast.h and util/std_expr.h are not
    under src/) gives the null pointer when that test fails; otherwise it
    calls [validate_expr] of the class, an invariant on the number of
    operands: none for a symbol, one for a member and for an address-of, two
    for an index.  The classes of structs and of constants validate
    nothing. *)

Definition validate_operands (value : exprt) (number : nat) (message : string)
  : result unit :=
  if Nat.eqb (length (operands value)) number then Ok tt
  else Err (invariant_violation message).

Definition validate_expr (T : irep_idt) (value : exprt) : result unit :=
  if String.eqb T ID_symbol then
    validate_operands value 0 "Symbols must not have operands"
  else if String.eqb T ID_member then
    validate_operands value 1 "Extract member must have one operand"
  else if String.eqb T ID_index then
    validate_operands value 2 "Array index must have two operands"
  else if String.eqb T ID_address_of then
    validate_operands value 1 "Address of must have one operand"
  else Ok tt.

(** [expr_try_dynamic_cast<T>(base)], [T] given by its identifier. *)
Definition expr_try_dynamic_cast (T : irep_idt) (base : exprt)
  : result (option exprt) :=
  if negb (is_id base T) then Ok None
  else validate_expr T base ;; Ok (Some base).

(** [if(const auto x = expr_try_dynamic_cast<T>(base)) ... else ...] *)
Definition if_cast {A : Type} (T : irep_idt) (base : exprt)
  (then_branch : exprt -> result A) (else_branch : result A) : result A :=
  do x <- expr_try_dynamic_cast T base ;
  match x with
  | Some x => then_branch x
  | None => else_branch
  end.

Definition has_value {A : Type} (o : option A) : bool :=
  match o with Some _ => true | None => false end.

Module java_trace_validation.

Section Validator.

(** [simplify_expr(e, ns)] and [exprt::pretty()] are services of the
    surrounding code base. *)
Variable simplify_expr : exprt -> exprt.
Variable pretty : exprt -> string.

Definition check_symbol_structure (symbol_expr : exprt) : result bool :=
  do symbol <- expr_try_dynamic_cast ID_symbol symbol_expr ;
  Ok (match symbol with
      | Some symbol => negb (String.eqb (get_identifier symbol) "")
      | None => false
      end).

Definition can_contain_symbol_operand (expr : exprt) : bool :=
  is_id expr ID_member ||
  is_id expr ID_index ||
  is_id expr ID_address_of ||
  is_id expr ID_typecast ||
  is_id expr ID_symbol ||
  String.eqb (get expr ID_identifier) ID_byte_extract_little_endian.

(** The [while(expr.has_operands())] loop descends along the first operand,
    so it is a structural recursion. *)
Fixpoint get_inner_symbol_expr (expr : exprt) : result (option exprt) :=
  match expr with
  | Expr _ _ _ (o :: _) =>
      if negb (can_contain_symbol_operand o) then Ok None
      else get_inner_symbol_expr o
  | Expr _ _ _ [] =>
      do valid <- check_symbol_structure expr ;
      if negb valid then Ok None
      else expr_try_dynamic_cast ID_symbol expr
  end.

Definition check_member_structure (member_expr : exprt) : result bool :=
  if negb (is_id member_expr ID_member) then Ok false
  else if negb (has_operands member_expr) then Ok false
  else
    do symbol_operand <- get_inner_symbol_expr member_expr ;
    Ok (has_value symbol_operand).

Definition raise_error {A : Type} (side : string) (expr : exprt) : result A :=
  Err (runtime_error
         ("JBMC Check trace assumption failure on " ++ side ++
          " expression:" ++ String (Ascii.ascii_of_nat 10) "" ++ pretty expr)).

Definition valid_lhs_expr_high_level (lhs : exprt) : bool :=
  is_id lhs ID_member || is_id lhs ID_symbol || is_id lhs ID_index ||
  is_id lhs ID_byte_extract_little_endian.

Definition valid_rhs_expr_high_level (rhs : exprt) : bool :=
  is_id rhs ID_struct || is_id rhs ID_array || is_id rhs ID_constant ||
  is_id rhs ID_address_of || is_id rhs ID_symbol || is_id rhs ID_array_list ||
  is_id rhs ID_byte_extract_little_endian.

(** [if(c) raise_error(side, e);] *)
Definition raise_if (c : bool) (side : string) (e : exprt) : result unit :=
  if c then raise_error side e else Ok tt.

Definition check_lhs_assumptions (lhs : exprt) : result unit :=
  if negb (valid_lhs_expr_high_level lhs) then raise_error "LHS" lhs
  else
  (* check member lhs structure *)
  if_cast ID_member lhs
    (fun member =>
       do ok <- check_member_structure member ;
       raise_if (negb ok) "LHS" lhs)
  (* check symbol lhs structure *)
  (if_cast ID_symbol lhs
    (fun symbol =>
       do ok <- check_symbol_structure symbol ;
       raise_if (negb ok) "LHS" lhs)
  (* check index lhs structure *)
  (if_cast ID_index lhs
    (fun index =>
       raise_if (negb (Nat.eqb (length (operands index)) 2)) "LHS" lhs ;;
       do a <- op0 index ;
       do ok <- check_symbol_structure a ;
       raise_if (negb ok) "LHS" lhs ;;
       do i <- op1 index ;
       do constant <- expr_try_dynamic_cast ID_constant i ;
       raise_if (negb (has_value constant)) "LHS" lhs)
  (* check byte extract lhs structure *)
  (if is_id lhs ID_byte_extract_little_endian then
     do a <- op0 lhs ;
     do ok <- check_symbol_structure a ;
     raise_if (negb ok) "LHS" lhs ;;
     do o <- op1 lhs ;
     do constant <- expr_try_dynamic_cast ID_constant (simplify_expr o) ;
     raise_if (negb (has_value constant)) "LHS" lhs
   else raise_error "LHS" lhs))).

Definition check_rhs_assumptions (rhs : exprt) : result unit :=
  if negb (valid_rhs_expr_high_level rhs) then raise_error "RHS" rhs
  else
  (* check address_of rhs structure (String only) *)
  if_cast ID_address_of rhs
    (fun address =>
       do symbol_expr <- get_inner_symbol_expr address ;
       raise_if (negb (has_value symbol_expr)) "RHS" rhs)
  (* check symbol rhs structure (String only) *)
  (if_cast ID_symbol rhs
    (fun symbol_expr =>
       do ok <- check_symbol_structure symbol_expr ;
       raise_if (negb ok) "RHS" rhs)
  (* check struct rhs structure *)
  (if_cast ID_struct rhs
    (fun struct_expr =>
       raise_if (negb (has_operands struct_expr)) "RHS" struct_expr ;;
       do s0 <- op0 struct_expr ;
       raise_if (negb (is_id s0 ID_struct) && negb (is_id s0 ID_constant))
                "RHS" struct_expr ;;
       raise_if (Nat.ltb 1 (length (operands struct_expr)) &&
                 existsb (fun operand => negb (is_id operand ID_constant))
                         (tl (operands struct_expr)))
                "RHS" struct_expr)
  (* check array rhs structure: seems no check is required. *)
  (if is_id rhs ID_array then Ok tt
   else if is_id rhs ID_array_list then Ok tt
   else
   (* check constant rhs structure *)
   if_cast ID_constant rhs
     (fun constant_expr =>
        if has_operands constant_expr then
          do o <- op0 constant_expr ;
          let operand := skip_typecast o in
          raise_if (negb (is_id operand ID_constant) &&
                    negb (is_id operand ID_address_of) &&
                    negb (is_id operand ID_plus))
                   "RHS" constant_expr
        else raise_if (value_empty constant_expr) "RHS" constant_expr)
   (* check byte extract rhs structure *)
   (if is_id rhs ID_byte_extract_little_endian then
      do a <- op0 rhs ;
      raise_if (negb (is_id (simplify_expr a) ID_constant)) "LHS" rhs ;;
      do o <- op1 rhs ;
      raise_if (negb (is_id (simplify_expr o) ID_constant)) "LHS" rhs
    else raise_error "RHS" rhs)))).

Inductive step_typet : Type :=
| ASSIGNMENT | DECL | OTHER_STEP.

Record goto_trace_stept : Type := {
  step_type : step_typet;
  full_lhs : exprt;
  full_lhs_value : exprt
}.

Definition is_assignment (s : goto_trace_stept) : bool :=
  match step_type s with ASSIGNMENT => true | _ => false end.
Definition is_decl (s : goto_trace_stept) : bool :=
  match step_type s with DECL => true | _ => false end.

Definition check_step_assumptions (step : goto_trace_stept) : result unit :=
  if negb (is_assignment step) && negb (is_decl step) then Ok tt
  else
    check_lhs_assumptions (skip_typecast (full_lhs step)) ;;
    check_rhs_assumptions (skip_typecast (full_lhs_value step)).

Fixpoint check_trace_assumptions (steps : list goto_trace_stept)
  : result unit :=
  match steps with
  | [] => Ok tt
  | step :: rest =>
      check_step_assumptions step ;; check_trace_assumptions rest
  end.

End Validator.

End java_trace_validation.

(** ** The Java trace builders (java_multi_path_symex_checker.cpp)

    Each builder takes the trace of the base class
    [multi_path_symex_checkert] and, with the option validate-trace,
    validates it.  The status message of [log.status()] is returned with the
    trace. *)

Module java_multi_path_symex_checker.

Section Checker.

Variable simplify_expr : exprt -> exprt.
Variable pretty : exprt -> string.

Definition goto_tracet := list java_trace_validation.goto_trace_stept.

(** [options.get_bool_option("validate-trace")] *)
Variable validate_trace : bool.

(** The builders of the base class. *)
Variable base_build_full_trace : result goto_tracet.
Variable base_build_trace : irep_idt -> result goto_tracet.
Variable base_build_shortest_trace : result goto_tracet.

Definition build_full_trace : result (goto_tracet * list string) :=
  do goto_trace <- base_build_full_trace ;
  if validate_trace then
    java_trace_validation.check_trace_assumptions simplify_expr pretty
      goto_trace ;;
    Ok (goto_trace, ["Trace validation successful"])
  else Ok (goto_trace, []).

Definition build_trace (property_id : irep_idt)
  : result (goto_tracet * list string) :=
  do goto_trace <- base_build_trace property_id ;
  if validate_trace then
    java_trace_validation.check_trace_assumptions simplify_expr pretty
      goto_trace ;;
    Ok (goto_trace, ["Trace validation successful"])
  else Ok (goto_trace, []).

Definition build_shortest_trace : result (goto_tracet * list string) :=
  do goto_trace <- base_build_shortest_trace ;
  if validate_trace then
    java_trace_validation.check_trace_assumptions simplify_expr pretty
      goto_trace ;;
    Ok (goto_trace, ["Trace validation successful"])
  else Ok (goto_trace, []).

End Checker.

End java_multi_path_symex_checker.

(** ** Expression constructors and predicates (std_expr.h, expr.h)

    The constructors build the same trees as the classes of the code base:
    an identifier from irep_ids.def, the result type, the operands. *)

Definition type_is (t : typet) (i : irep_idt) : bool := String.eqb (type_id t) i.

Definition bool_typet : typet := Typ ID_bool 0 [] [].
Definition signedbv_typet (w : N) : typet := Typ ID_signedbv w [] [].
Definition unsignedbv_typet (w : N) : typet := Typ ID_unsignedbv w [] [].
Definition integer_typet : typet := Typ "integer" 0 [] [].
Definition empty_typet : typet := Typ "" 0 [] [].
Definition pointer_type (sub : typet) (w : N) : typet := Typ ID_pointer w [] [sub].
Definition set_width (t : typet) (w : N) : typet :=
  let 'Typ i _ n s := t in Typ i w n s.
Definition set_subtype (t : typet) (sub : typet) : typet :=
  let 'Typ i w n _ := t in Typ i w n [sub].
Definition subtype (t : typet) : typet :=
  match type_subtypes t with s :: _ => s | [] => empty_typet end.

Definition nil_exprt : exprt := Expr ID_nil empty_typet [] [].
Definition true_exprt : exprt :=
  Expr ID_constant bool_typet [(ID_value, attr_id "true")] [].
Definition false_exprt : exprt :=
  Expr ID_constant bool_typet [(ID_value, attr_id "false")] [].
Definition symbol_exprt (identifier : irep_idt) (t : typet) : exprt :=
  Expr ID_symbol t [("identifier", attr_id identifier)] [].
(** [from_integer(z, t)] (util/arith_tools.cpp is not under src/): the
    constant of type [t] with the value [z].  For a bit-vector type the
    code keeps the bits of [z] that fit the width of [t]; the constant
    below denotes [z] itself, which is the same constant when [z] is a
    value of [t].  What is proved about the value of such a constant is
    stated for values of the type. *)
Definition from_integer (z : Z) (t : typet) : exprt :=
  Expr ID_constant t [(ID_value, attr_int z)] [].
Definition null_pointer_exprt (t : typet) : exprt :=
  Expr ID_constant t [(ID_value, attr_id "NULL")] [].

Definition unary_exprt (i : irep_idt) (a : exprt) (t : typet) : exprt :=
  Expr i t [] [a].
Definition binary_exprt (a : exprt) (i : irep_idt) (b : exprt) (t : typet)
  : exprt := Expr i t [] [a; b].
Definition binary_relation_exprt (a : exprt) (i : irep_idt) (b : exprt) : exprt :=
  binary_exprt a i b bool_typet.
Definition binary_predicate_exprt (a : exprt) (i : irep_idt) (b : exprt) : exprt :=
  binary_exprt a i b bool_typet.
Definition equal_exprt (a b : exprt) : exprt := binary_relation_exprt a ID_equal b.
Definition notequal_exprt (a b : exprt) : exprt :=
  binary_relation_exprt a ID_notequal b.
Definition ieee_float_equal_exprt (a b : exprt) : exprt :=
  binary_relation_exprt a ID_ieee_float_equal b.
Definition not_exprt (a : exprt) : exprt := unary_exprt ID_not a bool_typet.
Definition isinf_exprt (a : exprt) : exprt := unary_exprt ID_isinf a bool_typet.
Definition is_invalid_pointer_exprt (a : exprt) : exprt :=
  unary_exprt ID_is_invalid_pointer a bool_typet.
Definition multi_ary_exprt (i : irep_idt) (l : list exprt) (t : typet) : exprt :=
  Expr i t [] l.
Definition and_exprt (a b : exprt) : exprt := multi_ary_exprt ID_and [a; b] bool_typet.
Definition or_exprt (a b : exprt) : exprt := multi_ary_exprt ID_or [a; b] bool_typet.
Definition or_exprt3 (a b c : exprt) : exprt :=
  multi_ary_exprt ID_or [a; b; c] bool_typet.
Definition implies_exprt (a b : exprt) : exprt :=
  binary_exprt a ID_implies b bool_typet.
Definition plus_exprt (a b : exprt) : exprt := binary_exprt a ID_plus b (type a).
Definition shl_exprt (a d : exprt) : exprt := binary_exprt a ID_shl d (type a).
Definition typecast_exprt (a : exprt) (t : typet) : exprt :=
  unary_exprt ID_typecast a t.
Definition if_exprt (c t f : exprt) : exprt := Expr ID_if (type t) [] [c; t; f].
Definition dereference_exprt (p : exprt) : exprt :=
  Expr ID_dereference (subtype (type p)) [] [p].
Definition address_of_exprt (o : exprt) (w : N) : exprt :=
  Expr ID_address_of (pointer_type (type o) w) [] [o].
Definition extractbits_exprt (src : exprt) (upper lower : Z) (t : typet) : exprt :=
  Expr ID_extractbits t []
       [src; from_integer upper integer_typet; from_integer lower integer_typet].

(** [typecast_exprt::conditional_cast] *)
Definition conditional_cast (e : exprt) (t : typet) : exprt :=
  if typet_eqb (type e) t then e else typecast_exprt e t.

(** [exprt::is_true], [is_boolean], [is_nil], [is_zero] and
    [numeric_cast<mp_integer>] on the constants above. *)
Definition is_boolean (e : exprt) : bool := type_is (type e) ID_bool.
Definition is_true (e : exprt) : bool :=
  is_id e ID_constant && is_boolean e && negb (String.eqb (get e ID_value) "false").
Definition is_nil (e : exprt) : bool := is_id e ID_nil.
Definition numeric_cast (e : exprt) : option Z :=
  if is_id e ID_constant then
    match find_named ID_value (named_sub e) with
    | Some (attr_int z) => Some z
    | _ => None
    end
  else None.
Definition is_zero (e : exprt) : bool :=
  match numeric_cast e with Some z => Z.eqb z 0 | None => false end.

(** [to_signedbv_type(type).smallest_expr()] *)
Definition smallest_expr (t : typet) : exprt :=
  from_integer (- 2 ^ (Z.of_N (get_width t) - 1)) t.

(** [disjunction] and [conjunction] of std_expr.cpp. *)
Definition disjunction (op : list exprt) : exprt :=
  match op with
  | [] => false_exprt
  | [e] => e
  | _ => multi_ary_exprt ID_or op bool_typet
  end.

Definition conjunction (op : list exprt) : exprt :=
  match op with
  | [] => true_exprt
  | [e] => e
  | _ => multi_ary_exprt ID_and op bool_typet
  end.

(** Modelled from the spec: [make_binary] (util/expr_util.cpp is not under
    src/): an application to three or more operands is "decomposed
    left-associatively" into nested binary applications of the same
    operator and type. *)
Definition make_binary (e : exprt) : exprt :=
  let 'Expr i t n l := e in
  match l with
  | a :: b :: c :: r =>
      fold_left (fun previous o => Expr i t n [previous; o]) (b :: c :: r) a
  | _ => e
  end.

(** Modelled from the spec: [has_subexpr] (util/expr_util.h is not under
    src/): the expression or one of its sub-expressions satisfies the
    predicate ("mentioning ... any dereference"). *)
Fixpoint has_subexpr_pred (pred : exprt -> bool) (e : exprt) : bool :=
  pred e ||
  match e with
  | Expr _ _ _ l =>
      (fix any (l : list exprt) : bool :=
         match l with
         | [] => false
         | o :: r => has_subexpr_pred pred o || any r
         end) l
  end.

Definition has_subexpr (e : exprt) (i : irep_idt) : bool :=
  has_subexpr_pred (fun x => is_id x i) e.

(** Modelled from the spec: [has_symbol] (util/find_symbols.h is not under
    src/): the expression mentions a symbol whose identifier is in the
    set. *)
Definition find_symbols_sett := list irep_idt.

Fixpoint has_symbol (e : exprt) (symbols : find_symbols_sett) : bool :=
  match e with
  | Expr i _ _ l =>
      if String.eqb i ID_symbol
      then existsb (String.eqb (get_identifier e)) symbols
      else (fix any (l : list exprt) : bool :=
              match l with
              | [] => false
              | o :: r => has_symbol o symbols || any r
              end) l
  end.

(** Modelled from the spec: the guard (analyses/guard.h is not under src/):
    "a conjunction of boolean expressions with a constant true bottom;
    operations conjoin(e), materialize(), is_true()". *)
Definition guardt := list exprt.
Definition guard_true : guardt := [].
Definition guard_add (g : guardt) (e : exprt) : guardt := g ++ [e].
Definition guard_is_true (g : guardt) : bool :=
  match g with [] => true | _ => false end.
Definition guard_as_expr (g : guardt) : exprt := conjunction g.

(** ** Goto programs (goto_program.h), as far as the pass uses them *)

Record source_locationt : Type := {
  loc_nil : bool;
  loc_file : irep_idt;
  loc_line : irep_idt;
  loc_function : irep_idt;
  loc_column : irep_idt;
  loc_java_bytecode_index : irep_idt;
  loc_comment : string;
  loc_property_class : irep_idt;
  loc_user_provided : bool;
  loc_pragmas : list irep_idt
}.

Definition nil_location : source_locationt :=
  {| loc_nil := true; loc_file := ""; loc_line := ""; loc_function := "";
     loc_column := ""; loc_java_bytecode_index := ""; loc_comment := "";
     loc_property_class := ""; loc_user_provided := false; loc_pragmas := [] |}.

(** A default-constructed [source_locationt]: empty, but not nil. *)
Definition empty_location : source_locationt :=
  {| loc_nil := false; loc_file := ""; loc_line := ""; loc_function := "";
     loc_column := ""; loc_java_bytecode_index := ""; loc_comment := "";
     loc_property_class := ""; loc_user_provided := false; loc_pragmas := [] |}.

Definition set_comment (l : source_locationt) (c : string) : source_locationt :=
  {| loc_nil := loc_nil l; loc_file := loc_file l; loc_line := loc_line l;
     loc_function := loc_function l; loc_column := loc_column l;
     loc_java_bytecode_index := loc_java_bytecode_index l; loc_comment := c;
     loc_property_class := loc_property_class l;
     loc_user_provided := loc_user_provided l; loc_pragmas := loc_pragmas l |}.

Definition set_property_class (l : source_locationt) (c : irep_idt)
  : source_locationt :=
  {| loc_nil := loc_nil l; loc_file := loc_file l; loc_line := loc_line l;
     loc_function := loc_function l; loc_column := loc_column l;
     loc_java_bytecode_index := loc_java_bytecode_index l;
     loc_comment := loc_comment l; loc_property_class := c;
     loc_user_provided := loc_user_provided l; loc_pragmas := loc_pragmas l |}.

Definition set_user_provided (l : source_locationt) (b : bool)
  : source_locationt :=
  {| loc_nil := loc_nil l; loc_file := loc_file l; loc_line := loc_line l;
     loc_function := loc_function l; loc_column := loc_column l;
     loc_java_bytecode_index := loc_java_bytecode_index l;
     loc_comment := loc_comment l; loc_property_class := loc_property_class l;
     loc_user_provided := b; loc_pragmas := loc_pragmas l |}.

Definition set_function (l : source_locationt) (f : irep_idt)
  : source_locationt :=
  {| loc_nil := loc_nil l; loc_file := loc_file l; loc_line := loc_line l;
     loc_function := f; loc_column := loc_column l;
     loc_java_bytecode_index := loc_java_bytecode_index l;
     loc_comment := loc_comment l; loc_property_class := loc_property_class l;
     loc_user_provided := loc_user_provided l; loc_pragmas := loc_pragmas l |}.

Inductive goto_program_instruction_typet : Type :=
| GOTO | ASSUME | ASSERT | OTHER | SKIP | ASSIGN | DECL | DEAD
| FUNCTION_CALL | RETURN | THROW | END_FUNCTION | LOCATION.

Record instructiont : Type := {
  itype : goto_program_instruction_typet;
  code : exprt;
  condition : exprt;
  labels : list irep_idt;
  source_location : source_locationt;
  is_target : bool
}.

Definition instr_kind_eqb (a b : goto_program_instruction_typet) : bool :=
  match a, b with
  | GOTO, GOTO | ASSUME, ASSUME | ASSERT, ASSERT | OTHER, OTHER | SKIP, SKIP
  | ASSIGN, ASSIGN | DECL, DECL | DEAD, DEAD | FUNCTION_CALL, FUNCTION_CALL
  | RETURN, RETURN | THROW, THROW | END_FUNCTION, END_FUNCTION
  | LOCATION, LOCATION => true
  | _, _ => false
  end.

Definition is_kind (i : instructiont) (k : goto_program_instruction_typet) :=
  instr_kind_eqb (itype i) k.

Definition has_condition (i : instructiont) : bool :=
  is_kind i GOTO || is_kind i ASSUME || is_kind i ASSERT.

Definition make_instruction (k : goto_program_instruction_typet)
  (c g : exprt) (l : source_locationt) : instructiont :=
  {| itype := k; code := c; condition := g; labels := [];
     source_location := l; is_target := false |}.

Definition make_assertion (g : exprt) (l : source_locationt) : instructiont :=
  make_instruction ASSERT nil_exprt g l.
Definition make_assumption (g : exprt) (l : source_locationt) : instructiont :=
  make_instruction ASSUME nil_exprt g l.
Definition code_assignt (lhs rhs : exprt) : exprt :=
  Expr "code" (Typ ID_code 0 [] []) [(ID_statement, attr_id "assign")] [lhs; rhs].
Definition make_assignment (lhs rhs : exprt) (l : source_locationt)
  : instructiont :=
  make_instruction ASSIGN (code_assignt lhs rhs) true_exprt l.

Definition set_condition (i : instructiont) (c : exprt) : instructiont :=
  {| itype := itype i; code := code i; condition := c; labels := labels i;
     source_location := source_location i; is_target := is_target i |}.
Definition set_code (i : instructiont) (c : exprt) : instructiont :=
  {| itype := itype i; code := c; condition := condition i; labels := labels i;
     source_location := source_location i; is_target := is_target i |}.
Definition set_source_location (i : instructiont) (l : source_locationt)
  : instructiont :=
  {| itype := itype i; code := code i; condition := condition i;
     labels := labels i; source_location := l; is_target := is_target i |}.
(** [instructiont::turn_into_skip] *)
Definition turn_into_skip (i : instructiont) : instructiont :=
  {| itype := SKIP; code := nil_exprt; condition := true_exprt;
     labels := labels i; source_location := source_location i;
     is_target := is_target i |}.

Definition goto_programt := list instructiont.

(** ** Services of the code base that are not part of the pass

    The namespace, the simplifier, the size oracle, the local bit-vector
    (pointer flavour) analysis, the pointer predicates of
    util/pointer_predicates.h, the object descriptor, the floating-point
    constants, the language configuration and skip removal are consumed
    through the following interface. *)

Record flagst : Type := {
  is_unknown : bool;
  is_null : bool;
  is_uninitialized : bool;
  is_dynamic_heap : bool;
  is_dynamic_local : bool;
  is_static_lifetime : bool;
  is_integer_address : bool
}.

Record local_bitvector_analysist : Type := {
  lba_get : instructiont -> exprt -> flagst;
  lba_dirty : exprt -> bool
}.

Inductive c_standardt : Type := C89 | C99 | C11.
Inductive cpp_standardt : Type := CPP98 | CPP03 | CPP11 | CPP14.

Record servicest : Type := {
  simplify_expr : exprt -> exprt;
  boolean_negate : exprt -> exprt;
  size_of_expr : typet -> option exprt;
  member_offset_expr : exprt -> option exprt;
  from_expr : irep_idt -> exprt -> string;
  array_name : exprt -> string;
  find_source_location : exprt -> source_locationt;
  ns_lookup_mode : irep_idt -> irep_idt;
  ns_lookup_symbol_expr : irep_idt -> exprt;
  ns_lookup_type : irep_idt -> typet;
  make_local_bitvector_analysis :
    list instructiont -> local_bitvector_analysist;
  ode_root_object : exprt -> exprt;
  ode_offset : exprt -> exprt;
  array_type_size : typet -> exprt;
  char_pointer_type : typet;
  pointer_width : N;
  has_this : typet -> bool;
  pointer_diff_type : typet;
  null_pointer : exprt -> exprt;
  same_object : exprt -> exprt -> exprt;
  deallocated : exprt -> exprt;
  dead_object : exprt -> exprt;
  malloc_object : exprt -> exprt;
  dynamic_object : exprt -> exprt;
  integer_address : exprt -> exprt;
  dynamic_size : exprt;
  object_size : exprt -> exprt;
  pointer_offset : exprt -> exprt;
  dynamic_object_lower_bound : exprt -> exprt -> exprt;
  dynamic_object_upper_bound : exprt -> exprt -> exprt;
  object_lower_bound : exprt -> exprt -> exprt;
  object_upper_bound : exprt -> exprt -> exprt;
  ieee_float_from_integer : typet -> Z -> exprt;
  ieee_plus_infinity : typet -> exprt;
  ieee_minus_infinity : typet -> exprt;
  side_effect_expr_nondet : typet -> source_locationt -> exprt;
  config_c_standard : c_standardt;
  config_cpp_standard : cpp_standardt;
  entry_point : irep_idt;
  remove_skip : list instructiont -> list instructiont
}.

(** ** The checker object *)

Record check_flagst : Type := {
  enable_bounds_check : bool;
  enable_pointer_check : bool;
  enable_memory_leak_check : bool;
  enable_div_by_zero_check : bool;
  enable_signed_overflow_check : bool;
  enable_unsigned_overflow_check : bool;
  enable_pointer_overflow_check : bool;
  enable_conversion_check : bool;
  enable_undefined_shift_check : bool;
  enable_float_overflow_check : bool;
  enable_simplify : bool;
  enable_nan_check : bool;
  retain_trivial : bool;
  enable_assert_to_assume : bool;
  enable_assertions : bool;
  enable_built_in_assertions : bool;
  enable_assumptions : bool
}.

Definition allocationt := (exprt * exprt)%type.

Record goto_checkt : Type := {
  flags : check_flagst;
  error_labels : list irep_idt;
  local_bitvector_analysis : option local_bitvector_analysist;
  current_target : option instructiont;
  new_code : goto_programt;
  assertions : list exprt;
  allocations : list allocationt;
  mode : irep_idt
}.

Definition set_flags (st : goto_checkt) (f : check_flagst) : goto_checkt :=
  {| flags := f; error_labels := error_labels st;
     local_bitvector_analysis := local_bitvector_analysis st;
     current_target := current_target st; new_code := new_code st;
     assertions := assertions st; allocations := allocations st;
     mode := mode st |}.
Definition set_analysis (st : goto_checkt) (a : option local_bitvector_analysist)
  : goto_checkt :=
  {| flags := flags st; error_labels := error_labels st;
     local_bitvector_analysis := a;
     current_target := current_target st; new_code := new_code st;
     assertions := assertions st; allocations := allocations st;
     mode := mode st |}.
Definition set_current_target (st : goto_checkt) (t : option instructiont)
  : goto_checkt :=
  {| flags := flags st; error_labels := error_labels st;
     local_bitvector_analysis := local_bitvector_analysis st;
     current_target := t; new_code := new_code st;
     assertions := assertions st; allocations := allocations st;
     mode := mode st |}.
Definition set_new_code (st : goto_checkt) (c : goto_programt) : goto_checkt :=
  {| flags := flags st; error_labels := error_labels st;
     local_bitvector_analysis := local_bitvector_analysis st;
     current_target := current_target st; new_code := c;
     assertions := assertions st; allocations := allocations st;
     mode := mode st |}.
Definition set_assertions (st : goto_checkt) (a : list exprt) : goto_checkt :=
  {| flags := flags st; error_labels := error_labels st;
     local_bitvector_analysis := local_bitvector_analysis st;
     current_target := current_target st; new_code := new_code st;
     assertions := a; allocations := allocations st;
     mode := mode st |}.
Definition set_allocations (st : goto_checkt) (a : list allocationt)
  : goto_checkt :=
  {| flags := flags st; error_labels := error_labels st;
     local_bitvector_analysis := local_bitvector_analysis st;
     current_target := current_target st; new_code := new_code st;
     assertions := assertions st; allocations := a;
     mode := mode st |}.
Definition set_mode (st : goto_checkt) (m : irep_idt) : goto_checkt :=
  {| flags := flags st; error_labels := error_labels st;
     local_bitvector_analysis := local_bitvector_analysis st;
     current_target := current_target st; new_code := new_code st;
     assertions := assertions st; allocations := allocations st;
     mode := m |}.

(** The constructor [goto_checkt(ns, options)]: the flags are read from the
    option map, everything else starts empty. *)
Definition new_goto_checkt (f : check_flagst) (labels : list irep_idt)
  : goto_checkt :=
  {| flags := f; error_labels := labels; local_bitvector_analysis := None;
     current_target := None; new_code := []; assertions := [];
     allocations := []; mode := "" |}.

(** The assertion cache is a [std::set<exprt>]: membership and insertion
    by structural equality. *)
Definition set_mem (e : exprt) (s : list exprt) : bool := existsb (exprt_eqb e) s.
Definition set_insert (e : exprt) (s : list exprt) : list exprt := s ++ [e].

(** ** The pass (goto_check.cpp) *)

Module goto_check.

Local Open Scope Z_scope.

Definition CPROVER_PREFIX : string := "__CPROVER_".

(** Arithmetic on [std::size_t]: 64 bits, wrapping. *)
Definition size_t (z : Z) : Z := z mod 2 ^ 64.

(** An obligation as a builder hands it to [add_guarded_property]: the
    asserted expression, the comment, the property class, the source
    location and the source expression named in the comment. *)
Record propertyt : Type := {
  asserted_expr : exprt;
  comment : string;
  property_class : string;
  prop_location : source_locationt;
  src_expr : exprt
}.

(** [conditiont] of the class. *)
Record conditiont : Type := {
  assertion : exprt;
  description : string
}.

Definition to_unary_expr (e : exprt) : result exprt :=
  match operands e with
  | [a] => Ok a
  | _ => Err (invariant_violation "unary expression must have one operand")
  end.

Definition to_binary_expr (e : exprt) : result (exprt * exprt) :=
  match operands e with
  | [a; b] => Ok (a, b)
  | _ => Err (invariant_violation "binary expression must have two operands")
  end.

Section Checker.

Variable S : servicest.

Definition add_guarded_property (p : propertyt) (guard : guardt)
  (st : goto_checkt) : goto_checkt :=
  (* first try simplifier on it *)
  let simplified_expr :=
    if enable_simplify (flags st) then simplify_expr S (asserted_expr p)
    else asserted_expr p in
  (* throw away trivial properties? *)
  if negb (retain_trivial (flags st)) && is_true simplified_expr then st
  else
    (* add the guard *)
    let guarded_expr :=
      if guard_is_true guard then simplified_expr
      else implies_exprt (guard_as_expr guard) simplified_expr in
    if set_mem guarded_expr (assertions st) then st
    else
      let t :=
        if enable_assert_to_assume (flags st)
        then make_assumption guarded_expr (prop_location p)
        else make_assertion guarded_expr (prop_location p) in
      let source_expr_string := from_expr S (mode st) (src_expr p) in
      let l :=
        set_property_class
          (set_comment (source_location t)
                       (comment p ++ " in " ++ source_expr_string))
          (property_class p) in
      set_new_code
        (set_assertions st (set_insert guarded_expr (assertions st)))
        (new_code st ++ [set_source_location t l]).

(** The obligations of one builder are submitted in order under the guard
    the builder was called with. *)
Definition add_guarded_properties (l : list propertyt) (guard : guardt)
  (st : goto_checkt) : goto_checkt :=
  fold_left (fun s p => add_guarded_property p guard s) l st.

Definition property (a : exprt) (c pc : string) (e : exprt) : propertyt :=
  {| asserted_expr := a; comment := c; property_class := pc;
     prop_location := find_source_location S e; src_expr := e |}.

Definition div_by_zero_check (expr : exprt) (st : goto_checkt)
  : result (list propertyt) :=
  if negb (enable_div_by_zero_check (flags st)) then Ok []
  else
    do o1 <- op1 expr ;
    let zero := from_integer 0 (type o1) in
    let inequality := notequal_exprt o1 zero in
    Ok [property inequality "division by zero" "division-by-zero" expr].

Definition undefined_shift_check (expr : exprt) (st : goto_checkt)
  : result (list propertyt) :=
  if negb (enable_undefined_shift_check (flags st)) then Ok []
  else
    do od <- to_binary_expr expr ;
    let '(op, distance) := od in
    let distance_type := type distance in
    let negative :=
      if type_is distance_type ID_signedbv then
        [property
           (binary_relation_exprt distance ID_ge (from_integer 0 distance_type))
           "shift distance is negative" "undefined-shift" expr]
      else [] in
    let op_type := type op in
    if type_is op_type ID_unsignedbv || type_is op_type ID_signedbv then
      let width_expr :=
        from_integer (Z.of_N (get_width op_type)) distance_type in
      let too_large :=
        [property (binary_relation_exprt distance ID_lt width_expr)
                  "shift distance too large" "undefined-shift" expr] in
      let operand_negative :=
        if type_is op_type ID_signedbv && is_id expr ID_shl then
          [property
             (binary_relation_exprt op ID_ge (from_integer 0 op_type))
             "shift operand is negative" "undefined-shift" expr]
        else [] in
      Ok (negative ++ too_large ++ operand_negative)
    else
      Ok (negative ++
          [property false_exprt "shift of non-integer type" "undefined-shift"
                    expr]).

Definition mod_by_zero_check (expr : exprt) (st : goto_checkt)
  : result (list propertyt) :=
  if negb (enable_div_by_zero_check (flags st)) || String.eqb (mode st) ID_java
  then Ok []
  else
    do o1 <- op1 expr ;
    let zero := from_integer 0 (type o1) in
    let inequality := notequal_exprt o1 zero in
    Ok [property inequality "division by zero" "division-by-zero" expr].

(** check a mod expression for the case INT_MIN % -1 *)
Definition mod_overflow_check (expr : exprt) (st : goto_checkt)
  : result (list propertyt) :=
  if negb (enable_signed_overflow_check (flags st)) then Ok []
  else
    let typ := type expr in
    if type_is typ ID_signedbv then
      do a <- op0 expr ;
      do b <- op1 expr ;
      let int_min_neq := notequal_exprt a (smallest_expr typ) in
      let minus_one_neq := notequal_exprt b (from_integer (-1) (type b)) in
      Ok [property (or_exprt int_min_neq minus_one_neq)
                   "result of signed mod is not representable" "overflow" expr]
    else Ok [].

Definition conversion_check (expr : exprt) (st : goto_checkt)
  : result (list propertyt) :=
  if negb (enable_conversion_check (flags st)) then Ok []
  else
    (* First, check type. *)
    let typ := type expr in
    if negb (type_is typ ID_signedbv) && negb (type_is typ ID_unsignedbv)
    then Ok []
    else if is_id expr ID_typecast then
      do op <- to_unary_expr expr ;
      (* conversion to signed int may overflow *)
      let old_type := type op in
      let new_width := Z.of_N (get_width typ) in
      let old_width := Z.of_N (get_width old_type) in
      if type_is typ ID_signedbv then
        if type_is old_type ID_signedbv then (* signed -> signed *)
          if new_width >=? old_width then Ok [] (* always ok *)
          else
            let no_overflow_upper :=
              binary_relation_exprt op ID_le
                (from_integer (2 ^ size_t (new_width - 1) - 1) old_type) in
            let no_overflow_lower :=
              binary_relation_exprt op ID_ge
                (from_integer (- 2 ^ size_t (new_width - 1)) old_type) in
            Ok [property (and_exprt no_overflow_lower no_overflow_upper)
                  "arithmetic overflow on signed type conversion"
                  "overflow" expr]
        else if type_is old_type ID_unsignedbv then (* unsigned -> signed *)
          if new_width >=? size_t (old_width + 1) then Ok [] (* always ok *)
          else
            let no_overflow_upper :=
              binary_relation_exprt op ID_le
                (from_integer (2 ^ size_t (new_width - 1) - 1) old_type) in
            Ok [property no_overflow_upper
                  "arithmetic overflow on unsigned to signed type conversion"
                  "overflow" expr]
        else if type_is old_type ID_floatbv then (* float -> signed *)
          (* Note that the fractional part is truncated! *)
          let upper := ieee_float_from_integer S old_type (2 ^ size_t (new_width - 1)) in
          let no_overflow_upper := binary_relation_exprt op ID_lt upper in
          let lower :=
            ieee_float_from_integer S old_type (- 2 ^ size_t (new_width - 1) - 1) in
          let no_overflow_lower := binary_relation_exprt op ID_gt lower in
          Ok [property (and_exprt no_overflow_lower no_overflow_upper)
                "arithmetic overflow on float to signed integer type conversion"
                "overflow" expr]
        else Ok []
      else (* type.id()==ID_unsignedbv *)
        if type_is old_type ID_signedbv then (* signed -> unsigned *)
          if new_width >=? size_t (old_width - 1) then
            (* only need lower bound check *)
            let no_overflow_lower :=
              binary_relation_exprt op ID_ge (from_integer 0 old_type) in
            Ok [property no_overflow_lower
                  "arithmetic overflow on signed to unsigned type conversion"
                  "overflow" expr]
          else
            (* need both *)
            let no_overflow_upper :=
              binary_relation_exprt op ID_le
                (from_integer (2 ^ new_width - 1) old_type) in
            let no_overflow_lower :=
              binary_relation_exprt op ID_ge (from_integer 0 old_type) in
            Ok [property (and_exprt no_overflow_lower no_overflow_upper)
                  "arithmetic overflow on signed to unsigned type conversion"
                  "overflow" expr]
        else if type_is old_type ID_unsignedbv then (* unsigned -> unsigned *)
          if new_width >=? old_width then Ok [] (* always ok *)
          else
            let no_overflow_upper :=
              binary_relation_exprt op ID_le
                (from_integer (2 ^ new_width - 1) old_type) in
            Ok [property no_overflow_upper
                  "arithmetic overflow on unsigned to unsigned type conversion"
                  "overflow" expr]
        else if type_is old_type ID_floatbv then (* float -> unsigned *)
          (* Note that the fractional part is truncated! *)
          let upper := ieee_float_from_integer S old_type (2 ^ new_width - 1) in
          let no_overflow_upper := binary_relation_exprt op ID_lt upper in
          let lower := ieee_float_from_integer S old_type (-1) in
          let no_overflow_lower := binary_relation_exprt op ID_gt lower in
          Ok [property (and_exprt no_overflow_lower no_overflow_upper)
                "arithmetic overflow on float to unsigned integer type conversion"
                "overflow" expr]
        else Ok []
    else Ok [].

Definition integer_overflow_check (expr : exprt) (st : goto_checkt)
  : result (list propertyt) :=
  if negb (enable_signed_overflow_check (flags st)) &&
     negb (enable_unsigned_overflow_check (flags st))
  then Ok []
  else
    (* First, check type. *)
    let typ := type expr in
    if type_is typ ID_signedbv && negb (enable_signed_overflow_check (flags st))
    then Ok []
    else if type_is typ ID_unsignedbv &&
            negb (enable_unsigned_overflow_check (flags st))
    then Ok []
    (* add overflow subgoal *)
    else if is_id expr ID_div then
      (* undefined for signed division INT_MIN/-1 *)
      if type_is typ ID_signedbv then
        do dd <- to_binary_expr expr ;
        let '(dividend, divisor) := dd in
        let int_min_eq := equal_exprt dividend (smallest_expr typ) in
        let minus_one_eq := equal_exprt divisor (from_integer (-1) typ) in
        Ok [property (not_exprt (and_exprt int_min_eq minus_one_eq))
              "arithmetic overflow on signed division" "overflow" expr]
      else Ok []
    else if is_id expr ID_unary_minus then
      if type_is typ ID_signedbv then
        (* overflow on unary- can only happen with the smallest
           representable number 100....0 *)
        do op <- to_unary_expr expr ;
        let int_min_eq := equal_exprt op (smallest_expr typ) in
        Ok [property (not_exprt int_min_eq)
              "arithmetic overflow on signed unary minus" "overflow" expr]
      else Ok []
    else if is_id expr ID_shl then
      if type_is typ ID_signedbv then
        do od <- to_binary_expr expr ;
        let '(op, distance) := od in
        let op_type := typ in
        let op_width := Z.of_N (get_width op_type) in
        let distance_type := type distance in
        (* a left shift of a negative value is undefined;
           yet this isn't an overflow *)
        let neg_value_shift :=
          if type_is op_type ID_unsignedbv then false_exprt
          else binary_relation_exprt op ID_lt (from_integer 0 op_type) in
        (* a shift with negative distance is undefined;
           yet this isn't an overflow *)
        let neg_dist_shift :=
          if type_is distance_type ID_unsignedbv then false_exprt
          else binary_relation_exprt op ID_lt (from_integer 0 distance_type) in
        (* shifting a non-zero value by more than its width is undefined;
           yet this isn't an overflow *)
        let dist_too_large :=
          binary_predicate_exprt distance ID_gt
            (from_integer op_width distance_type) in
        let op_zero := equal_exprt op (from_integer 0 op_type) in
        let new_type := set_width op_type (Z.to_N (size_t (op_width * 2))) in
        let op_ext := typecast_exprt op new_type in
        let op_ext_shifted := shl_exprt op_ext distance in
        (* The semantics of signed left shifts are contentious for the case
           that a '1' is shifted into the signed bit.
           Assuming 32-bit integers, 1<<31 is implementation-defined
           in ANSI C and C++98, but is explicitly undefined by C99,
           C11 and C++11. *)
        let allow_shift_into_sign_bit :=
          if String.eqb (mode st) ID_C then
            match config_c_standard S with
            | C99 | C11 => false
            | _ => true
            end
          else if String.eqb (mode st) ID_cpp then
            match config_cpp_standard S with
            | CPP11 | CPP14 => false
            | _ => true
            end
          else true in
        let number_of_top_bits :=
          (if allow_shift_into_sign_bit then op_width else op_width + 1)
          mod 2 ^ 32 in
        let new_width := Z.of_N (get_width new_type) in
        let top_bits :=
          extractbits_exprt op_ext_shifted
            (size_t (new_width - 1))
            (size_t (new_width - number_of_top_bits))
            (unsignedbv_typet (Z.to_N number_of_top_bits)) in
        let top_bits_zero :=
          equal_exprt top_bits (from_integer 0 (type top_bits)) in
        (* a negative distance shift isn't an overflow;
           a negative value shift isn't an overflow;
           a shift that's too far isn't an overflow;
           a shift of zero isn't overflow;
           else check the top bits *)
        Ok [property
              (disjunction [neg_value_shift; neg_dist_shift; dist_too_large;
                            op_zero; top_bits_zero])
              "arithmetic overflow on signed shl" "overflow" expr]
      else Ok []
    else
      let overflow_id := ("overflow-" ++ id expr)%string in
      let kind :=
        if type_is typ ID_unsignedbv then "unsigned" else "signed" in
      let text := ("arithmetic overflow on " ++ kind ++ " " ++ id expr)%string in
      if (3 <=? length (operands expr))%nat then
        (* The overflow checks are binary!  We break these up. *)
        Ok (map
              (fun i =>
                 let tmp :=
                   if (i =? 1)%nat then nth 0 (operands expr) nil_exprt
                   else Expr (id expr) typ (named_sub expr)
                             (firstn i (operands expr)) in
                 let overflow :=
                   multi_ary_exprt overflow_id
                     [tmp; nth i (operands expr) nil_exprt] bool_typet in
                 property (not_exprt overflow) text "overflow" expr)
              (seq 1 (length (operands expr) - 1)))
      else
        let overflow :=
          multi_ary_exprt overflow_id (operands expr) bool_typet in
        Ok [property (not_exprt overflow) text "overflow" expr].

(** The case of [float_overflow_check] for [+], [-] and [*] applied to
    exactly two operands. *)
Definition float_overflow_binary (expr : exprt) : result (list propertyt) :=
  do ab <- to_binary_expr expr ;
  let '(a, b) := ab in
  (* Can overflow *)
  let overflow_check :=
    or_exprt3 (isinf_exprt a) (isinf_exprt b) (not_exprt (isinf_exprt expr)) in
  let kind :=
    if is_id expr ID_plus then "addition"
    else if is_id expr ID_minus then "subtraction"
    else if is_id expr ID_mult then "multiplication" else "" in
  Ok [property overflow_check
               ("arithmetic overflow on floating-point " ++ kind)%string
               "overflow" expr].

(** The call on [make_binary(expr)] for three or more operands re-enters
    the function with a binary application of the same operator and type,
    that is, with the case above. *)
Definition float_overflow_check (expr : exprt) (st : goto_checkt)
  : result (list propertyt) :=
  if negb (enable_float_overflow_check (flags st)) then Ok []
  else
    (* First, check type. *)
    let typ := type expr in
    if negb (type_is typ ID_floatbv) then Ok []
    (* add overflow subgoal *)
    else if is_id expr ID_typecast then
      (* Can overflow if casting from larger to smaller type. *)
      do op <- to_unary_expr expr ;
      if type_is (type op) ID_floatbv then
        (* float-to-float *)
        let overflow_check :=
          or_exprt (isinf_exprt op) (not_exprt (isinf_exprt expr)) in
        Ok [property overflow_check
              "arithmetic overflow on floating-point typecast" "overflow" expr]
      else
        (* non-float-to-float *)
        Ok [property (not_exprt (isinf_exprt expr))
              "arithmetic overflow on floating-point typecast" "overflow" expr]
    else if is_id expr ID_div then
      (* Can overflow if dividing by something small *)
      do dd <- to_binary_expr expr ;
      let overflow_check :=
        or_exprt (isinf_exprt (fst dd)) (not_exprt (isinf_exprt expr)) in
      Ok [property overflow_check
            "arithmetic overflow on floating-point division" "overflow" expr]
    else if is_id expr ID_mod then Ok [] (* Can't overflow *)
    else if is_id expr ID_unary_minus then Ok [] (* Can't overflow *)
    else if is_id expr ID_plus || is_id expr ID_mult || is_id expr ID_minus then
      if (length (operands expr) =? 2)%nat then float_overflow_binary expr
      else if (3 <=? length (operands expr))%nat then
        if is_id expr ID_minus then Err (assertion_failed "expr.id()!=ID_minus")
        else float_overflow_binary (make_binary expr) (* break up *)
      else Ok []
    else Ok [].

(** The cases of [nan_check] for an application to at most two operands;
    the call on [make_binary(expr)] for a [*] or [+] of three or more
    operands re-enters the function with such an application. *)
Definition nan_check_binary (expr : exprt) : result (list propertyt) :=
  do isnan <-
    (if is_id expr ID_div then
       do dd <- to_binary_expr expr ;
       let '(d0, d1) := dd in
       (* there a two ways to get a new NaN on division:
          0/0 = NaN and x/inf = NaN
          (note that x/0 = +-inf for x!=0 and x!=inf) *)
       let zero_div_zero :=
         and_exprt
           (ieee_float_equal_exprt d0 (from_integer 0 (type d0)))
           (ieee_float_equal_exprt d1 (from_integer 0 (type d1))) in
       let div_inf := isinf_exprt d1 in
       Ok (or_exprt zero_div_zero div_inf)
     else if is_id expr ID_mult then
       do m0 <- op0 expr ;
       do m1 <- op1 expr ;
       (* Inf * 0 is NaN *)
       let inf_times_zero :=
         and_exprt
           (isinf_exprt m0)
           (ieee_float_equal_exprt m1 (from_integer 0 (type m1))) in
       let zero_times_inf :=
         and_exprt
           (ieee_float_equal_exprt m1 (from_integer 0 (type m1)))
           (isinf_exprt m0) in
       Ok (or_exprt inf_times_zero zero_times_inf)
     else if is_id expr ID_plus then
       do p0 <- op0 expr ;
       do p1 <- op1 expr ;
       (* -inf + +inf = NaN and +inf + -inf = NaN, i.e., signs differ *)
       let plus_inf := ieee_plus_infinity S (type expr) in
       let minus_inf := ieee_minus_infinity S (type expr) in
       Ok (or_exprt
             (and_exprt (equal_exprt p0 minus_inf) (equal_exprt p1 plus_inf))
             (and_exprt (equal_exprt p0 plus_inf) (equal_exprt p1 minus_inf)))
     else if is_id expr ID_minus then
       (* +inf - +inf = NaN and -inf - -inf = NaN, i.e., signs match *)
       do mm <- to_binary_expr expr ;
       let '(m0, m1) := mm in
       let plus_inf := ieee_plus_infinity S (type expr) in
       let minus_inf := ieee_minus_infinity S (type expr) in
       Ok (or_exprt
             (and_exprt (equal_exprt m0 plus_inf) (equal_exprt m1 plus_inf))
             (and_exprt (equal_exprt m0 minus_inf) (equal_exprt m1 minus_inf)))
     else Err (invariant_violation "unreachable")) ;
  Ok [property (boolean_negate S isnan) ("NaN on " ++ id expr)%string "NaN" expr].

Definition nan_check (expr : exprt) (st : goto_checkt)
  : result (list propertyt) :=
  if negb (enable_nan_check (flags st)) then Ok []
  (* first, check type *)
  else if negb (type_is (type expr) ID_floatbv) then Ok []
  else if negb (is_id expr ID_plus) && negb (is_id expr ID_mult) &&
          negb (is_id expr ID_div) && negb (is_id expr ID_minus)
  then Ok []
  (* add NaN subgoal *)
  else if (is_id expr ID_mult || is_id expr ID_plus) &&
          (3 <=? length (operands expr))%nat
  then nan_check_binary (make_binary expr)
  else nan_check_binary expr.

Definition pointer_rel_check (expr : exprt) (st : goto_checkt)
  : result (list propertyt) :=
  if negb (enable_pointer_check (flags st)) then Ok []
  else
    do ab <- to_binary_expr expr ;
    let '(a, b) := ab in
    if type_is (type a) ID_pointer && type_is (type b) ID_pointer then
      (* add same-object subgoal *)
      if enable_pointer_check (flags st) then
        Ok [property (same_object S a b) "same object violation" "pointer" expr]
      else Ok []
    else Ok [].

Definition pointer_overflow_check (expr : exprt) (st : goto_checkt)
  : result (list propertyt) :=
  if negb (enable_pointer_overflow_check (flags st)) then Ok []
  else if negb (is_id expr ID_plus) && negb (is_id expr ID_minus) then Ok []
  else if negb (length (operands expr) =? 2)%nat then
    Err (invariant_violation
           "pointer arithmetic expected to have exactly 2 operands")
  else
    let overflow :=
      Expr ("overflow-" ++ id expr)%string bool_typet [] (operands expr) in
    Ok [property (not_exprt overflow)
          ("pointer arithmetic overflow on " ++ id expr)%string
          "overflow" expr].

Definition mk_condition (a : exprt) (d : string) : conditiont :=
  {| assertion := a; description := d |}.

Definition when {A : Type} (b : bool) (l : list A) : list A :=
  if b then l else [].

Definition address_check (address size : exprt) (st : goto_checkt)
  : result (list conditiont) :=
  match local_bitvector_analysis st, current_target st with
  | Some analysis, Some target =>
    if negb (type_is (type address) ID_pointer) then
      Err (invariant_violation "address.type().id() == ID_pointer")
    else
      let pointer_type := type address in
      let flags := lba_get analysis target address in
      (* For Java, we only need to check for null *)
      if String.eqb (mode st) ID_java then
        if is_unknown flags || is_null flags then
          let not_eq_null :=
            notequal_exprt address (null_pointer_exprt pointer_type) in
          Ok [mk_condition not_eq_null "reference is null"]
        else Ok []
      else
        let alloc_disjuncts :=
          map (fun a : allocationt =>
                 let int_ptr := typecast_exprt address (type (fst a)) in
                 let lb_check := binary_relation_exprt (fst a) ID_le int_ptr in
                 let ub := plus_exprt int_ptr size in
                 let ub_check :=
                   binary_relation_exprt ub ID_le
                     (plus_exprt (fst a) (snd a)) in
                 and_exprt lb_check ub_check)
              (allocations st) in
        let in_bounds_of_some_explicit_allocation :=
          disjunction alloc_disjuncts in
        Ok (
          when (is_unknown flags || is_null flags)
            [mk_condition
               (or_exprt in_bounds_of_some_explicit_allocation
                         (not_exprt (null_pointer S address)))
               "pointer NULL"] ++
          when (is_unknown flags)
            [mk_condition (not_exprt (is_invalid_pointer_exprt address))
                       "pointer invalid"] ++
          when (is_uninitialized flags)
            [mk_condition
               (or_exprt in_bounds_of_some_explicit_allocation
                         (not_exprt (is_invalid_pointer_exprt address)))
               "pointer uninitialized"] ++
          when (is_unknown flags || is_dynamic_heap flags)
            [mk_condition
               (or_exprt in_bounds_of_some_explicit_allocation
                         (not_exprt (deallocated S address)))
               "deallocated dynamic object"] ++
          when (is_unknown flags || is_dynamic_local flags)
            [mk_condition
               (or_exprt in_bounds_of_some_explicit_allocation
                         (not_exprt (dead_object S address)))
               "dead object"] ++
          when (is_unknown flags || is_dynamic_heap flags)
            (let dynamic_bounds_violation :=
               or_exprt (dynamic_object_lower_bound S address nil_exprt)
                        (dynamic_object_upper_bound S address size) in
             [mk_condition
                (or_exprt in_bounds_of_some_explicit_allocation
                   (implies_exprt (malloc_object S address)
                                  (not_exprt dynamic_bounds_violation)))
                "pointer outside dynamic object bounds"]) ++
          when (is_unknown flags || is_dynamic_local flags ||
                is_static_lifetime flags)
            (let object_bounds_violation :=
               or_exprt (object_lower_bound S address nil_exprt)
                        (object_upper_bound S address size) in
             [mk_condition
                (or_exprt in_bounds_of_some_explicit_allocation
                   (implies_exprt (not_exprt (dynamic_object S address))
                                  (not_exprt object_bounds_violation)))
                "pointer outside object bounds"]) ++
          when (is_unknown flags || is_integer_address flags)
            [mk_condition
               (implies_exprt (integer_address S address)
                              in_bounds_of_some_explicit_allocation)
               "invalid integer address"])
  | _, _ => Err (invariant_violation "local_bitvector_analysis")
  end.

(** [pointer_validity_check(expr, src_expr, guard)]: [expr] is a
    dereference. *)
Definition pointer_validity_check (expr src_expr : exprt) (st : goto_checkt)
  : result (list propertyt) :=
  if negb (enable_pointer_check (flags st)) then Ok []
  else
    do pointer <- to_unary_expr expr ;
    match size_of_expr S (type expr) with
    | None => Err (invariant_violation "size_of_expr_opt.has_value()")
    | Some size =>
        do conditions <- address_check pointer size st ;
        Ok (map (fun c =>
                   property (assertion c)
                            ("dereference failure: " ++ description c)%string
                            "pointer dereference" src_expr)
                conditions)
    end.

Definition bounds_check (expr : exprt) (st : goto_checkt)
  : result (list propertyt) :=
  if negb (enable_bounds_check (flags st)) then Ok []
  else if match find_named "bounds_check" (named_sub expr) with
          | Some _ => negb (String.eqb (get expr "bounds_check") "1")
          | None => false
          end
  then Ok []
  else
    do ai <- to_binary_expr expr ;
    let '(array, index) := ai in
    let array_type := type array in
    if type_is array_type ID_pointer then
      Err (thrown "index got pointer as array type")
    else if negb (type_is array_type ID_array) &&
            negb (type_is array_type ID_vector)
    then
      Err (thrown ("bounds check expected array or vector type, got " ++
                   type_id array_type))
    else
      let name := array_name S array in
      let root_object := ode_root_object S expr in
      let offset := ode_offset S expr in
      do lower <-
        (if negb (type_is (type index) ID_unsignedbv) then
           (* we undo typecasts to signedbv *)
           if is_id index ID_typecast &&
              match operands index with
              | o :: _ => type_is (type o) ID_unsignedbv
              | [] => false
              end
           then Ok [] (* ok *)
           else
             let i := numeric_cast index in
             if match i with Some z => z <? 0 | None => true end then
               do effective_offset <-
                 (if is_id root_object ID_dereference then
                    do pointer <- to_unary_expr root_object ;
                    let p_offset := pointer_offset S pointer in
                    if negb (typet_eqb (type p_offset) (type offset)) then
                      Err (assertion_failed
                             "p_offset.type()==effective_offset.type()")
                    else Ok (plus_exprt p_offset offset)
                  else Ok offset) ;
               let zero := from_integer 0 (type offset) in
               (* the final offset must not be negative *)
               let inequality :=
                 binary_relation_exprt effective_offset ID_ge zero in
               Ok [property inequality (name ++ " lower bound")%string
                            "array bounds" expr]
             else Ok []
         else Ok []) ;
      do dyn <-
        (if is_id root_object ID_dereference then
           do pointer <- to_unary_expr root_object ;
           let size :=
             if_exprt (dynamic_object S pointer)
                      (typecast_exprt (dynamic_size S)
                                      (type (object_size S pointer)))
                      (object_size S pointer) in
           let effective_offset :=
             plus_exprt offset (pointer_offset S pointer) in
           if negb (typet_eqb (type offset) (type (pointer_offset S pointer)))
           then
             Err (assertion_failed
                    "effective_offset.op0().type()==effective_offset.op1().type()")
           else
             let size_casted := conditional_cast size (type effective_offset) in
             let inequality :=
               binary_relation_exprt effective_offset ID_lt size_casted in
             let alloc_disjuncts :=
               map (fun a : allocationt =>
                      let int_ptr := typecast_exprt pointer (type (fst a)) in
                      let lower_bound_check :=
                        binary_relation_exprt (fst a) ID_le int_ptr in
                      let upper_bound :=
                        plus_exprt int_ptr
                                   (conditional_cast offset (type int_ptr)) in
                      let upper_bound_check :=
                        binary_relation_exprt upper_bound ID_lt
                          (plus_exprt (fst a) (snd a)) in
                      and_exprt lower_bound_check upper_bound_check)
                   (allocations st) in
             let in_bounds_of_some_explicit_allocation :=
               disjunction alloc_disjuncts in
             let precond :=
               or_exprt3 in_bounds_of_some_explicit_allocation
                 (and_exprt (dynamic_object S pointer)
                            (not_exprt (malloc_object S pointer)))
                 inequality in
             let type_matches_size :=
               match size_of_expr S (type root_object) with
               | Some type_size =>
                   (* the size reported by sizeof matches the run-time size *)
                   if_exprt (dynamic_object S pointer)
                     (and_exprt (malloc_object S pointer)
                        (equal_exprt
                           (conditional_cast (dynamic_size S) (type type_size))
                           type_size))
                     (equal_exprt
                        (conditional_cast (object_size S pointer)
                                          (type type_size))
                        type_size)
               | None => true_exprt
               end in
             Ok ([property precond
                    (name ++ " dynamic object upper bound")%string
                    "array bounds" expr],
                 type_matches_size)
         else Ok ([], true_exprt)) ;
      let '(dynamic_upper, type_matches_size) := dyn in
      let size := array_type_size S array_type in
      do upper <-
        (if is_nil size then
           (* Linking didn't complete, we don't have a size. *)
           Ok []
         else if is_id size ID_infinity then Ok []
         else if is_zero size && is_id array ID_member then
           (* a variable sized struct member *)
           match size_of_expr S (type root_object) with
           | None => Err (invariant_violation "type_size_opt.has_value()")
           | Some type_size =>
               let inequality :=
                 binary_relation_exprt
                   (conditional_cast offset (type type_size)) ID_lt type_size in
               Ok [property (implies_exprt type_matches_size inequality)
                     (name ++ " upper bound")%string "array bounds" expr]
           end
         else
           (* typecast size *)
           let inequality :=
             binary_relation_exprt index ID_lt
               (conditional_cast size (type index)) in
           Ok [property (implies_exprt type_matches_size inequality)
                 (name ++ " upper bound")%string "array bounds" expr]) ;
      Ok (lower ++ dynamic_upper ++ upper).

(** *** The expression walker

    The guard is passed by reference in the source; here every walker
    function returns the guard it leaves behind together with the state. *)

Definition walkt : Type := result (guardt * goto_checkt).

(** Submit the obligations of a builder under [guard]. *)
Definition submit (r : result (list propertyt)) (guard : guardt)
  (st : goto_checkt) : walkt :=
  do l <- r ;
  Ok (guard, add_guarded_properties l guard st).

Section Walk.

(** The recursive call [check_rec], tied by the fixpoint below. *)
Variable rec : exprt -> guardt -> goto_checkt -> walkt.

(** The loop [forall_operands(it, expr)] calling [check_rec] on each
    operand. *)
Fixpoint for_operands (l : list exprt) (guard : guardt) (st : goto_checkt)
  : walkt :=
  match l with
  | [] => Ok (guard, st)
  | op :: r =>
      do x <- rec op guard st ;
      for_operands r (fst x) (snd x)
  end.

(** The loop of [check_rec_logical_op]. *)
Fixpoint logical_op_loop (is_or : bool) (l : list exprt) (guard : guardt)
  (st : goto_checkt) : walkt :=
  match l with
  | [] => Ok (guard, st)
  | op :: r =>
      if negb (is_boolean op) then
        Err (invariant_violation "takes Boolean operands only")
      else
        do x <- rec op guard st ;
        logical_op_loop is_or r
          (guard_add (fst x) (if is_or then boolean_negate S op else op))
          (snd x)
  end.

(** [ops] are the operands of [expr]. *)
Definition check_rec_logical_op (expr : exprt) (ops : list exprt)
  (guard : guardt) (st : goto_checkt) : walkt :=
  if negb (is_boolean expr) then Err (invariant_violation "must be Boolean")
  else
    let old_guard := guard in
    do x <- logical_op_loop (is_id expr ID_or) ops guard st ;
    Ok (old_guard, snd x).

(** [check_rec_if] on [if_expr.cond()], [true_case()], [false_case()]. *)
Definition check_rec_if (cond true_case false_case : exprt)
  (guard : guardt) (st : goto_checkt) : walkt :=
  if negb (is_boolean cond) then
    Err (invariant_violation "first argument of if must be boolean")
  else
    do x <- rec cond guard st ;
    let '(guard, st) := x in
    do y <-
      (let old_guard := guard in
       let guard := guard_add guard cond in
       do y <- rec true_case guard st ;
       Ok (old_guard, snd y)) ;
    let '(guard, st) := y in
    let old_guard := guard in
    let guard := guard_add guard (not_exprt cond) in
    do z <- rec false_case guard st ;
    Ok (old_guard, snd z).

(** [check_rec_member]: [pointer] is [deref.pointer()] for the dereference
    [member.struct_op()]; the Boolean result is returned with the guard and
    the state. *)
Definition check_rec_member (member pointer : exprt)
  (guard : guardt) (st : goto_checkt) : result (bool * (guardt * goto_checkt)) :=
  do x <- rec pointer guard st ;
  let '(guard, st) := x in
  (* avoid building the following expressions when pointer_validity_check
     would return immediately anyway *)
  if negb (enable_pointer_check (flags st)) then Ok (true, (guard, st))
  else
    (* we rewrite s->member into *(s+member_offset)
       to avoid requiring memory safety of the entire struct *)
    match member_offset_expr S member with
    | Some member_offset =>
      if negb (type_is (type pointer) ID_pointer) then
        Err (invariant_violation "to_pointer_type")
      else
        let new_pointer_type := set_subtype (type pointer) (type member) in
        let char_pointer := conditional_cast pointer (char_pointer_type S) in
        let new_address_casted :=
          conditional_cast
            (plus_exprt char_pointer
               (conditional_cast member_offset (pointer_diff_type S)))
            new_pointer_type in
        let new_deref := dereference_exprt new_address_casted in
        do y <- submit (pointer_validity_check new_deref member st) guard st ;
        Ok (true, y)
    | None => Ok (false, (guard, st))
    end.

End Walk.

Definition and_then (w : walkt) (f : guardt -> goto_checkt -> walkt) : walkt :=
  do x <- w ; f (fst x) (snd x).

Definition check_rec_div (div_expr : exprt) (guard : guardt)
  (st : goto_checkt) : walkt :=
  and_then (submit (div_by_zero_check div_expr st) guard st)
    (fun guard st =>
       if type_is (type div_expr) ID_signedbv then
         submit (integer_overflow_check div_expr st) guard st
       else if type_is (type div_expr) ID_floatbv then
         and_then (submit (nan_check div_expr st) guard st)
           (fun guard st => submit (float_overflow_check div_expr st) guard st)
       else Ok (guard, st)).

Definition check_rec_arithmetic_op (expr : exprt) (guard : guardt)
  (st : goto_checkt) : walkt :=
  if type_is (type expr) ID_signedbv || type_is (type expr) ID_unsignedbv then
    submit (integer_overflow_check expr st) guard st
  else if type_is (type expr) ID_floatbv then
    and_then (submit (nan_check expr st) guard st)
      (fun guard st => submit (float_overflow_check expr st) guard st)
  else if type_is (type expr) ID_pointer then
    submit (pointer_overflow_check expr st) guard st
  else Ok (guard, st).

(** The checks of [check_rec] that follow the descent into the operands. *)
Definition check_rec_node (expr : exprt) (guard : guardt) (st : goto_checkt)
  : walkt :=
  if is_id expr ID_index then
    to_binary_expr expr ;; submit (bounds_check expr st) guard st
  else if is_id expr ID_div then
    to_binary_expr expr ;; check_rec_div expr guard st
  else if is_id expr ID_shl || is_id expr ID_ashr || is_id expr ID_lshr then
    to_binary_expr expr ;;
    and_then (submit (undefined_shift_check expr st) guard st)
      (fun guard st =>
         if is_id expr ID_shl && type_is (type expr) ID_signedbv then
           submit (integer_overflow_check expr st) guard st
         else Ok (guard, st))
  else if is_id expr ID_mod then
    to_binary_expr expr ;;
    and_then (submit (mod_by_zero_check expr st) guard st)
      (fun guard st => submit (mod_overflow_check expr st) guard st)
  else if is_id expr ID_plus || is_id expr ID_minus || is_id expr ID_mult ||
          is_id expr ID_unary_minus then
    check_rec_arithmetic_op expr guard st
  else if is_id expr ID_typecast then
    submit (conversion_check expr st) guard st
  else if is_id expr ID_le || is_id expr ID_lt || is_id expr ID_ge ||
          is_id expr ID_gt then
    to_binary_expr expr ;; submit (pointer_rel_check expr st) guard st
  else if is_id expr ID_dereference then
    to_unary_expr expr ;; submit (pointer_validity_check expr expr st) guard st
  else Ok (guard, st).

Fixpoint check_rec (expr : exprt) (guard : guardt) (st : goto_checkt)
  {struct expr} : walkt :=
  match expr with
  | Expr i _ _ ops =>
      (* we don't look into quantifiers *)
      if String.eqb i ID_exists || String.eqb i ID_forall then Ok (guard, st)
      else if String.eqb i ID_address_of then
        match ops with
        | [object] => check_rec_address object guard st
        | _ => Err (invariant_violation "to_address_of_expr")
        end
      else if String.eqb i ID_and || String.eqb i ID_or then
        check_rec_logical_op check_rec expr ops guard st
      else if String.eqb i ID_if then
        match ops with
        | [c; t; f] => check_rec_if check_rec c t f guard st
        | _ => Err (invariant_violation "to_if_expr")
        end
      else
        do m <-
          (if String.eqb i ID_member then
             match ops with
             | [Expr di _ _ dops] =>
                 if String.eqb di ID_dereference then
                   match dops with
                   | [pointer] => check_rec_member check_rec expr pointer guard st
                   | _ => Err (invariant_violation "to_dereference_expr")
                   end
                 else Ok (false, (guard, st))
             | _ => Err (invariant_violation "to_member_expr")
             end
           else Ok (false, (guard, st))) ;
        if fst m then Ok (snd m)
        else
          do x <- for_operands check_rec ops (fst (snd m)) (snd (snd m)) ;
          check_rec_node expr (fst x) (snd x)
  end

with check_rec_address (expr : exprt) (guard : guardt) (st : goto_checkt)
  {struct expr} : walkt :=
  match expr with
  | Expr i _ _ ops =>
      (* we don't look into quantifiers *)
      if String.eqb i ID_exists || String.eqb i ID_forall then Ok (guard, st)
      else if String.eqb i ID_dereference then
        match ops with
        | [pointer] => check_rec pointer guard st
        | _ => Err (invariant_violation "to_dereference_expr")
        end
      else if String.eqb i ID_index then
        match ops with
        | [array; index] =>
            do x <- check_rec_address array guard st ;
            check_rec index (fst x) (snd x)
        | _ => Err (invariant_violation "to_index_expr")
        end
      else for_operands check_rec_address ops guard st
  end.

Definition check (expr : exprt) (st : goto_checkt) : result goto_checkt :=
  let guard := guard_true in
  do x <- check_rec expr guard st ;
  Ok (snd x).

(** expand the r_ok and w_ok predicates *)
Fixpoint rw_ok_check (expr : exprt) (st : goto_checkt) {struct expr}
  : result (option exprt) :=
  match expr with
  | Expr i t n ops =>
      do r <-
        (fix operands_loop (l : list exprt) : result (list exprt * bool) :=
           match l with
           | [] => Ok ([], false)
           | op :: rest =>
               do op_result <- rw_ok_check op st ;
               do y <- operands_loop rest ;
               match op_result with
               | Some e => Ok (e :: fst y, true)
               | None => Ok (op :: fst y, snd y)
               end
           end) ops ;
      let '(new_ops, modified) := r in
      if String.eqb i ID_r_ok || String.eqb i ID_w_ok then
        (* these get an address as first argument and a size as second *)
        match new_ops with
        | [a; b] =>
            do conditions <- address_check a b st ;
            Ok (Some (conjunction (map assertion conditions)))
        | _ => Err (invariant_violation "r/w_ok must have two operands")
        end
      else if modified then Ok (Some (Expr i t n new_ops))
      else Ok None
  end.

(** Remove all assertions containing the symbol in [lhs] as well as all
    assertions containing dereference. *)
Fixpoint invalidate (lhs : exprt) (st : goto_checkt) {struct lhs}
  : result goto_checkt :=
  match lhs with
  | Expr i _ _ ops =>
      if String.eqb i ID_index then
        match ops with
        | [array; _] => invalidate array st
        | _ => Err (invariant_violation "to_index_expr")
        end
      else if String.eqb i ID_member then
        match ops with
        | [struct_op] => invalidate struct_op st
        | _ => Err (invariant_violation "to_member_expr")
        end
      else if String.eqb i ID_symbol then
        (* clear all assertions about 'symbol' *)
        let find_symbols_set := [get_identifier lhs] in
        Ok (set_assertions st
              (filter
                 (fun a =>
                    negb (has_symbol a find_symbols_set ||
                          has_subexpr a ID_dereference))
                 (assertions st)))
      else
        (* give up, clear all *)
        Ok (set_assertions st [])
  end.

(** [code_function_callt]: the operands are the left-hand side, the
    function and the argument vector. *)
Definition to_code_function_call (c : exprt)
  : result (exprt * exprt * list exprt) :=
  match operands c with
  | [lhs; function; arguments] => Ok (lhs, function, operands arguments)
  | _ => Err (invariant_violation "function_call takes three operands")
  end.

Definition collect_allocations_instruction (instruction : instructiont)
  (st : goto_checkt) : result goto_checkt :=
  if negb (is_kind instruction FUNCTION_CALL) then Ok st
  else
    do call <- to_code_function_call (code instruction) ;
    let '(_, function, args) := call in
    if negb (is_id function ID_symbol) ||
       negb (String.eqb (get_identifier function)
                        (CPROVER_PREFIX ++ "allocated_memory"))
    then Ok st
    else
      match args with
      | [a0; a1] =>
          if negb (type_is (type a0) ID_unsignedbv) ||
             negb (type_is (type a1) ID_unsignedbv)
          then
            Err (thrown ("expected two unsigned arguments to " ++
                         CPROVER_PREFIX ++ "allocated_memory"))
          else if negb (typet_eqb (type a0) (type a1)) then
            Err (assertion_failed "args[0].type()==args[1].type()")
          else Ok (set_allocations st (allocations st ++ [(a0, a1)]))
      | _ =>
          Err (thrown ("expected two unsigned arguments to " ++
                       CPROVER_PREFIX ++ "allocated_memory"))
      end.

Fixpoint collect_allocations_body (body : goto_programt) (st : goto_checkt)
  : result goto_checkt :=
  match body with
  | [] => Ok st
  | instruction :: rest =>
      do st1 <- collect_allocations_instruction instruction st ;
      collect_allocations_body rest st1
  end.

Definition goto_functionst := list (irep_idt * goto_programt).

Fixpoint collect_allocations_functions (fs : goto_functionst)
  (st : goto_checkt) : result goto_checkt :=
  match fs with
  | [] => Ok st
  | f :: rest =>
      do st1 <- collect_allocations_body (snd f) st ;
      collect_allocations_functions rest st1
  end.

Definition collect_allocations (goto_functions : goto_functionst)
  (st : goto_checkt) : result goto_checkt :=
  if negb (enable_pointer_check (flags st)) &&
     negb (enable_bounds_check (flags st))
  then Ok st
  else collect_allocations_functions goto_functions st.

(** *** The instruction driver *)

(** One step of the pragma loop: [flag_resetter.set_flag(flag, false)] for
    the flag the pragma names. *)
Definition apply_pragma (f : check_flagst) (d : irep_idt) : check_flagst :=
  let off (flag : bool) (name : string) := flag && negb (String.eqb d name) in
  {| enable_bounds_check :=
       off (enable_bounds_check f) "disable:bounds-check";
     enable_pointer_check :=
       off (enable_pointer_check f) "disable:pointer-check";
     enable_memory_leak_check :=
       off (enable_memory_leak_check f) "disable:memory-leak-check";
     enable_div_by_zero_check :=
       off (enable_div_by_zero_check f) "disable:div-by-zero-check";
     enable_signed_overflow_check :=
       off (enable_signed_overflow_check f) "disable:signed-overflow-check";
     enable_unsigned_overflow_check :=
       off (enable_unsigned_overflow_check f) "disable:unsigned-overflow-check";
     enable_pointer_overflow_check :=
       off (enable_pointer_overflow_check f) "disable:pointer-overflow-check";
     enable_conversion_check :=
       off (enable_conversion_check f) "disable:conversion-check";
     enable_undefined_shift_check :=
       off (enable_undefined_shift_check f) "disable:undefined-shift-check";
     enable_float_overflow_check :=
       off (enable_float_overflow_check f) "disable:float-overflow-check";
     enable_simplify := enable_simplify f;
     enable_nan_check := off (enable_nan_check f) "disable:nan-check";
     retain_trivial := retain_trivial f;
     enable_assert_to_assume := enable_assert_to_assume f;
     enable_assertions := enable_assertions f;
     enable_built_in_assertions := enable_built_in_assertions f;
     enable_assumptions := enable_assumptions f |}.

Definition is_rw_ok (expr : exprt) : bool :=
  is_id expr ID_r_ok || is_id expr ID_w_ok.

(** [check] on each element of a list of expressions, in order. *)
Fixpoint check_all (l : list exprt) (st : goto_checkt) : result goto_checkt :=
  match l with
  | [] => Ok st
  | op :: rest => do st1 <- check op st ; check_all rest st1
  end.

(** magic ERROR label? *)
Definition error_label_checks (i : instructiont) (st : goto_checkt)
  : goto_checkt :=
  fold_left
    (fun st label =>
       if existsb (String.eqb label) (labels i) then
         let t :=
           if enable_assert_to_assume (flags st)
           then make_assumption false_exprt (source_location i)
           else make_assertion false_exprt (source_location i) in
         let l :=
           set_user_provided
             (set_comment
                (set_property_class (source_location t) "error label")
                ("error label " ++ label))
             true in
         set_new_code st (new_code st ++ [set_source_location t l])
       else st)
    (error_labels st) st.

(** The expression an instruction handler leaves in the instruction when
    [rw_ok_check] rewrites it. *)
Definition rewrite_rw_ok (e : exprt) (st : goto_checkt) : result exprt :=
  if has_subexpr_pred is_rw_ok e then
    do rw_ok_cond <- rw_ok_check e st ;
    match rw_ok_cond with
    | Some c => Ok c
    | None => Ok e
    end
  else Ok e.

Definition true_guard_property (a : exprt) (c pc : string)
  (l : source_locationt) (e : exprt) : propertyt :=
  {| asserted_expr := a; comment := c; property_class := pc;
     prop_location := l; src_expr := e |}.

(** The dispatch on the instruction kind.  The result is the instruction as
    the handler leaves it, whether it was turned into a skip, and the
    state. *)
Definition goto_check_dispatch (function_identifier : irep_idt)
  (i : instructiont) (st : goto_checkt)
  : result (instructiont * bool * goto_checkt) :=
  if is_kind i OTHER then
    let statement := get (code i) ID_statement in
    if String.eqb statement ID_expression then
      do st1 <- check (code i) st ; Ok (i, false, st1)
    else if String.eqb statement ID_printf then
      do st1 <- check_all (operands (code i)) st ; Ok (i, false, st1)
    else Ok (i, false, st)
  else if is_kind i ASSIGN then
    do lr <- to_binary_expr (code i) ;
    let '(lhs, rhs) := lr in
    do st1 <- check lhs st ;
    do st2 <- check rhs st1 ;
    (* the LHS might invalidate any assertion *)
    do st3 <- invalidate lhs st2 ;
    do rhs' <- rewrite_rw_ok rhs st3 ;
    let 'Expr ci ct cn _ := code i in
    Ok (set_code i (Expr ci ct cn [lhs; rhs']), false, st3)
  else if is_kind i FUNCTION_CALL then
    do call <- to_code_function_call (code i) ;
    let '(_, function, arguments) := call in
    (* for Java, need to check whether 'this' is null
       on non-static method invocations *)
    do st1 <-
      (if String.eqb (mode st) ID_java &&
          enable_pointer_check (flags st) &&
          negb (match arguments with [] => true | _ => false end) &&
          type_is (type function) ID_code &&
          has_this S (type function)
       then
         let pointer := nth 0 arguments nil_exprt in
         match local_bitvector_analysis st, current_target st with
         | Some analysis, Some target =>
             let flags := lba_get analysis target pointer in
             if is_unknown flags || is_null flags then
               if negb (type_is (type pointer) ID_pointer) then
                 Err (invariant_violation "to_pointer_type")
               else
               let not_eq_null :=
                 notequal_exprt pointer (null_pointer_exprt (type pointer)) in
               Ok (add_guarded_property
                     (true_guard_property not_eq_null
                        "this is null on method invocation"
                        "pointer dereference" (source_location i) pointer)
                     guard_true st)
             else Ok st
         | _, _ => Err (invariant_violation "local_bitvector_analysis")
         end
       else Ok st) ;
    do st2 <- check_all (operands (code i)) st1 ;
    (* the call might invalidate any assertion *)
    Ok (i, false, set_assertions st2 [])
  else if is_kind i RETURN then
    match operands (code i) with
    | [return_value] =>
        do st1 <- check return_value st ;
        (* the return value invalidate any assertion *)
        do st2 <- invalidate return_value st1 ;
        do return_value' <- rewrite_rw_ok return_value st2 ;
        let 'Expr ci ct cn _ := code i in
        Ok (set_code i (Expr ci ct cn [return_value']), false, st2)
    | _ => Ok (i, false, st)
    end
  else if is_kind i THROW then
    do st1 <-
      (if String.eqb (get (code i) ID_statement) ID_expression then
         match operands (code i) with
         | [Expr _ _ _ [pointer]] =>
             (* must not throw NULL *)
             if negb (type_is (type pointer) ID_pointer) then
               Err (invariant_violation "to_pointer_type")
             else
               let not_eq_null :=
                 notequal_exprt pointer (null_pointer_exprt (type pointer)) in
               Ok (add_guarded_property
                     (true_guard_property not_eq_null "throwing null"
                        "pointer dereference" (source_location i) pointer)
                     guard_true st)
         | _ => Ok st
         end
       else Ok st) ;
    (* this has no successor *)
    Ok (i, false, set_assertions st1 [])
  else if is_kind i ASSERT then
    let is_user_provided := loc_user_provided (source_location i) in
    if (is_user_provided && negb (enable_assertions (flags st)) &&
        negb (String.eqb (loc_property_class (source_location i))
                         "error label")) ||
       (negb is_user_provided && negb (enable_built_in_assertions (flags st)))
    then Ok (turn_into_skip i, true, st)
    else Ok (i, false, st)
  else if is_kind i ASSUME then
    if negb (enable_assumptions (flags st))
    then Ok (turn_into_skip i, true, st)
    else Ok (i, false, st)
  else if is_kind i DEAD then
    if enable_pointer_check (flags st) then
      match operands (code i), local_bitvector_analysis st with
      | [variable], Some analysis =>
          (* is it dirty? *)
          if lba_dirty analysis variable then
            (* need to mark the dead variable as dead *)
            let lhs := ns_lookup_symbol_expr S (CPROVER_PREFIX ++ "dead_object")%string in
            let address_of_expr :=
              conditional_cast (address_of_exprt variable (pointer_width S))
                               (type lhs) in
            let rhs :=
              if_exprt
                (side_effect_expr_nondet S bool_typet (source_location i))
                address_of_expr lhs in
            Ok (i, false,
                set_new_code st
                  (new_code st ++ [make_assignment lhs rhs (source_location i)]))
          else Ok (i, false, st)
      | [_], None => Err (invariant_violation "local_bitvector_analysis")
      | _, _ => Err (assertion_failed "i.code.operands().size()==1")
      end
    else Ok (i, false, st)
  else if is_kind i END_FUNCTION then
    if String.eqb function_identifier (entry_point S) &&
       enable_memory_leak_check (flags st)
    then
     if negb (type_is (ns_lookup_type S (CPROVER_PREFIX ++ "memory_leak")%string)
                      ID_pointer)
     then Err (invariant_violation "to_pointer_type")
     else
      let leak_expr := ns_lookup_symbol_expr S (CPROVER_PREFIX ++ "memory_leak")%string in
      (* add self-assignment to get helpful counterexample output *)
      let st1 :=
        set_new_code st
          (new_code st ++ [make_assignment leak_expr leak_expr nil_location]) in
      let source_location := set_function empty_location function_identifier in
      let eq :=
        equal_exprt leak_expr
          (null_pointer_exprt
             (ns_lookup_type S (CPROVER_PREFIX ++ "memory_leak")%string)) in
      Ok (i, false,
          add_guarded_property
            (true_guard_property eq
               "dynamically allocated memory never freed" "memory-leak"
               source_location eq)
            guard_true st1)
    else Ok (i, false, st)
  else Ok (i, false, st).

(** Backfill of the source location of a new instruction that lacks one. *)
Definition backfill (from : source_locationt) (n : instructiont)
  : instructiont :=
  let l := source_location n in
  if loc_nil l then
    let pick (a b : irep_idt) := if negb (String.eqb a "") then a else b in
    set_source_location n
      {| loc_nil := false;
         loc_file := pick (loc_file from) (loc_file l);
         loc_line := pick (loc_line from) (loc_line l);
         loc_function := pick (loc_function from) (loc_function l);
         loc_column := pick (loc_column from) (loc_column l);
         loc_java_bytecode_index :=
           pick (loc_java_bytecode_index from) (loc_java_bytecode_index l);
         loc_comment := loc_comment l;
         loc_property_class := loc_property_class l;
         loc_user_provided := loc_user_provided l;
         loc_pragmas := loc_pragmas l |}
  else n.

Definition is_empty {A : Type} (l : list A) : bool :=
  match l with [] => true | _ => false end.

(** The part of the loop body before the dispatch: the current target, the
    pragmas, the reset of the patch buffer and of the cache. *)
Definition begin_instruction (i : instructiont) (st : goto_checkt)
  : goto_checkt :=
  let st := set_current_target st (Some i) in
  let st :=
    set_flags st
      (fold_left apply_pragma (loc_pragmas (source_location i)) (flags st)) in
  let st := set_new_code st [] in
  (* we clear all recorded assertions if
     1) we want to generate all assertions or
     2) the instruction is a branch target *)
  if retain_trivial (flags st) || is_target i then set_assertions st []
  else st.

(** Modelled from the spec: [insert_before_swap] (goto_program.h is not
    under src/): "splice the patch buffer immediately before the current
    instruction; advance the iterator past the inserted instructions". *)
Definition splice (patch : goto_programt) (i : instructiont) : goto_programt :=
  patch ++ [i].

(** One iteration of the loop over the instructions: the instructions that
    replace [i], whether something was done, and the state.  The flags that
    pragmas changed are restored when the iteration ends. *)
Definition goto_check_instruction (function_identifier : irep_idt)
  (i : instructiont) (st : goto_checkt)
  : result (goto_programt * bool * goto_checkt) :=
  let saved_flags := flags st in
  let st := begin_instruction i st in
  do ci <-
    (if has_condition i then
       do st1 <- check (condition i) st ;
       do c <- rewrite_rw_ok (condition i) st1 ;
       Ok (set_condition i c, st1)
     else Ok (i, st)) ;
  let '(i1, st) := ci in
  let st := error_label_checks i1 st in
  do d <- goto_check_dispatch function_identifier i1 st ;
  let '(i2, skipped, st) := d in
  let patch := map (backfill (source_location i2)) (new_code st) in
  (* insert new instructions -- make sure targets are not moved *)
  let did_something := skipped || negb (is_empty patch) in
  Ok (splice patch i2, did_something,
      set_flags (set_new_code st []) saved_flags).

Fixpoint goto_check_loop (function_identifier : irep_idt)
  (body : goto_programt) (st : goto_checkt)
  : result (goto_programt * bool * goto_checkt) :=
  match body with
  | [] => Ok ([], false, st)
  | i :: rest =>
      do r <- goto_check_instruction function_identifier i st ;
      let '(out, did, st1) := r in
      do r' <- goto_check_loop function_identifier rest st1 ;
      let '(out', did', st2) := r' in
      Ok (out ++ out', did || did', st2)
  end.

(** [goto_checkt::goto_check(function_identifier, goto_function)] *)
Definition goto_check (function_identifier : irep_idt)
  (body : goto_programt) (st : goto_checkt)
  : result (goto_programt * goto_checkt) :=
  let st := set_assertions st [] in
  let st := set_mode st (ns_lookup_mode S function_identifier) in
  let st :=
    set_analysis st (Some (make_local_bitvector_analysis S body)) in
  do r <- goto_check_loop function_identifier body st ;
  let '(goto_program, did_something, st1) := r in
  Ok (if did_something then remove_skip S goto_program else goto_program, st1).

(** [goto_check(function_identifier, goto_function, ns, options)]: a fresh
    checker object for one function. *)
Definition goto_check_function (options : check_flagst)
  (labels : list irep_idt) (function_identifier : irep_idt)
  (body : goto_programt) : result goto_programt :=
  do r <- goto_check function_identifier body (new_goto_checkt options labels) ;
  Ok (fst r).

Fixpoint goto_check_each (fs : goto_functionst) (st : goto_checkt)
  : result (goto_functionst * goto_checkt) :=
  match fs with
  | [] => Ok ([], st)
  | f :: rest =>
      do r <- goto_check (fst f) (snd f) st ;
      do r' <- goto_check_each rest (snd r) ;
      Ok ((fst f, fst r) :: fst r', snd r')
  end.

(** [goto_check(ns, options, goto_functions)] *)
Definition goto_check_functions (options : check_flagst)
  (labels : list irep_idt) (goto_functions : goto_functionst)
  : result goto_functionst :=
  let st := new_goto_checkt options labels in
  do st1 <- collect_allocations goto_functions st ;
  do r <- goto_check_each goto_functions st1 ;
  Ok (fst r).

End Checker.

End goto_check.

(** ** Reading obligations

    Obligations are Boolean expressions over atoms the pass does not
    interpret.  [holds v e] is the truth value of [e] when the atoms have
    the truth values [v]. *)

Fixpoint holds (v : exprt -> bool) (e : exprt) : bool :=
  match e with
  | Expr i _ _ l =>
      if String.eqb i ID_not then
        match l with
        | [a] => negb (holds v a)
        | _ => v e
        end
      else if String.eqb i ID_and then
        (fix all (l : list exprt) : bool :=
           match l with [] => true | a :: r => holds v a && all r end) l
      else if String.eqb i ID_or then
        (fix any (l : list exprt) : bool :=
           match l with [] => false | a :: r => holds v a || any r end) l
      else if String.eqb i ID_implies then
        match l with
        | [a; b] => implb (holds v a) (holds v b)
        | _ => v e
        end
      else if exprt_eqb e true_exprt then true
      else if exprt_eqb e false_exprt then false
      else v e
  end.

(** The value of the bit-vector operators that occur in the shift
    obligation, in two's complement.  A left shift by a distance outside
    [0, width) has no value. *)
Module bv.

Local Open Scope Z_scope.

Definition wrap (t : typet) (z : Z) : Z :=
  let w := Z.of_N (get_width t) in
  if type_is t ID_signedbv then (z + 2 ^ (w - 1)) mod 2 ^ w - 2 ^ (w - 1)
  else z mod 2 ^ w.

Fixpoint value (env : irep_idt -> Z) (e : exprt) : option Z :=
  match e with
  | Expr i t _ l =>
      if String.eqb i ID_symbol then Some (env (get_identifier e))
      else if String.eqb i ID_constant then numeric_cast e
      else if String.eqb i ID_typecast then
        match l with
        | [a] => option_map (wrap t) (value env a)
        | _ => None
        end
      else if String.eqb i ID_shl then
        match l with
        | [a; d] =>
            match value env a, value env d with
            | Some x, Some n =>
                if (0 <=? n) && (n <? Z.of_N (get_width t))
                then Some (wrap t (x * 2 ^ n)) else None
            | _, _ => None
            end
        | _ => None
        end
      else if String.eqb i ID_extractbits then
        match l with
        | [a; upper; lower] =>
            match value env a, numeric_cast upper, numeric_cast lower with
            | Some x, Some u, Some lo =>
                Some ((x mod 2 ^ Z.of_N (get_width (type a))) / 2 ^ lo
                      mod 2 ^ (u - lo + 1))
            | _, _, _ => None
            end
        | _ => None
        end
      else None
  end.

(** The atoms of the shift obligation: comparisons of two values. *)
Definition atom (env : irep_idt -> Z) (e : exprt) : bool :=
  match operands e with
  | [a; b] =>
      match value env a, value env b with
      | Some x, Some y =>
          if is_id e ID_lt then x <? y
          else if is_id e ID_gt then y <? x
          else if is_id e ID_ge then y <=? x
          else if is_id e ID_le then x <=? y
          else if is_id e ID_equal then x =? y
          else false
      | _, _ => false
      end
  | _ => false
  end.

End bv.

(** ** An instance of the services and the inputs of the examples

    No simplification, negation by [not_exprt], no size information, every
    pointer of unknown flavour (the coarse analysis), pointer predicates as
    uninterpreted predicate nodes, language standard C99. *)

Definition unknown_flags : flagst :=
  {| is_unknown := true; is_null := false; is_uninitialized := false;
     is_dynamic_heap := false; is_dynamic_local := false;
     is_static_lifetime := false; is_integer_address := false |}.

Definition predicate1 (i : irep_idt) (a : exprt) : exprt :=
  Expr i bool_typet [] [a].
Definition predicate2 (i : irep_idt) (a b : exprt) : exprt :=
  Expr i bool_typet [] [a; b].

Definition plain_services : servicest :=
  {| simplify_expr := fun e => e;
     boolean_negate := not_exprt;
     size_of_expr := fun _ => None;
     member_offset_expr := fun _ => None;
     from_expr := fun _ e => id e;
     array_name := fun _ => "array";
     find_source_location := fun _ => nil_location;
     ns_lookup_mode := fun _ => ID_C;
     ns_lookup_symbol_expr :=
       fun n => symbol_exprt n (pointer_type empty_typet 64);
     ns_lookup_type := fun _ => pointer_type empty_typet 64;
     make_local_bitvector_analysis :=
       fun _ => {| lba_get := fun _ _ => unknown_flags;
                   lba_dirty := fun _ => false |};
     ode_root_object := fun e => e;
     ode_offset := fun _ => from_integer 0 (signedbv_typet 64);
     array_type_size := fun _ => nil_exprt;
     char_pointer_type := pointer_type (signedbv_typet 8) 64;
     pointer_width := 64;
     has_this := fun _ => false;
     pointer_diff_type := signedbv_typet 64;
     null_pointer := predicate1 "null_pointer";
     same_object := predicate2 "same_object";
     deallocated := predicate1 "deallocated";
     dead_object := predicate1 "dead_object";
     malloc_object := predicate1 "malloc_object";
     dynamic_object := predicate1 "dynamic_object";
     integer_address := predicate1 "integer_address";
     dynamic_size := symbol_exprt "dynamic_size" (unsignedbv_typet 64);
     object_size := fun p => Expr "object_size" (unsignedbv_typet 64) [] [p];
     pointer_offset := fun p => Expr "pointer_offset" (signedbv_typet 64) [] [p];
     dynamic_object_lower_bound := predicate2 "dynamic_object_lower_bound";
     dynamic_object_upper_bound := predicate2 "dynamic_object_upper_bound";
     object_lower_bound := predicate2 "object_lower_bound";
     object_upper_bound := predicate2 "object_upper_bound";
     ieee_float_from_integer := fun t z => from_integer z t;
     ieee_plus_infinity := fun t => Expr ID_constant t [(ID_value, attr_id "+inf")] [];
     ieee_minus_infinity := fun t => Expr ID_constant t [(ID_value, attr_id "-inf")] [];
     side_effect_expr_nondet :=
       fun t _ => Expr "side_effect" t [(ID_statement, attr_id "nondet")] [];
     config_c_standard := C99;
     config_cpp_standard := CPP11;
     entry_point := "__CPROVER__start";
     remove_skip := filter (fun i => negb (is_kind i SKIP)) |}.

Import goto_check.

(** ** Notions used to state the properties of the walker *)

(** The state [st] with the assertion cache [a] and the patch buffer [n]:
    the walker changes nothing else. *)
Definition with_cache (st : goto_checkt) (a : list exprt) (n : goto_programt)
  : goto_checkt :=
  set_new_code (set_assertions st a) n.

(** A submission: an obligation and the guard it is submitted under. *)
Definition submissiont : Type := (propertyt * guardt)%type.

Definition submit_list (S : servicest) (l : list submissiont)
  (st : goto_checkt) : goto_checkt :=
  fold_left (fun s ph => add_guarded_property S (fst ph) (snd ph) s) l st.

(** The guard [h] is [g] with further conditions conjoined. *)
Definition extends (g h : guardt) : Prop := exists l, h = g ++ l.

(** One of the options that select a category of obligations is on. *)
Definition checks_enabled (f : check_flagst) : bool :=
  enable_bounds_check f || enable_pointer_check f ||
  enable_memory_leak_check f || enable_div_by_zero_check f ||
  enable_signed_overflow_check f || enable_unsigned_overflow_check f ||
  enable_pointer_overflow_check f || enable_conversion_check f ||
  enable_undefined_shift_check f || enable_float_overflow_check f ||
  enable_nan_check f.

(** What holds of the guard [h] of an obligation the walker submits when it
    is started under [g] in [st]: [h] extends [g], and some category of
    obligations is enabled. *)
Definition enabled_under (st : goto_checkt) (g h : guardt) : Prop :=
  extends g h /\ checks_enabled (flags st) = true.

(** The expression [add_guarded_property] asserts for [phi] under [h]. *)
Definition guarded (h : guardt) (phi : exprt) : exprt :=
  if guard_is_true h then phi else implies_exprt (guard_as_expr h) phi.

(** The expression a property is simplified to, and whether it is thrown
    away as trivial. *)
Definition simplified (S : servicest) (st : goto_checkt) (p : propertyt)
  : exprt :=
  if enable_simplify (flags st) then simplify_expr S (asserted_expr p)
  else asserted_expr p.

Definition trivial (S : servicest) (st : goto_checkt) (p : propertyt) : bool :=
  negb (retain_trivial (flags st)) && is_true (simplified S st p).

(** A walker [w] started in [st] with any cache either submits a fixed list
    of obligations, whose guards satisfy [Q], and leaves the guard [g], or
    fails with a fixed exception. *)
Definition pure_walk (S : servicest) (st : goto_checkt)
  (w : goto_checkt -> walkt) (g : guardt) (Q : guardt -> Prop) : Prop :=
  (exists subs : list submissiont,
      Forall (fun ph => Q (snd ph)) subs /\
      forall a n,
        w (with_cache st a n) = Ok (g, submit_list S subs (with_cache st a n)))
  \/ (exists x, forall a n, w (with_cache st a n) = Err x).

(** The submission is absorbed by the state: it is discarded as trivial or
    found in the cache. *)
Definition absorbed (S : servicest) (ph : submissiont) (st : goto_checkt)
  : Prop :=
  add_guarded_property S (fst ph) (snd ph) st = st.

Section Induction.

Variable P : exprt -> Prop.
Hypothesis step : forall i t n ops, Forall P ops -> P (Expr i t n ops).

Fixpoint exprt_ind' (e : exprt) : P e :=
  match e with
  | Expr i t n ops =>
      step i t n ops
        ((fix all (l : list exprt) : Forall P l :=
            match l with
            | [] => Forall_nil P
            | x :: r => Forall_cons x (exprt_ind' x) (all r)
            end) ops)
  end.

End Induction.

(** What the induction on expressions provides: both walkers are pure on
    the expression, under every guard. *)
Definition pure_on (S : servicest) (st : goto_checkt) (e : exprt) : Prop :=
  forall g,
    pure_walk S st (check_rec S e g) g (enabled_under st g) /\
    pure_walk S st (check_rec_address S e g) g (enabled_under st g).

(** ** Notions used to state what the pass inserts when every category is
    disabled *)

(** An obligation of an error label of the instruction [i]: [false], of
    property class "error label", for a label that is among the [declared]
    error labels and that [i] carries; the comment names the label. *)
Definition error_label_obligation (declared : list irep_idt)
  (i t : instructiont) : Prop :=
  condition t = false_exprt /\
  loc_property_class (source_location t) = "error label" /\
  exists label,
    In label declared /\ In label (labels i) /\
    loc_comment (source_location t) = ("error label " ++ label)%string.

(** The obligation the throw handling emits for the instruction [i]: [i]
    throws an expression with the single operand [pointer], and [t] asserts
    or assumes that [pointer] is not null. *)
Definition throwing_null_obligation (S : servicest) (m : irep_idt)
  (i t : instructiont) : Prop :=
  is_kind i THROW = true /\
  exists j ty n pointer,
    operands (code i) = [Expr j ty n [pointer]] /\
    let not_eq_null :=
      notequal_exprt pointer (null_pointer_exprt (type pointer)) in
    (condition t = not_eq_null \/ condition t = simplify_expr S not_eq_null) /\
    loc_property_class (source_location t) = "pointer dereference" /\
    loc_comment (source_location t) =
      ("throwing null in " ++ from_expr S m pointer)%string.

(** The instruction [i'] the pass leaves in the place of [i] has the kind of
    [i] or is a skip. *)
Definition kept (i i' : instructiont) : Prop :=
  itype i' = itype i \/ itype i' = SKIP.

(** [out] is [body] with, before each instruction [i], a patch of
    instructions that satisfy [ok i]. *)
Inductive patched (ok : instructiont -> instructiont -> Prop)
  : goto_programt -> goto_programt -> Prop :=
| patched_nil : patched ok [] []
| patched_cons i i' patch rest out :
    Forall (ok i) patch -> kept i i' -> patched ok rest out ->
    patched ok (i :: rest) (patch ++ i' :: out).

(** ** Notions used to state the properties of the allocation registry *)

(** The arguments of [instruction] when it is a call of the allocation
    intrinsic. *)
Definition allocated_memory_call (instruction : instructiont)
  : option (list exprt) :=
  if is_kind instruction FUNCTION_CALL then
    match operands (code instruction) with
    | [_; function; arguments] =>
        if is_id function ID_symbol &&
           String.eqb (get_identifier function)
                      (CPROVER_PREFIX ++ "allocated_memory")
        then Some (operands arguments) else None
    | _ => None
    end
  else None.

(** Exactly two arguments, both unsigned bit-vectors. *)
Definition two_unsigned (args : list exprt) : bool :=
  match args with
  | [a; b] => type_is (type a) ID_unsignedbv && type_is (type b) ID_unsignedbv
  | _ => false
  end.

(** Two arguments of the same type. *)
Definition same_type (args : list exprt) : bool :=
  match args with
  | [a; b] => typet_eqb (type a) (type b)
  | _ => false
  end.

Definition expected_two_unsigned : exceptiont :=
  thrown "expected two unsigned arguments to __CPROVER_allocated_memory".

(** The instructions of a program in the order of the collection: function
    by function, each body from its first instruction. *)
Definition program_instructions (goto_functions : goto_functionst)
  : list instructiont :=
  flat_map snd goto_functions.

(** The instruction is not a function call, or it is a call (its code has
    the three operands of a call) that is not a call of the allocation
    intrinsic or is one with two unsigned bit-vector arguments of the same
    type. *)
Definition well_formed_for_collection (instruction : instructiont) : bool :=
  (negb (is_kind instruction FUNCTION_CALL) ||
   Nat.eqb (length (operands (code instruction))) 3) &&
  match allocated_memory_call instruction with
  | Some args => two_unsigned args && same_type args
  | None => true
  end.

(** The (address, size) pair of a call of the allocation intrinsic with two
    arguments. *)
Definition allocation_of (instruction : instructiont) : list allocationt :=
  match allocated_memory_call instruction with
  | Some [address; size] => [(address, size)]
  | _ => []
  end.

(** ** Inputs of the examples *)

Definition int32 : typet := signedbv_typet 32.
Definition float32 : typet := Typ ID_floatbv 32 [] [].
Definition int_pointer : typet := pointer_type int32 64.

Definition all_checks_off : check_flagst :=
  {| enable_bounds_check := false;
     enable_pointer_check := false;
     enable_memory_leak_check := false;
     enable_div_by_zero_check := false;
     enable_signed_overflow_check := false;
     enable_unsigned_overflow_check := false;
     enable_pointer_overflow_check := false;
     enable_conversion_check := false;
     enable_undefined_shift_check := false;
     enable_float_overflow_check := false;
     enable_simplify := false;
     enable_nan_check := false;
     retain_trivial := false;
     enable_assert_to_assume := false;
     enable_assertions := true;
     enable_built_in_assertions := true;
     enable_assumptions := true |}.

(** The options of the examples: division-by-zero, signed-overflow, NaN and
    pointer checks on, user and built-in assertions kept. *)
Definition example_checks : check_flagst :=
  {| enable_bounds_check := false;
     enable_pointer_check := true;
     enable_memory_leak_check := false;
     enable_div_by_zero_check := true;
     enable_signed_overflow_check := true;
     enable_unsigned_overflow_check := false;
     enable_pointer_overflow_check := false;
     enable_conversion_check := false;
     enable_undefined_shift_check := false;
     enable_float_overflow_check := false;
     enable_simplify := false;
     enable_nan_check := true;
     retain_trivial := false;
     enable_assert_to_assume := false;
     enable_assertions := true;
     enable_built_in_assertions := true;
     enable_assumptions := true |}.

(** Division-by-zero checks only. *)
Definition div_checks : check_flagst :=
  {| enable_bounds_check := false;
     enable_pointer_check := false;
     enable_memory_leak_check := false;
     enable_div_by_zero_check := true;
     enable_signed_overflow_check := false;
     enable_unsigned_overflow_check := false;
     enable_pointer_overflow_check := false;
     enable_conversion_check := false;
     enable_undefined_shift_check := false;
     enable_float_overflow_check := false;
     enable_simplify := false;
     enable_nan_check := false;
     retain_trivial := false;
     enable_assert_to_assume := false;
     enable_assertions := true;
     enable_built_in_assertions := true;
     enable_assumptions := true |}.

(** The checker as [goto_check] leaves it at the first instruction of a C
    function. *)
Definition example_state (f : check_flagst) : goto_checkt :=
  set_analysis (set_mode (new_goto_checkt f []) ID_C)
    (Some (make_local_bitvector_analysis plain_services [])).

Definition sym_a := symbol_exprt "a" float32.
Definition sym_b := symbol_exprt "b" float32.
Definition sym_c := symbol_exprt "c" bool_typet.
Definition sym_d := symbol_exprt "d" int32.
Definition sym_x := symbol_exprt "x" int32.
Definition sym_y := symbol_exprt "y" int32.
Definition sym_z := symbol_exprt "z" int32.
Definition sym_w := symbol_exprt "w" int32.
Definition sym_p := symbol_exprt "p" int_pointer.
Definition sym_arr := symbol_exprt "arr" (Typ ID_array 0 [] [int32]).

(** [a * b] over floats. *)
Definition mult_a_b : exprt := Expr ID_mult float32 [] [sym_a; sym_b].
Definition a_is_zero : exprt :=
  ieee_float_equal_exprt sym_a (from_integer 0 float32).
Definition b_is_zero : exprt :=
  ieee_float_equal_exprt sym_b (from_integer 0 float32).
(** The NaN obligation that tests both operand orders. *)
Definition nan_mult_both_orders : exprt :=
  not_exprt (or_exprt (and_exprt (isinf_exprt sym_a) b_is_zero)
                      (and_exprt a_is_zero (isinf_exprt sym_b))).
(** The case [0 * inf]: [a] is zero and [b] is infinite. *)
Definition zero_times_infinity (e : exprt) : bool :=
  exprt_eqb e a_is_zero || exprt_eqb e (isinf_exprt sym_b).

(** [x << d] over signed 32-bit integers. *)
Definition shl_x_d : exprt := Expr ID_shl int32 [] [sym_x; sym_d].
Definition int64 : typet := signedbv_typet 64.
Definition shl_top_bits_zero : exprt :=
  equal_exprt
    (extractbits_exprt (shl_exprt (typecast_exprt sym_x int64) sym_d)
                       63 31 (unsignedbv_typet 33))
    (from_integer 0 (unsignedbv_typet 33)).
Definition shl_overflow_emitted : exprt :=
  disjunction
    [binary_relation_exprt sym_x ID_lt (from_integer 0 int32);
     binary_relation_exprt sym_x ID_lt (from_integer 0 int32);
     binary_predicate_exprt sym_d ID_gt (from_integer 32 int32);
     equal_exprt sym_x (from_integer 0 int32);
     shl_top_bits_zero].
(** The disjunct for a negative distance. *)
Definition distance_negative : exprt :=
  binary_relation_exprt sym_d ID_lt (from_integer 0 int32).
(** [x = 1] shifted by the width: [d = 32]. *)
Definition one_shifted_by_width (n : irep_idt) : Z :=
  if String.eqb n "x" then 1%Z else if String.eqb n "d" then 32%Z else 0%Z.

(** [z = x / y;] *)
Definition div_x_y : exprt := Expr ID_div int32 [] [sym_x; sym_y].
Definition assign_z_div : instructiont :=
  make_instruction ASSIGN (code_assignt sym_z div_x_y) true_exprt
                   empty_location.
Definition y_not_zero : exprt := notequal_exprt sym_y (from_integer 0 int32).

(** [x = 1;] as a branch target. *)
Definition assign_x_target : instructiont :=
  {| itype := ASSIGN; code := code_assignt sym_x (from_integer 1 int32);
     condition := true_exprt; labels := []; source_location := empty_location;
     is_target := true |}.

(** [x = 1;] *)
Definition assign_x : instructiont :=
  make_instruction ASSIGN (code_assignt sym_x (from_integer 1 int32))
                   true_exprt empty_location.

(** [&(c ? arr[x / y] : z)] *)
Definition address_of_if : exprt :=
  address_of_exprt
    (if_exprt sym_c (Expr ID_index int32 [] [sym_arr; div_x_y]) sym_z) 64.

(** [c ? x / y : z] *)
Definition if_c_div : exprt := if_exprt sym_c div_x_y sym_z.

(** [throw p;] *)
Definition throw_p : instructiont :=
  make_instruction THROW
    (Expr "code" (Typ ID_code 0 [] []) [(ID_statement, attr_id ID_expression)]
       [Expr "side_effect" int_pointer [(ID_statement, attr_id "throw")]
             [sym_p]])
    true_exprt empty_location.

(** The instruction the pass inserts before [throw p;]. *)
Definition throwing_null_assertion (S : servicest) (m : irep_idt)
  : instructiont :=
  set_source_location
    (make_assertion (notequal_exprt sym_p (null_pointer_exprt int_pointer))
                    empty_location)
    (set_property_class
       (set_comment empty_location ("throwing null in " ++ from_expr S m sym_p))
       "pointer dereference").

(** A call of the allocation intrinsic. *)
Definition allocated_memory_symbol : exprt :=
  symbol_exprt (CPROVER_PREFIX ++ "allocated_memory")%string (Typ ID_code 0 [] []).
Definition call_allocated_memory (args : list exprt) : instructiont :=
  make_instruction FUNCTION_CALL
    (Expr "code" (Typ ID_code 0 [] []) [(ID_statement, attr_id "function_call")]
       [nil_exprt; allocated_memory_symbol;
        Expr "arguments" empty_typet [] args])
    true_exprt empty_location.
Definition size_type : typet := unsignedbv_typet 64.
Definition sym_base := symbol_exprt "base" size_type.
Definition sym_size := symbol_exprt "size" size_type.

(** Two functions that declare an allocation each, around an assignment. *)
Definition allocating_functions : goto_functionst :=
  [("f", [call_allocated_memory [sym_base; sym_size]; assign_z_div]);
   ("g", [call_allocated_memory [sym_size; sym_base]])].

(** The steps of the trace examples. *)
Definition byte_extract_y : exprt :=
  Expr "byte_extract_little_endian" int32 [] [sym_y; from_integer 0 int32].
Definition step_byte_extract_rhs : java_trace_validation.goto_trace_stept :=
  {| java_trace_validation.step_type := java_trace_validation.ASSIGNMENT;
     java_trace_validation.full_lhs := sym_x;
     java_trace_validation.full_lhs_value := byte_extract_y |}.
Definition address_of_byte_extract : exprt :=
  Expr "address_of" int_pointer []
       [Expr "byte_extract_little_endian" int32 []
             [sym_x; from_integer 0 int32]].

(** The states the examples reach. *)
Definition walked (r : walkt) : goto_checkt :=
  match r with
  | Ok (_, s) => s
  | Err _ => new_goto_checkt all_checks_off []
  end.

Definition processed (r : result (goto_programt * bool * goto_checkt))
  : goto_checkt :=
  match r with
  | Ok (_, _, s) => s
  | Err _ => new_goto_checkt all_checks_off []
  end.

Definition checked (r : result goto_checkt) : goto_checkt :=
  match r with
  | Ok s => s
  | Err _ => new_goto_checkt all_checks_off []
  end.

Definition if_c_div_walked : goto_checkt :=
  walked (check_rec plain_services if_c_div guard_true
                    (example_state div_checks)).

Definition div_x_y_checked : goto_checkt :=
  checked (check plain_services div_x_y (example_state div_checks)).

Definition after_assign_z_div : goto_checkt :=
  processed (goto_check_instruction plain_services "f" assign_z_div
                                    (example_state div_checks)).

Definition after_assign_x : goto_checkt :=
  processed (goto_check_instruction plain_services "f" assign_x
                                    after_assign_z_div).

Definition after_assign_x_target : goto_checkt :=
  processed (goto_check_instruction plain_services "f" assign_x_target
                                    after_assign_z_div).

Definition after_throw_p : goto_checkt :=
  processed (goto_check_instruction plain_services "f" throw_p
                                    after_assign_z_div).

(** A body with a labelled instruction and a throw, run with every
    category disabled and the error label [ERROR]. *)
Definition labelled_skip : instructiont :=
  {| itype := SKIP; code := nil_exprt; condition := true_exprt;
     labels := ["ERROR"%string]; source_location := empty_location;
     is_target := false |}.
Definition error_label_assertion : instructiont :=
  set_source_location
    (make_assertion false_exprt empty_location)
    (set_user_provided
       (set_comment (set_property_class empty_location "error label")
                    "error label ERROR")
       true).
Definition error_label_state : goto_checkt :=
  new_goto_checkt all_checks_off ["ERROR"%string].
Definition after_labelled_throw : goto_checkt :=
  processed (goto_check_loop plain_services "f" [labelled_skip; throw_p]
                             error_label_state).

(** ** Notions used to state the properties of the trace validator *)

(** The expression at the end of the first-operand path of [e], and the
    nodes of the path below [e]. *)
Fixpoint innermost (e : exprt) : exprt :=
  match e with
  | Expr _ _ _ (o :: _) => innermost o
  | Expr _ _ _ [] => e
  end.

Fixpoint path_below (e : exprt) : list exprt :=
  match e with
  | Expr _ _ _ (o :: _) => o :: path_below o
  | Expr _ _ _ [] => []
  end.

(** A node through which a nested symbol is reached whatever its
    attributes are. *)
Definition member_index_address_typecast_symbol (e : exprt) : bool :=
  is_id e ID_member || is_id e ID_index || is_id e ID_address_of ||
  is_id e ID_typecast || is_id e ID_symbol.

(** A valid symbol: a symbol without operands whose identifier is not
    empty. *)
Definition valid_symbol (e : exprt) : Prop :=
  is_id e ID_symbol = true /\ operands e = [] /\ get_identifier e <> "".

(** A nested symbol: below [e] the first-operand path passes through nodes
    that may contain a symbol only, and it ends at a valid symbol. *)
Definition nested_symbol (e : exprt) : Prop :=
  forallb java_trace_validation.can_contain_symbol_operand (path_below e) =
    true /\
  valid_symbol (innermost e).

(** The left-hand sides the validator accepts. *)
Definition accepted_lhs (simplify_expr : exprt -> exprt) (lhs : exprt)
  : Prop :=
  (is_id lhs ID_member = true /\
   (exists o, operands lhs = [o]) /\ nested_symbol lhs) \/
  valid_symbol lhs \/
  (is_id lhs ID_index = true /\
   exists a i,
     operands lhs = [a; i] /\ valid_symbol a /\ is_id i ID_constant = true) \/
  (is_id lhs ID_byte_extract_little_endian = true /\
   exists a o r,
     operands lhs = a :: o :: r /\ valid_symbol a /\
     is_id (simplify_expr o) ID_constant = true).

(** The right-hand sides the validator accepts. *)
Definition accepted_rhs (simplify_expr : exprt -> exprt) (rhs : exprt)
  : Prop :=
  (is_id rhs ID_address_of = true /\
   (exists o, operands rhs = [o]) /\ nested_symbol rhs) \/
  valid_symbol rhs \/
  (is_id rhs ID_struct = true /\
   exists s0 r,
     operands rhs = s0 :: r /\
     (is_id s0 ID_struct = true \/ is_id s0 ID_constant = true) /\
     Forall (fun o => is_id o ID_constant = true) r) \/
  is_id rhs ID_array = true \/
  is_id rhs ID_array_list = true \/
  (is_id rhs ID_constant = true /\
   match operands rhs with
   | o :: _ =>
       let operand := skip_typecast o in
       is_id operand ID_constant = true \/
       is_id operand ID_address_of = true \/
       is_id operand ID_plus = true
   | [] => value_empty rhs = false
   end) \/
  (is_id rhs ID_byte_extract_little_endian = true /\
   exists a o r,
     operands rhs = a :: o :: r /\
     is_id (simplify_expr a) ID_constant = true /\
     is_id (simplify_expr o) ID_constant = true).

(** The number of operands the class of a node has: none for a symbol, one
    for a member and an address-of, two for an index and a byte-extract. *)
Definition operand_count_ok (e : exprt) : bool :=
  if is_id e ID_symbol then Nat.eqb (length (operands e)) 0
  else if is_id e ID_member || is_id e ID_address_of then
    Nat.eqb (length (operands e)) 1
  else if is_id e ID_index || is_id e ID_byte_extract_little_endian then
    Nat.eqb (length (operands e)) 2
  else true.

(** The node and its operands have the operands of their classes. *)
Definition well_formed_side (e : exprt) : bool :=
  operand_count_ok e && forallb operand_count_ok (operands e).

(** The message of [raise_error]. *)
Definition trace_assumption_failure (pretty : exprt -> string)
  (side : string) (e : exprt) : exceptiont :=
  runtime_error
    ("JBMC Check trace assumption failure on " ++ side ++ " expression:" ++
     String (Ascii.ascii_of_nat 10) "" ++ pretty e).

(** A chain of member accesses on the symbol [x]. *)
Definition member_of (e : exprt) (component : irep_idt) (t : typet) : exprt :=
  Expr ID_member t [("component_name", attr_id component)] [e].
Definition x_f_g : exprt := member_of (member_of sym_x "f" int32) "g" int32.

(** Steps of a trace. *)
Definition step_x_is_one : java_trace_validation.goto_trace_stept :=
  {| java_trace_validation.step_type := java_trace_validation.ASSIGNMENT;
     java_trace_validation.full_lhs := sym_x;
     java_trace_validation.full_lhs_value := from_integer 1 int32 |}.
Definition step_other : java_trace_validation.goto_trace_stept :=
  {| java_trace_validation.step_type := java_trace_validation.OTHER_STEP;
     java_trace_validation.full_lhs := nil_exprt;
     java_trace_validation.full_lhs_value := nil_exprt |}.
Definition anonymous_symbol : exprt := Expr ID_symbol int32 [] [].
Definition step_anonymous_lhs : java_trace_validation.goto_trace_stept :=
  {| java_trace_validation.step_type := java_trace_validation.ASSIGNMENT;
     java_trace_validation.full_lhs := anonymous_symbol;
     java_trace_validation.full_lhs_value := x_f_g |}.
Definition x_at_3 : exprt := Expr ID_index int32 [] [sym_x; from_integer 3 int32].
(** [x[y]]: an index expression whose index is not a constant. *)
Definition x_at_y : exprt := Expr ID_index int32 [] [sym_x; sym_y].
Definition struct_of_constants : exprt :=
  Expr ID_struct (Typ ID_struct 0 [] []) []
       [from_integer 0 int32; from_integer 1 int32].

(** A step the validator accepts: not an assignment or declaration, or one
    whose sides, outer typecasts removed, are accepted. *)
Definition accepted_step (simplify_expr : exprt -> exprt)
  (step : java_trace_validation.goto_trace_stept) : Prop :=
  (java_trace_validation.is_assignment step = false /\
   java_trace_validation.is_decl step = false) \/
  (accepted_lhs simplify_expr
     (skip_typecast (java_trace_validation.full_lhs step)) /\
   accepted_rhs simplify_expr
     (skip_typecast (java_trace_validation.full_lhs_value step))).

(** ** Notions used to state the properties of the emitter and the walker *)

(** An instruction as [add_guarded_property] builds it under the options
    [f]: an assumption with assert-to-assume and an assertion otherwise,
    without code, and not trivially true unless retain-trivial is set. *)
Definition obligation_instruction (f : check_flagst) (t : instructiont)
  : Prop :=
  itype t = (if enable_assert_to_assume f then ASSUME else ASSERT) /\
  code t = nil_exprt /\
  (retain_trivial f = false -> is_true (condition t) = false).

(** The list [l] is what one of the obligation builders returns in [st]. *)
Inductive built (S : servicest) (st : goto_checkt) : list propertyt -> Prop :=
| built_bounds e l : bounds_check S e st = Ok l -> built S st l
| built_div_by_zero e l : div_by_zero_check S e st = Ok l -> built S st l
| built_integer_overflow e l :
    integer_overflow_check S e st = Ok l -> built S st l
| built_nan e l : nan_check S e st = Ok l -> built S st l
| built_float_overflow e l :
    float_overflow_check S e st = Ok l -> built S st l
| built_undefined_shift e l :
    undefined_shift_check S e st = Ok l -> built S st l
| built_mod_by_zero e l : mod_by_zero_check S e st = Ok l -> built S st l
| built_mod_overflow e l : mod_overflow_check S e st = Ok l -> built S st l
| built_pointer_overflow e l :
    pointer_overflow_check S e st = Ok l -> built S st l
| built_conversion e l : conversion_check S e st = Ok l -> built S st l
| built_pointer_rel e l : pointer_rel_check S e st = Ok l -> built S st l
| built_pointer_validity e src l :
    pointer_validity_check S e src st = Ok l -> built S st l.

(** The obligation of the submission comes from a builder run in [st]. *)
Definition from_builder (S : servicest) (st : goto_checkt) (ph : submissiont)
  : Prop :=
  exists l, built S st l /\ In (fst ph) l.

(** A walker [w] started in [st] with any cache either submits a fixed list
    of obligations that satisfy [Q] and leaves the guard [g], or fails with
    a fixed exception. *)
Definition walk_submits (S : servicest) (st : goto_checkt)
  (w : goto_checkt -> walkt) (g : guardt) (Q : submissiont -> Prop) : Prop :=
  (exists subs : list submissiont,
      Forall Q subs /\
      forall a n,
        w (with_cache st a n) = Ok (g, submit_list S subs (with_cache st a n)))
  \/ (exists x, forall a n, w (with_cache st a n) = Err x).

Definition built_on (S : servicest) (st : goto_checkt) (e : exprt) : Prop :=
  forall g,
    walk_submits S st (check_rec S e g) g (from_builder S st) /\
    walk_submits S st (check_rec_address S e g) g (from_builder S st).

(** The option that enables the obligations of a property class. *)
Definition class_enabled (f : check_flagst) (c : irep_idt) : bool :=
  if String.eqb c "array bounds" then enable_bounds_check f
  else if String.eqb c "pointer dereference" then enable_pointer_check f
  else if String.eqb c "pointer" then enable_pointer_check f
  else if String.eqb c "memory-leak" then enable_memory_leak_check f
  else if String.eqb c "division-by-zero" then enable_div_by_zero_check f
  else if String.eqb c "undefined-shift" then enable_undefined_shift_check f
  else if String.eqb c "NaN" then enable_nan_check f
  else if String.eqb c "overflow" then
    enable_signed_overflow_check f || enable_unsigned_overflow_check f ||
    enable_pointer_overflow_check f || enable_conversion_check f ||
    enable_float_overflow_check f
  else false.

(** The class of the obligation is enabled under the options [f]. *)
Definition property_enabled (f : check_flagst) (p : propertyt) : Prop :=
  class_enabled f (property_class p) = true.

(** ** Notions used to state the guard of an obligation *)

(** The list [l] is what one of the obligation builders returns in [st] for
    the expression [e]; [check_rec_member] runs the builder of pointer
    validity for the member [e] on the dereference it rewrites [e] to. *)
Inductive built_for (S : servicest) (st : goto_checkt) (e : exprt)
  : list propertyt -> Prop :=
| built_for_bounds l : bounds_check S e st = Ok l -> built_for S st e l
| built_for_div_by_zero l :
    div_by_zero_check S e st = Ok l -> built_for S st e l
| built_for_integer_overflow l :
    integer_overflow_check S e st = Ok l -> built_for S st e l
| built_for_nan l : nan_check S e st = Ok l -> built_for S st e l
| built_for_float_overflow l :
    float_overflow_check S e st = Ok l -> built_for S st e l
| built_for_undefined_shift l :
    undefined_shift_check S e st = Ok l -> built_for S st e l
| built_for_mod_by_zero l :
    mod_by_zero_check S e st = Ok l -> built_for S st e l
| built_for_mod_overflow l :
    mod_overflow_check S e st = Ok l -> built_for S st e l
| built_for_pointer_overflow l :
    pointer_overflow_check S e st = Ok l -> built_for S st e l
| built_for_conversion l :
    conversion_check S e st = Ok l -> built_for S st e l
| built_for_pointer_rel l :
    pointer_rel_check S e st = Ok l -> built_for S st e l
| built_for_pointer_validity d l :
    pointer_validity_check S d e st = Ok l -> built_for S st e l.

(** In value mode the operands of a node of this kind are evaluated
    whenever the node is; in address mode, likewise, the operands of a node
    of that kind are visited as addresses. *)
Definition value_operands (i : irep_idt) : bool :=
  negb (String.eqb i ID_exists || String.eqb i ID_forall ||
        String.eqb i ID_address_of || String.eqb i ID_and ||
        String.eqb i ID_or || String.eqb i ID_if).

Definition address_operands (i : irep_idt) : bool :=
  negb (String.eqb i ID_exists || String.eqb i ID_forall ||
        String.eqb i ID_dereference || String.eqb i ID_index).

(** The evaluation paths.  [path S address e g e' h]: the expression [e]
    being walked under the guard [g], as a value or ([address]) as an
    address, its sub-expression [e'] is checked as a value under the guard
    [h], which is [g] with the conditions of the path conjoined: the
    operands of a conjunction that precede, the Boolean negations of the
    operands of a disjunction that precede, the condition of an [if] for
    its true case and the negated condition for its false case.  Nothing
    is conjoined on a path through addresses, and nothing lies below a
    quantifier. *)
Inductive path (S : servicest)
  : bool -> exprt -> guardt -> exprt -> guardt -> Prop :=
| path_here e g : path S false e g e g
| path_address_of t n object g e' h :
    path S true object g e' h ->
    path S false (Expr ID_address_of t n [object]) g e' h
| path_and t n pre b post g e' h :
    path S false b (g ++ pre) e' h ->
    path S false (Expr ID_and t n (pre ++ b :: post)) g e' h
| path_or t n pre b post g e' h :
    path S false b (g ++ map (boolean_negate S) pre) e' h ->
    path S false (Expr ID_or t n (pre ++ b :: post)) g e' h
| path_if_cond t n c tc fc g e' h :
    path S false c g e' h ->
    path S false (Expr ID_if t n [c; tc; fc]) g e' h
| path_if_true t n c tc fc g e' h :
    path S false tc (guard_add g c) e' h ->
    path S false (Expr ID_if t n [c; tc; fc]) g e' h
| path_if_false t n c tc fc g e' h :
    path S false fc (guard_add g (not_exprt c)) e' h ->
    path S false (Expr ID_if t n [c; tc; fc]) g e' h
| path_operand i t n ops o g e' h :
    value_operands i = true -> In o ops ->
    path S false o g e' h ->
    path S false (Expr i t n ops) g e' h
| path_dereferenced t n pointer g e' h :
    path S false pointer g e' h ->
    path S true (Expr ID_dereference t n [pointer]) g e' h
| path_index_array t n array index g e' h :
    path S true array g e' h ->
    path S true (Expr ID_index t n [array; index]) g e' h
| path_index_value t n array index g e' h :
    path S false index g e' h ->
    path S true (Expr ID_index t n [array; index]) g e' h
| path_address_operand i t n ops o g e' h :
    address_operands i = true -> In o ops ->
    path S true o g e' h ->
    path S true (Expr i t n ops) g e' h.

(** The submission is an obligation of a sub-expression of [e], submitted
    under the guard of the path to it. *)
Definition on_path (S : servicest) (st : goto_checkt) (address : bool)
  (e : exprt) (g : guardt) (ph : submissiont) : Prop :=
  exists e' l,
    path S address e g e' (snd ph) /\ built_for S st e' l /\ In (fst ph) l.

(** What the induction on expressions provides for the guards. *)
Definition guarded_on (S : servicest) (st : goto_checkt) (e : exprt) : Prop :=
  forall g,
    walk_submits S st (check_rec S e g) g (on_path S st false e g) /\
    walk_submits S st (check_rec_address S e g) g (on_path S st true e g).


(** ** Notions used to state the properties of the instruction driver *)

(** From [s] to [s'] the cache is replaced and instructions that satisfy
    [ok] are appended to the patch buffer; nothing else changes. *)
Definition emits_only (ok : instructiont -> Prop) (s s' : goto_checkt)
  : Prop :=
  exists a l, s' = with_cache s a (new_code s ++ l) /\ Forall ok l.

(** An instruction the walker emits under the options [f]. *)
Definition walker_instruction (f : check_flagst) (t : instructiont) : Prop :=
  obligation_instruction f t /\
  class_enabled f (loc_property_class (source_location t)) = true.

(** An instruction inserted before the instruction [i] under the options
    [f]: an assignment, or an obligation of an error label, of the throw
    handling, or of an enabled class. *)
Definition inserted_instruction (f : check_flagst) (i t : instructiont)
  : Prop :=
  itype t = ASSIGN \/
  (itype t = (if enable_assert_to_assume f then ASSUME else ASSERT) /\
   (loc_property_class (source_location t) = "error label" \/
    (is_kind i THROW = true /\
     loc_property_class (source_location t) = "pointer dereference") \/
    class_enabled f (loc_property_class (source_location t)) = true)).

(** The options in effect while the instruction [i] is processed. *)
Definition pragma_flags (i : instructiont) (f : check_flagst) : check_flagst :=
  fold_left apply_pragma (loc_pragmas (source_location i)) f.

(** The pragmas and the options they switch off. *)
Definition check_pragmas : list (irep_idt * (check_flagst -> bool)) :=
  [("disable:bounds-check", enable_bounds_check);
   ("disable:pointer-check", enable_pointer_check);
   ("disable:memory-leak-check", enable_memory_leak_check);
   ("disable:div-by-zero-check", enable_div_by_zero_check);
   ("disable:signed-overflow-check", enable_signed_overflow_check);
   ("disable:unsigned-overflow-check", enable_unsigned_overflow_check);
   ("disable:pointer-overflow-check", enable_pointer_overflow_check);
   ("disable:float-overflow-check", enable_float_overflow_check);
   ("disable:conversion-check", enable_conversion_check);
   ("disable:undefined-shift-check", enable_undefined_shift_check);
   ("disable:nan-check", enable_nan_check)].

(** The left-hand side [lhs] is the symbol [x] under index and member
    accesses. *)
Inductive rooted_at (x : exprt) : exprt -> Prop :=
| rooted_symbol : rooted_at x x
| rooted_index a ix t n :
    rooted_at x a -> rooted_at x (Expr ID_index t n [a; ix])
| rooted_member s t n :
    rooted_at x s -> rooted_at x (Expr ID_member t n [s]).

(** Neither the expression nor a sub-expression is a dereference or an
    index. *)
Fixpoint no_dereference_or_index (e : exprt) : bool :=
  match e with
  | Expr i _ _ ops =>
      negb (String.eqb i ID_dereference) && negb (String.eqb i ID_index) &&
      (fix all (l : list exprt) : bool :=
         match l with
         | [] => true
         | o :: r => no_dereference_or_index o && all r
         end) ops
  end.

(** A pair of the allocation registry as [collect_allocations] accepts
    it. *)
Definition well_formed_allocation (a : allocationt) : Prop :=
  type_is (type (fst a)) ID_unsignedbv = true /\
  type_is (type (snd a)) ID_unsignedbv = true /\
  type (fst a) = type (snd a).

(** ** Notions used to state what the obligations of a builder mean *)

(** The integer [v] is a value of the bit-vector type [t], signed in two's
    complement or unsigned. *)
Definition representable (t : typet) (v : Z) : bool :=
  let w := Z.of_N (get_width t) in
  if type_is t ID_signedbv
  then ((- 2 ^ (w - 1) <=? v) && (v <=? 2 ^ (w - 1) - 1))%Z
  else ((0 <=? v) && (v <=? 2 ^ w - 1))%Z.

Definition is_integer_type (t : typet) : bool :=
  type_is t ID_signedbv || type_is t ID_unsignedbv.

(** All the obligations hold when the symbols have the values [env]. *)
Definition obligations_hold (env : irep_idt -> Z) (l : list propertyt) : bool :=
  forallb (fun p => holds (bv.atom env) (asserted_expr p)) l.

(** ** Further inputs of the examples *)

(** Every check on. *)
Definition all_checks_on : check_flagst :=
  {| enable_bounds_check := true;
     enable_pointer_check := true;
     enable_memory_leak_check := true;
     enable_div_by_zero_check := true;
     enable_signed_overflow_check := true;
     enable_unsigned_overflow_check := true;
     enable_pointer_overflow_check := true;
     enable_conversion_check := true;
     enable_undefined_shift_check := true;
     enable_float_overflow_check := true;
     enable_simplify := false;
     enable_nan_check := true;
     retain_trivial := false;
     enable_assert_to_assume := false;
     enable_assertions := true;
     enable_built_in_assertions := true;
     enable_assumptions := true |}.

(** [&x.f.g] *)
Definition address_of_x_f_g : exprt := address_of_exprt x_f_g 64.

(** The identifier of the node as its rendering. *)
Definition pretty_id (e : exprt) : string := id e.
Definition no_simplification (e : exprt) : exprt := e.

(** [z = x / y;] carrying the pragma that disables the division check. *)
Definition assign_z_div_unchecked : instructiont :=
  set_source_location assign_z_div
    {| loc_nil := false; loc_file := ""; loc_line := ""; loc_function := "";
       loc_column := ""; loc_java_bytecode_index := ""; loc_comment := "";
       loc_property_class := ""; loc_user_provided := false;
       loc_pragmas := ["disable:div-by-zero-check"%string] |}.

(** The assertion the pass inserts before [z = x / y;]. *)
Definition y_not_zero_assertion : instructiont :=
  set_source_location
    (make_assertion y_not_zero empty_location)
    (set_property_class
       (set_comment empty_location "division by zero in /")
       "division-by-zero").

Definition function_checked (r : result (goto_programt * goto_checkt))
  : goto_programt * goto_checkt :=
  match r with
  | Ok x => x
  | Err _ => ([], new_goto_checkt all_checks_off [])
  end.

(** The function [f] with the unchecked and the checked division. *)
Definition two_divisions : goto_programt :=
  [assign_z_div_unchecked; assign_z_div].
Definition two_divisions_checked : goto_programt * goto_checkt :=
  function_checked
    (goto_check plain_services "f" two_divisions
                (new_goto_checkt div_checks [])).

(** A program that registers the allocation [(base, size)]. *)
Definition allocating_program : goto_functionst :=
  [("f"%string, [call_allocated_memory [sym_base; sym_size]])].

(** [(signed char) x], [x + y + z] and the values of the examples. *)
Definition int8 : typet := signedbv_typet 8.
Definition x_is_200 (n : irep_idt) : Z :=
  if String.eqb n "x" then 200%Z else 0%Z.
Definition int_min_by_minus_one (n : irep_idt) : Z :=
  if String.eqb n "x" then (- 2 ^ 31)%Z
  else if String.eqb n "y" then (-1)%Z else 0%Z.

(** A trace whose third step has an anonymous symbol on the left. *)
Definition trace_prefix : list java_trace_validation.goto_trace_stept :=
  [step_x_is_one; step_other].

(** A Java checker positioned at an instruction, with every check on. *)
Definition java_state : goto_checkt :=
  set_current_target
    (set_analysis (set_mode (new_goto_checkt all_checks_on []) ID_java)
                  (Some (make_local_bitvector_analysis plain_services [])))
    (Some assign_x).

(** * Properties *)

(** ** Structural equality *)

Lemma list_eqb_refl {A : Type} (eqb : A -> A -> bool) (l : list A) :
  (forall x, eqb x x = true) -> list_eqb eqb l l = true.
Proof.
  intros H. induction l as [|x r IH]; simpl; [reflexivity|].
  now rewrite H, IH.
Qed.

Lemma pair_eqb_refl {A B : Type} (ea : A -> A -> bool) (eb : B -> B -> bool) :
  (forall x, ea x x = true) -> (forall y, eb y y = true) ->
  forall p, pair_eqb ea eb p p = true.
Proof. intros Ha Hb [a b]. unfold pair_eqb. simpl. now rewrite Ha, Hb. Qed.

Lemma typet_eqb_refl : forall t, typet_eqb t t = true.
Proof.
  fix IH 1. intros [i w n s]. simpl.
  rewrite String.eqb_refl, N.eqb_refl.
  rewrite (list_eqb_refl _ n)
    by (apply pair_eqb_refl; apply String.eqb_refl).
  simpl.
  induction s as [|x r IHr]; [reflexivity|].
  rewrite IH. simpl. exact IHr.
Qed.

Lemma attrt_eqb_refl : forall a, attrt_eqb a a = true.
Proof. intros [s|z]; simpl; [apply String.eqb_refl | apply Z.eqb_refl]. Qed.

Lemma exprt_eqb_refl : forall e, exprt_eqb e e = true.
Proof.
  induction e as [i t n ops IH] using exprt_ind'. simpl.
  rewrite String.eqb_refl, typet_eqb_refl.
  rewrite (list_eqb_refl _ n)
    by (apply pair_eqb_refl; [apply String.eqb_refl | apply attrt_eqb_refl]).
  simpl.
  induction IH as [|x r Hx _ IHr]; [reflexivity|].
  rewrite Hx. simpl. exact IHr.
Qed.

Lemma list_eqb_eq {A : Type} (eqb : A -> A -> bool) (l1 : list A) :
  Forall (fun x => forall y, eqb x y = true -> x = y) l1 ->
  forall l2, list_eqb eqb l1 l2 = true -> l1 = l2.
Proof.
  induction 1 as [|x r Hx _ IH]; intros [|y r2]; simpl; try discriminate.
  - reflexivity.
  - intros H. apply andb_true_iff in H. destruct H as [H1 H2].
    now rewrite (Hx _ H1), (IH _ H2).
Qed.

Lemma named_eqb_eq {B : Type} (eb : B -> B -> bool) (n1 n2 : list (irep_idt * B)) :
  (forall x y, eb x y = true -> x = y) ->
  list_eqb (pair_eqb String.eqb eb) n1 n2 = true -> n1 = n2.
Proof.
  intros Hb. apply list_eqb_eq. apply Forall_forall.
  intros [k v] _ [k' v']. unfold pair_eqb. simpl. intros H.
  apply andb_true_iff in H. destruct H as [H1 H2].
  apply String.eqb_eq in H1. apply Hb in H2. now subst.
Qed.

Lemma typet_eqb_eq : forall a b, typet_eqb a b = true -> a = b.
Proof.
  fix IH 1. intros [i1 w1 n1 s1] [i2 w2 n2 s2]. simpl. intros H.
  apply andb_true_iff in H. destruct H as [H Hs].
  apply andb_true_iff in H. destruct H as [H Hn].
  apply andb_true_iff in H. destruct H as [Hi Hw].
  apply String.eqb_eq in Hi. apply N.eqb_eq in Hw.
  apply named_eqb_eq in Hn; [|intros x y; apply String.eqb_eq].
  subst. f_equal.
  revert s2 Hs. induction s1 as [|x r IHr]; intros [|y r2]; try discriminate.
  - reflexivity.
  - intros H. apply andb_true_iff in H. destruct H as [H1 H2].
    now rewrite (IH _ _ H1), (IHr _ H2).
Qed.

Lemma attrt_eqb_eq a b : attrt_eqb a b = true -> a = b.
Proof.
  destruct a, b; simpl; try discriminate; intros H.
  - apply String.eqb_eq in H. now subst.
  - apply Z.eqb_eq in H. now subst.
Qed.

Lemma exprt_eqb_eq : forall a b, exprt_eqb a b = true -> a = b.
Proof.
  induction a as [i1 t1 n1 o1 IH] using exprt_ind'.
  intros [i2 t2 n2 o2]. simpl. intros H.
  apply andb_true_iff in H. destruct H as [H Ho].
  apply andb_true_iff in H. destruct H as [H Hn].
  apply andb_true_iff in H. destruct H as [Hi Ht].
  apply String.eqb_eq in Hi. apply typet_eqb_eq in Ht.
  apply named_eqb_eq in Hn; [|apply attrt_eqb_eq].
  subst. f_equal.
  revert o2 Ho. induction IH as [|x r Hx _ IHr]; intros [|y r2]; try discriminate.
  - reflexivity.
  - intros H. apply andb_true_iff in H. destruct H as [H1 H2].
    now rewrite (Hx _ H1), (IHr _ H2).
Qed.

(** The cache is a set: membership is membership up to structural
    equality. *)
Lemma set_mem_In e s : set_mem e s = true <-> In e s.
Proof.
  unfold set_mem. rewrite existsb_exists. split.
  - intros (x & Hx & E). apply exprt_eqb_eq in E. now subst.
  - intros H. exists e. split; [exact H|apply exprt_eqb_refl].
Qed.

(** ** The assertion cache and the patch buffer *)

Section CacheFacts.

Variable S : servicest.

Lemma with_cache_self (st : goto_checkt) :
  with_cache st (assertions st) (new_code st) = st.
Proof. destruct st; reflexivity. Qed.

Lemma with_cache_twice st a n a' n' :
  with_cache (with_cache st a n) a' n' = with_cache st a' n'.
Proof. reflexivity. Qed.

(** What [add_guarded_property] does to the cache and to the patch buffer. *)
Lemma add_guarded_property_cases (p : propertyt) (h : guardt) (st : goto_checkt) :
  (trivial S st p = true /\ add_guarded_property S p h st = st) \/
  (trivial S st p = false /\
   set_mem (guarded h (simplified S st p)) (assertions st) = true /\
   add_guarded_property S p h st = st) \/
  (trivial S st p = false /\
   set_mem (guarded h (simplified S st p)) (assertions st) = false /\
   exists i,
     condition i = guarded h (simplified S st p) /\
     add_guarded_property S p h st =
       with_cache st (set_insert (guarded h (simplified S st p)) (assertions st))
                  (new_code st ++ [i])).
Proof.
  unfold add_guarded_property.
  fold (simplified S st p). fold (guarded h (simplified S st p)).
  fold (trivial S st p).
  destruct (trivial S st p); [now left|]. right.
  destruct (set_mem (guarded h (simplified S st p)) (assertions st));
    [now left|]. right.
  split; [reflexivity|]. split; [reflexivity|].
  eexists. split; [|reflexivity].
  destruct (enable_assert_to_assume (flags st)); reflexivity.
Qed.

Lemma add_guarded_property_cache p h st a n :
  exists a' n',
    add_guarded_property S p h (with_cache st a n) = with_cache st a' n'.
Proof.
  destruct (add_guarded_property_cases p h (with_cache st a n))
    as [[_ H]|[(_ & _ & H)|(_ & _ & i & _ & H)]]; rewrite H;
    do 2 eexists; reflexivity.
Qed.

Lemma submit_list_cache subs st a n :
  exists a' n', submit_list S subs (with_cache st a n) = with_cache st a' n'.
Proof.
  revert a n. induction subs as [|[p h] r IH]; intros a n; simpl.
  - eauto.
  - destruct (add_guarded_property_cache p h st a n) as (a' & n' & H).
    unfold submit_list in *. simpl. rewrite H. apply IH.
Qed.

Lemma submit_list_app l1 l2 st :
  submit_list S (l1 ++ l2) st = submit_list S l2 (submit_list S l1 st).
Proof. apply fold_left_app. Qed.

Lemma add_guarded_properties_submit_list l g st :
  add_guarded_properties S l g st = submit_list S (map (fun p => (p, g)) l) st.
Proof.
  revert st. induction l as [|p r IH]; intros st; [reflexivity|].
  unfold add_guarded_properties, submit_list in *. simpl. apply IH.
Qed.

(** The patch buffer only grows, by instructions of the guarded form. *)
Lemma submit_list_new_code subs st Q :
  Forall (fun ph => Q (snd ph)) subs ->
  exists emitted,
    new_code (submit_list S subs st) = new_code st ++ emitted /\
    Forall (fun i => exists h phi, Q h /\ condition i = guarded h phi) emitted.
Proof.
  revert st. induction subs as [|[p h] r IH]; intros st HQ.
  - exists []. now rewrite app_nil_r.
  - inversion HQ as [|? ? Hh Hr]; subst. simpl in Hh.
    unfold submit_list in *. simpl.
    destruct (IH (add_guarded_property S p h st) Hr) as (em & Hem & Hf).
    destruct (add_guarded_property_cases p h st)
      as [[_ H]|[(_ & _ & H)|(_ & _ & i & Hi & H)]]; rewrite H in *.
    + exists em. auto.
    + exists em. auto.
    + exists (i :: em). split.
      * rewrite Hem. simpl. now rewrite <- app_assoc.
      * constructor; eauto.
Qed.

(** The cache only grows. *)
Lemma add_guarded_property_assertions p h st a :
  In a (assertions st) -> In a (assertions (add_guarded_property S p h st)).
Proof.
  intros Ha.
  destruct (add_guarded_property_cases p h st)
    as [[_ H]|[(_ & _ & H)|(_ & _ & i & _ & H)]]; rewrite H;
    [exact Ha|exact Ha|].
  simpl. unfold set_insert. apply in_or_app. now left.
Qed.

Lemma submit_list_assertions subs st a :
  In a (assertions st) -> In a (assertions (submit_list S subs st)).
Proof.
  revert st. induction subs as [|[p h] r IH]; intros st Ha; [exact Ha|].
  unfold submit_list in *. simpl. apply IH.
  now apply add_guarded_property_assertions.
Qed.

Lemma set_mem_insert e s : set_mem e (set_insert e s) = true.
Proof.
  unfold set_mem, set_insert. rewrite existsb_app. simpl.
  rewrite exprt_eqb_refl. now rewrite orb_true_r.
Qed.

Lemma set_mem_insert_other e x s :
  set_mem e s = true -> set_mem e (set_insert x s) = true.
Proof.
  unfold set_mem, set_insert. intros H. rewrite existsb_app, H. reflexivity.
Qed.

(** Absorption: a submission made once is a cache hit from then on. *)
Lemma absorbed_iff p h st :
  absorbed S (p, h) st <->
  (trivial S st p = true \/
   set_mem (guarded h (simplified S st p)) (assertions st) = true).
Proof.
  unfold absorbed. simpl.
  destruct (add_guarded_property_cases p h st)
    as [[Ht H]|[(Ht & Hm & H)|(Ht & Hm & i & _ & H)]]; rewrite H.
  - tauto.
  - tauto.
  - rewrite Ht, Hm. split; [|intros [?|?]; discriminate].
    intros E. apply (f_equal new_code) in E. simpl in E.
    apply (f_equal (@length _)) in E. rewrite length_app in E. simpl in E. lia.
Qed.

Lemma add_guarded_property_flags p h st :
  flags (add_guarded_property S p h st) = flags st.
Proof.
  destruct (add_guarded_property_cases p h st)
    as [[_ H]|[(_ & _ & H)|(_ & _ & i & _ & H)]]; now rewrite H.
Qed.

Lemma absorbed_after p h st :
  absorbed S (p, h) (add_guarded_property S p h st).
Proof.
  apply absorbed_iff.
  unfold trivial, simplified. rewrite add_guarded_property_flags.
  fold (simplified S st p). fold (trivial S st p).
  destruct (add_guarded_property_cases p h st)
    as [[Ht H]|[(Ht & Hm & H)|(Ht & Hm & i & _ & H)]]; rewrite H.
  - now left.
  - now right.
  - right. simpl. apply set_mem_insert.
Qed.

Lemma absorbed_mono p h q k st :
  absorbed S (p, h) st -> absorbed S (p, h) (add_guarded_property S q k st).
Proof.
  rewrite !absorbed_iff.
  unfold trivial, simplified. rewrite add_guarded_property_flags.
  fold (simplified S st p). fold (trivial S st p).
  intros [Ht|Hm]; [now left|right].
  destruct (add_guarded_property_cases q k st)
    as [[_ H]|[(_ & _ & H)|(_ & _ & i & _ & H)]]; rewrite H; auto.
  simpl. now apply set_mem_insert_other.
Qed.

Lemma absorbed_submit_list ph subs st :
  absorbed S ph st -> absorbed S ph (submit_list S subs st).
Proof.
  destruct ph as [p h]. revert st.
  induction subs as [|[q k] r IH]; intros st H; [exact H|].
  unfold submit_list in *. simpl. apply IH. now apply absorbed_mono.
Qed.

Lemma submit_list_absorbs subs st :
  Forall (fun ph => absorbed S ph (submit_list S subs st)) subs.
Proof.
  revert st. induction subs as [|[p h] r IH]; intros st; constructor.
  - unfold submit_list. simpl. apply absorbed_submit_list, absorbed_after.
  - apply IH.
Qed.

Lemma submit_list_absorbed subs st :
  Forall (fun ph => absorbed S ph st) subs -> submit_list S subs st = st.
Proof.
  induction subs as [|[p h] r IH]; intros H; [reflexivity|].
  inversion H as [|? ? Hp Hr]; subst.
  unfold submit_list in *. simpl. rewrite Hp. now apply IH.
Qed.

(** Submitting the same obligations again changes nothing. *)
Lemma submit_list_twice subs st :
  submit_list S subs (submit_list S subs st) = submit_list S subs st.
Proof. apply submit_list_absorbed, submit_list_absorbs. Qed.

End CacheFacts.

(** ** The walker submits a list of obligations that depends on the
    expression, the guard and the options only *)

Section WalkFacts.

Variable S : servicest.
Variable st : goto_checkt.

Lemma extends_refl g : extends g g.
Proof. exists []. now rewrite app_nil_r. Qed.

Lemma extends_trans g h k : extends g h -> extends h k -> extends g k.
Proof. intros [l ->] [m ->]. exists (l ++ m). now rewrite app_assoc. Qed.

Lemma extends_add g e : extends g (guard_add g e).
Proof. now exists [e]. Qed.

Lemma pure_walk_weaken w g (Q Q' : guardt -> Prop) :
  (forall h, Q h -> Q' h) -> pure_walk S st w g Q -> pure_walk S st w g Q'.
Proof.
  intros HQ [(subs & Hs & H)|(x & H)]; [left|right; eauto].
  exists subs. split; [|exact H].
  eapply Forall_impl; [|exact Hs]. intros ph. apply HQ.
Qed.

Lemma pure_walk_ext w w' g Q :
  (forall s, w s = w' s) -> pure_walk S st w' g Q -> pure_walk S st w g Q.
Proof.
  intros E [(subs & Hs & H)|(x & H)]; [left; exists subs|right; exists x].
  - split; [exact Hs|]. intros a n. now rewrite E.
  - intros a n. now rewrite E.
Qed.

Lemma pure_ret g Q : pure_walk S st (fun s => Ok (g, s)) g Q.
Proof. left. exists []. split; [constructor|reflexivity]. Qed.

Lemma pure_err x g Q : pure_walk S st (fun _ => Err x) g Q.
Proof. right. now exists x. Qed.

Lemma pure_bind (w1 : goto_checkt -> walkt) (k : guardt * goto_checkt -> walkt)
  g1 g2 Q :
  pure_walk S st w1 g1 Q ->
  pure_walk S st (fun s => k (g1, s)) g2 Q ->
  pure_walk S st (fun s => do x <- w1 s ; k x) g2 Q.
Proof.
  intros [(l1 & Q1 & H1)|(x & H1)].
  - intros [(l2 & Q2 & H2)|(x & H2)].
    + left. exists (l1 ++ l2). split; [now apply Forall_app|].
      intros a n. rewrite H1. simpl.
      destruct (submit_list_cache S l1 st a n) as (a' & n' & E).
      rewrite E, H2, <- E. now rewrite submit_list_app.
    + right. exists x. intros a n. rewrite H1. simpl.
      destruct (submit_list_cache S l1 st a n) as (a' & n' & E).
      now rewrite E, H2.
  - intros _. right. exists x. intros a n. now rewrite H1.
Qed.

Lemma enabled_under_trans g0 g h :
  extends g0 g -> enabled_under st g h -> enabled_under st g0 h.
Proof. intros H [Hh Hon]. split; [eapply extends_trans; eassumption|exact Hon]. Qed.

Lemma checks_disabled f :
  checks_enabled f = false ->
  enable_bounds_check f = false /\ enable_pointer_check f = false /\
  enable_memory_leak_check f = false /\ enable_div_by_zero_check f = false /\
  enable_signed_overflow_check f = false /\
  enable_unsigned_overflow_check f = false /\
  enable_pointer_overflow_check f = false /\
  enable_conversion_check f = false /\
  enable_undefined_shift_check f = false /\
  enable_float_overflow_check f = false /\ enable_nan_check f = false.
Proof.
  unfold checks_enabled. intros H.
  repeat (apply orb_false_elim in H; destruct H as [H ?]).
  repeat split; assumption.
Qed.

(** A builder whose category is disabled returns no obligation. *)
Lemma pure_submit (b : goto_checkt -> result (list propertyt)) g :
  (forall a n, b (with_cache st a n) = b st) ->
  (checks_enabled (flags st) = false -> forall l, b st = Ok l -> l = []) ->
  pure_walk S st (fun s => submit S (b s) g s) g (enabled_under st g).
Proof.
  intros Hb Hoff. unfold submit.
  remember (b st) as r eqn:E. destruct r as [l|x].
  - left. exists (map (fun p => (p, g)) l). split.
    + destruct (checks_enabled (flags st)) eqn:Hon.
      * apply Forall_forall. intros ph Hin. apply in_map_iff in Hin.
        destruct Hin as (p & <- & _). split; [apply extends_refl|exact Hon].
      * rewrite (Hoff eq_refl l eq_refl). constructor.
    + intros a n. cbv beta. rewrite (Hb a n). simpl.
      now rewrite add_guarded_properties_submit_list.
  - right. exists x. intros a n. cbv beta. now rewrite (Hb a n).
Qed.

Lemma pure_and_then w1 (w2 : guardt -> goto_checkt -> walkt) g1 g2 Q :
  pure_walk S st w1 g1 Q ->
  pure_walk S st (w2 g1) g2 Q ->
  pure_walk S st (fun s => and_then (w1 s) w2) g2 Q.
Proof.
  intros H1 H2. unfold and_then.
  apply (pure_bind w1 (fun x => w2 (fst x) (snd x)) g1 g2 Q H1).
  exact H2.
Qed.

(** A check that precedes a walker without touching the state. *)
Lemma pure_guarded {A : Type} (r : result A) w g Q :
  pure_walk S st w g Q -> pure_walk S st (fun s => r ;; w s) g Q.
Proof.
  intros H. destruct r as [a|x]; simpl; [|apply pure_err].
  eapply pure_walk_ext; [|exact H]. reflexivity.
Qed.

(** A builder reads the options, the mode, the registry and the analysis,
    never the cache: its call is a pure submission. *)
Ltac disabled_builder :=
  let H := fresh "Hoff" in
  intros H; apply checks_disabled in H;
  decompose [and] H; clear H; cbv beta;
  unfold div_by_zero_check, undefined_shift_check, mod_by_zero_check,
    mod_overflow_check, conversion_check, integer_overflow_check,
    float_overflow_check, nan_check, pointer_rel_check,
    pointer_overflow_check, pointer_validity_check, bounds_check;
  repeat match goal with E : _ = false |- _ => rewrite E; clear E end;
  cbn [negb andb orb];
  let l := fresh "l" in let E := fresh "E" in
  intros l E; inversion E; reflexivity.

Ltac submits := apply pure_submit; [reflexivity|disabled_builder].

Lemma pure_check_rec_div e g :
  pure_walk S st (check_rec_div S e g) g (enabled_under st g).
Proof.
  unfold check_rec_div.
  apply pure_and_then with (g1 := g).
  - submits.
  - destruct (type_is (type e) ID_signedbv).
    + submits.
    + destruct (type_is (type e) ID_floatbv).
      * apply pure_and_then with (g1 := g);
          submits.
      * apply pure_ret.
Qed.

Lemma pure_check_rec_arithmetic_op e g :
  pure_walk S st (check_rec_arithmetic_op S e g) g (enabled_under st g).
Proof.
  unfold check_rec_arithmetic_op.
  destruct (_ || _).
  - submits.
  - destruct (type_is (type e) ID_floatbv).
    + apply pure_and_then with (g1 := g);
        submits.
    + destruct (type_is (type e) ID_pointer).
      * submits.
      * apply pure_ret.
Qed.

Lemma pure_check_rec_node e g :
  pure_walk S st (check_rec_node S e g) g (enabled_under st g).
Proof.
  unfold check_rec_node.
  destruct (is_id e ID_index).
  { apply pure_guarded; submits. }
  destruct (is_id e ID_div).
  { apply pure_guarded, pure_check_rec_div. }
  destruct (_ || _).
  { apply pure_guarded.
    apply pure_and_then with (g1 := g).
    - submits.
    - destruct (_ && _); [|apply pure_ret].
      submits. }
  destruct (is_id e ID_mod).
  { apply pure_guarded.
    apply pure_and_then with (g1 := g);
      submits. }
  destruct (_ || _).
  { apply pure_check_rec_arithmetic_op. }
  destruct (is_id e ID_typecast).
  { submits. }
  destruct (_ || _).
  { apply pure_guarded; submits. }
  destruct (is_id e ID_dereference).
  { apply pure_guarded; submits. }
  apply pure_ret.
Qed.

End WalkFacts.

Section WalkerPure.

Variable S : servicest.
Variable st : goto_checkt.

Lemma pure_for_operands (rec : exprt -> guardt -> goto_checkt -> walkt) ops :
  Forall (fun o => forall g, pure_walk S st (rec o g) g (enabled_under st g)) ops ->
  forall g, pure_walk S st (for_operands rec ops g) g (enabled_under st g).
Proof.
  induction 1 as [|o r Ho _ IH]; intros g.
  - apply pure_ret.
  - eapply pure_walk_ext; [intros s; simpl; reflexivity|].
    apply pure_bind with (g1 := g); [apply Ho|]. apply IH.
Qed.

Lemma pure_logical_op_loop (rec : exprt -> guardt -> goto_checkt -> walkt)
  is_or ops :
  Forall (fun o => forall g, pure_walk S st (rec o g) g (enabled_under st g)) ops ->
  forall g0 g, extends g0 g ->
    exists g_out,
      pure_walk S st (logical_op_loop S rec is_or ops g) g_out (enabled_under st g0).
Proof.
  induction 1 as [|o r Ho _ IH]; intros g0 g Hg.
  - exists g. apply pure_ret.
  - simpl. destruct (negb (is_boolean o)).
    + exists g. apply pure_err.
    + destruct (IH g0 (guard_add g (if is_or then boolean_negate S o else o)))
        as (g_out & Hout).
      { eapply extends_trans; [exact Hg|apply extends_add]. }
      exists g_out.
      apply pure_bind with (g1 := g); [|exact Hout].
      eapply pure_walk_weaken; [|apply Ho].
      intros h Hh. eapply enabled_under_trans; eassumption.
Qed.

Lemma pure_check_rec_logical_op rec e ops g :
  Forall (fun o => forall g, pure_walk S st (rec o g) g (enabled_under st g)) ops ->
  pure_walk S st (check_rec_logical_op S rec e ops g) g (enabled_under st g).
Proof.
  intros H. unfold check_rec_logical_op.
  destruct (negb (is_boolean e)); [apply pure_err|].
  destruct (pure_logical_op_loop rec (is_id e ID_or) ops H g g (extends_refl g))
    as (g_out & Hout).
  apply pure_bind with (g1 := g_out); [exact Hout|]. apply pure_ret.
Qed.

Lemma pure_check_rec_if rec c t f g :
  (forall g, pure_walk S st (rec c g) g (enabled_under st g)) ->
  (forall g, pure_walk S st (rec t g) g (enabled_under st g)) ->
  (forall g, pure_walk S st (rec f g) g (enabled_under st g)) ->
  pure_walk S st (check_rec_if rec c t f g) g (enabled_under st g).
Proof.
  intros Hc Ht Hf. unfold check_rec_if.
  destruct (negb (is_boolean c)); [apply pure_err|].
  apply pure_bind with (g1 := g); [apply Hc|]. cbv beta iota.
  apply pure_bind with (g1 := g).
  - apply pure_bind with (g1 := guard_add g c); [|apply pure_ret].
    eapply pure_walk_weaken; [|apply Ht].
    intros h Hh. eapply enabled_under_trans; [apply extends_add|exact Hh].
  - cbv beta iota.
    apply pure_bind with (g1 := guard_add g (not_exprt c)); [|apply pure_ret].
    eapply pure_walk_weaken; [|apply Hf].
    intros h Hh. eapply enabled_under_trans; [apply extends_add|exact Hh].
Qed.

(** [check_rec_member] followed by the rest of [check_rec]. *)
Lemma pure_check_rec_member rec member pointer g
  (K : guardt -> goto_checkt -> walkt) :
  (forall g, pure_walk S st (rec pointer g) g (enabled_under st g)) ->
  pure_walk S st (K g) g (enabled_under st g) ->
  pure_walk S st
    (fun s =>
       do m <- check_rec_member S rec member pointer g s ;
       if fst m then Ok (snd m) else K (fst (snd m)) (snd (snd m)))
    g (enabled_under st g).
Proof.
  intros Hp HK. unfold check_rec_member.
  destruct (Hp g) as [(l1 & Q1 & H1)|(x & H1)].
  2:{ right. exists x. intros a n. now rewrite H1. }
  destruct (enable_pointer_check (flags st)) eqn:Ef.
  - destruct (member_offset_expr S member) as [off|] eqn:Eo.
    + destruct (negb (type_is (type pointer) ID_pointer)) eqn:Ep.
      { right. eexists. intros a n. rewrite H1. simpl.
        destruct (submit_list_cache S l1 st a n) as (a' & n' & E).
        rewrite E. simpl. rewrite Ef. simpl. reflexivity. }
      set (d := dereference_exprt _).
      assert (Hon : checks_enabled (flags st) = false ->
                    forall l, pointer_validity_check S d member st = Ok l ->
                              l = []).
      { intros Hoff. apply checks_disabled in Hoff.
        destruct Hoff as (_ & Hoff & _). rewrite Hoff in Ef. discriminate. }
      destruct (pure_submit S st (fun s => pointer_validity_check S d member s)
                  g (fun _ _ => eq_refl) Hon)
        as [(l2 & Q2 & H2)|(y & H2)].
      * left. exists (l1 ++ l2). split; [now apply Forall_app|].
        intros a n. rewrite H1. simpl.
        destruct (submit_list_cache S l1 st a n) as (a' & n' & E).
        rewrite E. simpl. rewrite Ef. simpl. try rewrite Eo.
        fold d. specialize (H2 a' n'). cbv beta in H2. rewrite H2. simpl.
        rewrite <- E. now rewrite submit_list_app.
      * right. exists y. intros a n. rewrite H1. simpl.
        destruct (submit_list_cache S l1 st a n) as (a' & n' & E).
        rewrite E. simpl. rewrite Ef. simpl. try rewrite Eo.
        fold d. specialize (H2 a' n'). cbv beta in H2. now rewrite H2.
    + destruct HK as [(l2 & Q2 & H2)|(y & H2)].
      * left. exists (l1 ++ l2). split; [now apply Forall_app|].
        intros a n. rewrite H1. simpl.
        destruct (submit_list_cache S l1 st a n) as (a' & n' & E).
        rewrite E. simpl. rewrite Ef. simpl. try rewrite Eo. simpl.
        rewrite H2, <- E. now rewrite submit_list_app.
      * right. exists y. intros a n. rewrite H1. simpl.
        destruct (submit_list_cache S l1 st a n) as (a' & n' & E).
        rewrite E. simpl. rewrite Ef. simpl. try rewrite Eo. simpl. now rewrite H2.
  - left. exists l1. split; [exact Q1|].
    intros a n. rewrite H1. simpl.
    destruct (submit_list_cache S l1 st a n) as (a' & n' & E).
    rewrite E. simpl. rewrite Ef. simpl. reflexivity.
Qed.

Lemma walker_pure_strong e :
  pure_on S st e /\ Forall (pure_on S st) (operands e).
Proof.
  induction e as [i t n ops IH] using exprt_ind'.
  assert (IHops : Forall (pure_on S st) ops).
  { eapply Forall_impl; [|exact IH]. intros o [Ho _]. exact Ho. }
  assert (Hrec : Forall (fun o => forall g,
                           pure_walk S st (check_rec S o g) g (enabled_under st g)) ops).
  { eapply Forall_impl; [|exact IHops]. intros o Ho g. apply Ho. }
  assert (Hadr : Forall (fun o => forall g,
                           pure_walk S st (check_rec_address S o g) g (enabled_under st g))
                        ops).
  { eapply Forall_impl; [|exact IHops]. intros o Ho g. apply Ho. }
  split; [|exact IHops].
  intros g. split.
  - eapply pure_walk_ext; [intros s; cbn [check_rec]; reflexivity|].
    destruct (_ || _); [apply pure_ret|].
    destruct (i =? ID_address_of).
    { destruct ops as [|o [|? ?]]; try apply pure_err.
      inversion Hadr; subst. auto. }
    destruct (_ || _).
    { now apply pure_check_rec_logical_op. }
    destruct (i =? ID_if).
    { destruct ops as [|c [|t0 [|f [|? ?]]]]; try apply pure_err.
      inversion Hrec as [|? ? Hc Hr1]; subst.
      inversion Hr1 as [|? ? Ht Hr2]; subst.
      inversion Hr2 as [|? ? Hf _]; subst.
      now apply pure_check_rec_if. }
    assert (HK : pure_walk S st
                   (fun s => do x <- for_operands (check_rec S) ops g s ;
                             check_rec_node S (Expr i t n ops) (fst x) (snd x))
                   g (enabled_under st g)).
    { apply pure_bind with (g1 := g); [now apply pure_for_operands|].
      apply pure_check_rec_node. }
    destruct (i =? ID_member).
    + destruct ops as [|[di dt dn dops] [|? ?]]; try apply pure_err.
      destruct (di =? ID_dereference).
      * destruct dops as [|pointer [|? ?]]; try apply pure_err.
        inversion IH as [|? ? [_ Hd] _]; subst. simpl in Hd.
        inversion Hd as [|? ? Hp _]; subst.
        apply pure_check_rec_member with
          (K := fun g s => do x <- for_operands (check_rec S) _ g s ;
                           check_rec_node S _ (fst x) (snd x)).
        -- intros g'. apply Hp.
        -- exact HK.
      * exact HK.
    + exact HK.
  - eapply pure_walk_ext; [intros s; cbn [check_rec_address]; reflexivity|].
    destruct (_ || _); [apply pure_ret|].
    destruct (i =? ID_dereference).
    { destruct ops as [|o [|? ?]]; try apply pure_err.
      inversion Hrec; subst. auto. }
    destruct (i =? ID_index).
    { destruct ops as [|a [|ix [|? ?]]]; try apply pure_err.
      inversion Hadr as [|? ? Ha _]; subst.
      inversion Hrec as [|? ? _ Hr1]; subst.
      inversion Hr1 as [|? ? Hi _]; subst.
      apply pure_bind with (g1 := g); [apply Ha|]. apply Hi. }
    now apply pure_for_operands.
Qed.

Lemma check_rec_enabled e g :
  pure_walk S st (check_rec S e g) g (enabled_under st g).
Proof. apply (proj1 (walker_pure_strong e)). Qed.

Lemma check_rec_pure e g :
  pure_walk S st (check_rec S e g) g (extends g).
Proof.
  eapply pure_walk_weaken; [|apply check_rec_enabled]. now intros h [H _].
Qed.

Lemma check_rec_address_pure e g :
  pure_walk S st (check_rec_address S e g) g (extends g).
Proof.
  eapply pure_walk_weaken; [|apply (proj1 (walker_pure_strong e))].
  now intros h [H _].
Qed.

End WalkerPure.

(** ** Guards *)

Section GuardFacts.

Variable S : servicest.

Lemma check_rec_Ok e g st g' st' :
  check_rec S e g st = Ok (g', st') ->
  g' = g /\
  exists subs,
    Forall (fun ph : submissiont => extends g (snd ph)) subs /\
    st' = submit_list S subs st.
Proof.
  intros H.
  destruct (check_rec_pure S st e g) as [(subs & Q & E)|(x & E)];
    specialize (E (assertions st) (new_code st));
    rewrite with_cache_self in E; rewrite E in H; [|discriminate].
  inversion H; subst. eauto.
Qed.

Lemma check_rec_address_Ok e g st g' st' :
  check_rec_address S e g st = Ok (g', st') ->
  g' = g /\
  exists subs,
    Forall (fun ph : submissiont => extends g (snd ph)) subs /\
    st' = submit_list S subs st.
Proof.
  intros H.
  destruct (check_rec_address_pure S st e g) as [(subs & Q & E)|(x & E)];
    specialize (E (assertions st) (new_code st));
    rewrite with_cache_self in E; rewrite E in H; [|discriminate].
  inversion H; subst. eauto.
Qed.

End GuardFacts.

(** C1, as stated, fails below an address-of: walking
    [&(c ? arr[x / y] : z)] with division-by-zero checks on emits the
    obligation [y != 0] for the division inside the true branch of the
    [if], and no guard that contains [c] stands before it. *)
Lemma address_mode_ignores_if_guard :
  exists st',
    check plain_services address_of_if (example_state div_checks) = Ok st' /\
    map condition (new_code st') = [y_not_zero] /\
    forall h phi, extends [sym_c] h -> y_not_zero <> guarded h phi.
Proof.
  eexists. split; [reflexivity|]. split; [reflexivity|].
  intros h phi [l ->]. unfold guarded. simpl. discriminate.
Qed.

(** ** The instruction driver *)

Section DriverFacts.

Variable S : servicest.

Lemma check_Ok e st st' :
  check S e st = Ok st' ->
  exists subs, st' = submit_list S subs st.
Proof.
  unfold check. intros H.
  destruct (check_rec S e guard_true st) as [[g s]|] eqn:E; [|discriminate].
  simpl in H. inversion H; subst.
  destruct (check_rec_Ok S _ _ _ _ _ E) as (_ & subs & _ & ->). eauto.
Qed.

Lemma check_assertions e st st' a :
  check S e st = Ok st' -> In a (assertions st) -> In a (assertions st').
Proof.
  intros H Ha. destruct (check_Ok _ _ _ H) as (subs & ->).
  now apply submit_list_assertions.
Qed.

Lemma apply_pragma_retain_trivial pragmas f :
  retain_trivial (fold_left apply_pragma pragmas f) = retain_trivial f.
Proof.
  revert f. induction pragmas as [|d r IH]; intros f; [reflexivity|].
  simpl. now rewrite IH.
Qed.

Lemma error_label_checks_assertions i st :
  assertions (error_label_checks i st) = assertions st.
Proof.
  unfold error_label_checks.
  generalize (error_labels st) as l. intros l. revert st.
  induction l as [|x r IH]; intros st; [reflexivity|].
  simpl. rewrite IH. now destruct (existsb _ _).
Qed.

Lemma is_kind_eq i k : is_kind i k = true -> itype i = k.
Proof. unfold is_kind. destruct (itype i), k; simpl; congruence. Qed.

Lemma begin_instruction_assertions i st a :
  is_target i = false -> retain_trivial (flags st) = false ->
  In a (assertions st) -> In a (assertions (begin_instruction i st)).
Proof.
  intros Ht Hr Ha. unfold begin_instruction. simpl.
  rewrite apply_pragma_retain_trivial, Hr, Ht. exact Ha.
Qed.

End DriverFacts.

(** ** The pass with every category disabled *)

Section DisabledFacts.

Variable S : servicest.

Lemma check_rec_disabled e g st g' st' :
  checks_enabled (flags st) = false ->
  check_rec S e g st = Ok (g', st') -> st' = st.
Proof.
  intros Hoff H.
  destruct (check_rec_enabled S st e g) as [(subs & Q & E)|(x & E)];
    specialize (E (assertions st) (new_code st));
    rewrite with_cache_self in E; rewrite E in H; [|discriminate].
  inversion H; subst.
  destruct subs as [|ph r]; [reflexivity|].
  inversion Q as [|? ? [_ Hon] _]. congruence.
Qed.

Lemma check_disabled e st st' :
  checks_enabled (flags st) = false -> check S e st = Ok st' -> st' = st.
Proof.
  unfold check. intros Hoff H.
  destruct (check_rec S e guard_true st) as [[g s]|] eqn:E; [|discriminate].
  simpl in H. inversion H; subst. eapply check_rec_disabled; eassumption.
Qed.

Lemma check_all_disabled l st st' :
  checks_enabled (flags st) = false -> check_all S l st = Ok st' -> st' = st.
Proof.
  intros Hoff. induction l as [|e r IH]; simpl; intros H.
  - now inversion H.
  - destruct (check S e st) as [s|] eqn:E; [|discriminate]. simpl in H.
    apply check_disabled in E; [|exact Hoff]. subst s. auto.
Qed.

Lemma apply_pragma_disabled pragmas f :
  checks_enabled f = false ->
  checks_enabled (fold_left apply_pragma pragmas f) = false.
Proof.
  revert f. induction pragmas as [|d r IH]; intros f H; [exact H|].
  simpl. apply IH. apply checks_disabled in H.
  decompose [and] H. unfold checks_enabled, apply_pragma. simpl.
  repeat match goal with E : _ = false |- _ => rewrite E; clear E end.
  reflexivity.
Qed.

Lemma invalidate_Ok lhs : forall st st',
  invalidate lhs st = Ok st' -> exists a, st' = set_assertions st a.
Proof.
  induction lhs as [i t n ops IH] using exprt_ind'. intros st st' H.
  simpl in H.
  destruct (i =? ID_index)%string.
  { destruct ops as [|a [|ix [|? ?]]]; try discriminate.
    inversion IH; subst. eauto. }
  destruct (i =? ID_member)%string.
  { destruct ops as [|a [|? ?]]; try discriminate.
    inversion IH; subst. eauto. }
  destruct (i =? ID_symbol)%string; inversion H; eauto.
Qed.

Lemma error_label_checks_Ok i st :
  flags (error_label_checks i st) = flags st /\
  mode (error_label_checks i st) = mode st /\
  error_labels (error_label_checks i st) = error_labels st /\
  exists l,
    new_code (error_label_checks i st) = new_code st ++ l /\
    Forall (error_label_obligation (error_labels st) i) l.
Proof.
  unfold error_label_checks.
  set (f := fun (st : goto_checkt) (label : string) => _).
  assert (Hstep : forall declared s x,
             In x declared ->
             flags (f s x) = flags s /\ mode (f s x) = mode s /\
             error_labels (f s x) = error_labels s /\
             exists l, new_code (f s x) = new_code s ++ l /\
                       Forall (error_label_obligation declared i) l).
  { intros declared s x Hx. unfold f.
    destruct (existsb (String.eqb x) (labels i)) eqn:Ex.
    - repeat split. eexists. split; [reflexivity|].
      constructor; [|constructor].
      split; [now destruct (enable_assert_to_assume (flags s))|].
      split; [reflexivity|]. exists x. split; [exact Hx|].
      split; [|reflexivity].
      apply existsb_exists in Ex. destruct Ex as (y & Hy & Exy).
      apply String.eqb_eq in Exy. now subst y.
    - repeat split. exists []. now rewrite app_nil_r. }
  clearbody f.
  enough (G : forall declared labels' s,
             (forall x, In x labels' -> In x declared) ->
             flags (fold_left f labels' s) = flags s /\
             mode (fold_left f labels' s) = mode s /\
             error_labels (fold_left f labels' s) = error_labels s /\
             exists l,
               new_code (fold_left f labels' s) = new_code s ++ l /\
               Forall (error_label_obligation declared i) l)
    by (apply G; auto).
  intros declared labels'.
  induction labels' as [|x r IH]; intros s Hall; cbn [fold_left].
  - repeat split. exists []. now rewrite app_nil_r.
  - destruct (IH (f s x) (fun y Hy => Hall y (or_intror Hy)))
      as (Hf & Hm & He & l & Hl & Hok).
    destruct (Hstep declared s x (Hall x (or_introl eq_refl)))
      as (Hf0 & Hm0 & He0 & l0 & Hl0 & Hok0).
    rewrite Hf, Hm, He, Hl, Hf0, Hm0, He0, Hl0. repeat split.
    exists (l0 ++ l). rewrite app_assoc. split; [reflexivity|].
    now apply Forall_app.
Qed.

Lemma backfill_error_label declared i from t :
  error_label_obligation declared i t ->
  error_label_obligation declared i (backfill from t).
Proof.
  unfold error_label_obligation, backfill. intros (Hc & Hp & Hl).
  destruct (loc_nil (source_location t)); simpl; auto.
Qed.

Lemma error_label_same_labels declared i1 i t :
  labels i1 = labels i ->
  error_label_obligation declared i1 t -> error_label_obligation declared i t.
Proof. unfold error_label_obligation. now intros ->. Qed.

Lemma backfill_throwing_null m i from t :
  throwing_null_obligation S m i t ->
  throwing_null_obligation S m i (backfill from t).
Proof.
  unfold throwing_null_obligation, backfill.
  intros (Hk & j & ty & n & pointer & Ho & Hc & Hp & Hm).
  split; [exact Hk|]. exists j, ty, n, pointer.
  destruct (loc_nil (source_location t)); simpl; auto.
Qed.

(** The throw handling submits one obligation. *)
Lemma throwing_null_submitted i j ty n pointer st :
  is_kind i THROW = true ->
  operands (code i) = [Expr j ty n [pointer]] ->
  let st' :=
    add_guarded_property S
      (true_guard_property
         (notequal_exprt pointer (null_pointer_exprt (type pointer)))
         "throwing null" "pointer dereference" (source_location i) pointer)
      guard_true st in
  flags st' = flags st /\ mode st' = mode st /\
  error_labels st' = error_labels st /\
  exists l,
    new_code st' = new_code st ++ l /\
    Forall (throwing_null_obligation S (mode st) i) l.
Proof.
  intros Hk Ho. unfold add_guarded_property. cbv zeta.
  cbn [asserted_expr true_guard_property comment property_class
       prop_location src_expr].
  destruct (_ && _).
  { repeat split. exists []. now rewrite app_nil_r. }
  replace (guard_is_true guard_true) with true by reflexivity. cbv iota.
  destruct (set_mem _ _).
  { repeat split. exists []. now rewrite app_nil_r. }
  cbn [flags mode error_labels new_code set_new_code set_assertions].
  repeat split.
  eexists. split; [reflexivity|]. constructor; [|constructor].
  split; [exact Hk|]. exists j, ty, n, pointer. split; [exact Ho|].
  cbv zeta.
  destruct (enable_assert_to_assume (flags st)),
    (enable_simplify (flags st)); simpl; auto.
Qed.

Ltac unchanged H :=
  inversion H; subst;
  split; [first [left; reflexivity|right; reflexivity]|];
  split; [reflexivity|]; split; [reflexivity|]; split; [reflexivity|];
  match goal with
  | Hnone : forall s : goto_checkt, _ |- exists l, new_code ?s = _ /\ _ =>
      exact (Hnone s)
  end.

Lemma dispatch_disabled function_identifier i st i' skipped st' :
  checks_enabled (flags st) = false ->
  goto_check_dispatch S function_identifier i st = Ok (i', skipped, st') ->
  kept i i' /\ flags st' = flags st /\ mode st' = mode st /\
  error_labels st' = error_labels st /\
  exists l,
    new_code st' = new_code st ++ l /\
    Forall (throwing_null_obligation S (mode st) i) l.
Proof.
  intros Hoff H.
  assert (Hnone : forall s : goto_checkt,
             exists l, new_code s = new_code s ++ l /\
                       Forall (throwing_null_obligation S (mode st) i) l).
  { intros s. exists []. now rewrite app_nil_r. }
  pose proof (checks_disabled _ Hoff) as Hflags.
  destruct Hflags as (_ & Hptr & Hleak & _).
  unfold goto_check_dispatch, is_kind in H.
  destruct (itype i) eqn:Hk; cbn [instr_kind_eqb] in H;
    try (inversion H; subst; split; [now left|]; split; [reflexivity|];
         split; [reflexivity|]; split; [reflexivity|]; apply Hnone).
  - (* ASSUME *)
    destruct (negb _); unchanged H.
  - (* ASSERT *)
    destruct (_ || _); unchanged H.
  - (* OTHER *)
    destruct (String.eqb _ ID_expression).
    { destruct (check S (code i) st) as [s|] eqn:E; [|discriminate].
      apply check_disabled in E; [|exact Hoff]. subst s. unchanged H. }
    destruct (String.eqb _ ID_printf); [|unchanged H].
    destruct (check_all S (operands (code i)) st) as [s|] eqn:E;
      [|discriminate].
    apply check_all_disabled in E; [|exact Hoff]. subst s. unchanged H.
  - (* ASSIGN *)
    destruct (to_binary_expr (code i)) as [[lhs rhs]|]; [|discriminate].
    cbn [bind] in H.
    destruct (check S lhs st) as [s|] eqn:E1; [|discriminate].
    apply check_disabled in E1; [|exact Hoff]. subst s. cbn [bind] in H.
    destruct (check S rhs st) as [s|] eqn:E2; [|discriminate].
    apply check_disabled in E2; [|exact Hoff]. subst s. cbn [bind] in H.
    destruct (invalidate lhs st) as [s|] eqn:E3; [|discriminate].
    apply invalidate_Ok in E3. destruct E3 as [a ->]. cbn [bind] in H.
    destruct (rewrite_rw_ok S rhs _); [|discriminate]. cbn [bind] in H.
    destruct (code i). unchanged H.
  - (* DEAD *)
    rewrite Hptr in H. unchanged H.
  - (* FUNCTION_CALL *)
    destruct (to_code_function_call (code i)) as [[[lhs f] args]|];
      [|discriminate].
    cbn [bind] in H. rewrite Hptr, andb_false_r in H. cbn [andb bind] in H.
    destruct (check_all S (operands (code i)) st) as [s|] eqn:E;
      [|discriminate].
    apply check_all_disabled in E; [|exact Hoff]. subst s. unchanged H.
  - (* RETURN *)
    destruct (operands (code i)) as [|return_value [|? ?]]; try unchanged H.
    destruct (check S return_value st) as [s|] eqn:E1; [|discriminate].
    apply check_disabled in E1; [|exact Hoff]. subst s. cbn [bind] in H.
    destruct (invalidate return_value st) as [s|] eqn:E3; [|discriminate].
    apply invalidate_Ok in E3. destruct E3 as [a ->]. cbn [bind] in H.
    destruct (rewrite_rw_ok S return_value _); [|discriminate].
    cbn [bind] in H. destruct (code i). unchanged H.
  - (* THROW *)
    assert (Hthrow : is_kind i THROW = true)
      by (unfold is_kind; now rewrite Hk).
    destruct (String.eqb _ ID_expression); [|unchanged H].
    destruct (operands (code i)) as [|[j ty n [|pointer [|? ?]]] [|? ?]] eqn:Ho;
      try unchanged H.
    destruct (negb _); [discriminate|]. cbn [bind] in H.
    destruct (throwing_null_submitted i j ty n pointer st Hthrow Ho)
      as (Hf & Hm & He & l & Hl & Hok).
    inversion H; subst. split; [now left|].
    split; [exact Hf|]. split; [exact Hm|]. split; [exact He|].
    exists l. split; assumption.
  - (* END_FUNCTION *)
    rewrite Hleak, andb_false_r in H. unchanged H.
Qed.

Lemma begin_instruction_disabled i st :
  checks_enabled (flags st) = false ->
  checks_enabled (flags (begin_instruction i st)) = false /\
  mode (begin_instruction i st) = mode st /\
  error_labels (begin_instruction i st) = error_labels st /\
  new_code (begin_instruction i st) = [].
Proof.
  intros Hoff. unfold begin_instruction.
  destruct (_ || _); cbn; (split; [|repeat split; reflexivity]);
    now apply apply_pragma_disabled.
Qed.

Lemma throwing_null_same_code m i1 i t :
  itype i1 = itype i -> code i1 = code i ->
  throwing_null_obligation S m i1 t -> throwing_null_obligation S m i t.
Proof.
  unfold throwing_null_obligation, is_kind. intros Hk Hc. now rewrite Hk, Hc.
Qed.

(** One iteration of the loop with every category disabled. *)
Lemma goto_check_instruction_disabled function_identifier i st out did st' :
  checks_enabled (flags st) = false ->
  goto_check_instruction S function_identifier i st = Ok (out, did, st') ->
  flags st' = flags st /\ mode st' = mode st /\
  error_labels st' = error_labels st /\
  exists patch i',
    out = patch ++ [i'] /\ kept i i' /\
    Forall (fun t => error_label_obligation (error_labels st) i t \/
                     throwing_null_obligation S (mode st) i t) patch.
Proof.
  intros Hoff H. unfold goto_check_instruction in H.
  destruct (begin_instruction_disabled i st Hoff) as (Hoff0 & Hm0 & He0 & Hn0).
  set (s0 := begin_instruction i st) in *.
  match type of H with
  | context [bind ?m _] =>
      assert (Hci : forall i1 s1, m = Ok (i1, s1) ->
                                  itype i1 = itype i /\ code i1 = code i /\
                                  labels i1 = labels i /\ s1 = s0);
        [|destruct m as [[i1 s1]|]; [|discriminate]]
  end.
  { intros i1 s1. destruct (has_condition i).
    - destruct (check S (condition i) s0) as [s|] eqn:E; [|discriminate].
      apply check_disabled in E; [|exact Hoff0]. subst s. cbn [bind].
      destruct (rewrite_rw_ok S (condition i) s0); [|discriminate].
      cbn [bind]. intros [= <- <-]. auto.
    - intros [= <- <-]. auto. }
  destruct (Hci i1 s1 eq_refl) as (Hk1 & Hc1 & Hlab1 & ->). clear Hci.
  cbn [bind] in H.
  destruct (error_label_checks_Ok i1 s0) as (Hf1 & Hm1 & He1 & l1 & Hl1 & Hok1).
  set (s2 := error_label_checks i1 s0) in *.
  destruct (goto_check_dispatch S function_identifier i1 s2)
    as [[[i2 skipped] s3]|] eqn:Ed; [|discriminate].
  cbn [bind] in H.
  apply dispatch_disabled in Ed; [|now rewrite Hf1].
  destruct Ed as (Hkept & Hf3 & Hm3 & He3 & l3 & Hl3 & Hok3).
  inversion H; subst out did st'. clear H.
  cbn [flags mode error_labels set_flags set_new_code].
  split; [reflexivity|]. split; [now rewrite Hm3, Hm1|].
  split; [now rewrite He3, He1|].
  unfold splice. do 2 eexists. split; [reflexivity|].
  split; [destruct Hkept as [Hkept|Hkept]; [left; now rewrite Hkept|now right]|].
  rewrite Hl3, Hl1, Hn0. cbn [app]. rewrite map_app. apply Forall_app. split.
  - apply Forall_forall. intros t Ht. apply in_map_iff in Ht.
    destruct Ht as (t0 & <- & Ht0). left. apply backfill_error_label.
    rewrite Forall_forall in Hok1. specialize (Hok1 t0 Ht0).
    rewrite He0 in Hok1.
    eapply error_label_same_labels; eassumption.
  - apply Forall_forall. intros t Ht. apply in_map_iff in Ht.
    destruct Ht as (t0 & <- & Ht0). right. apply backfill_throwing_null.
    rewrite Forall_forall in Hok3. specialize (Hok3 t0 Ht0).
    rewrite Hm1, Hm0 in Hok3.
    eapply throwing_null_same_code; eassumption.
Qed.

End DisabledFacts.

(** C9 (amended).  Within one run of the pass and with the cache untouched
    in between, checking an expression a second time changes nothing: the
    obligations of the second walk are all discarded as trivial or found in
    the cache, so the state the first walk left is returned as it is. *)
Theorem check_twice_in_one_epoch (S : servicest) (e : exprt)
  (st st' : goto_checkt) :
  check S e st = Ok st' -> check S e st' = Ok st'.
Proof.
  unfold check. intros H.
  destruct (check_rec_pure S st e guard_true) as [(subs & _ & E)|(x & E)].
  - pose proof (E (assertions st) (new_code st)) as E0.
    rewrite with_cache_self in E0. rewrite E0 in H. simpl in H.
    inversion H; subst.
    destruct (submit_list_cache S subs st (assertions st) (new_code st))
      as (a' & n' & E1).
    rewrite with_cache_self in E1.
    rewrite E1 at 1. rewrite E. simpl. rewrite <- E1.
    now rewrite submit_list_twice.
  - specialize (E (assertions st) (new_code st)).
    rewrite with_cache_self in E. rewrite E in H. discriminate.
Qed.

Lemma check_twice_in_one_epoch_witness :
  check plain_services div_x_y (example_state div_checks) = Ok div_x_y_checked /\
  check plain_services div_x_y div_x_y_checked = Ok div_x_y_checked.
Proof.
  assert (H : check plain_services div_x_y (example_state div_checks) =
              Ok div_x_y_checked) by (vm_compute; reflexivity).
  split; [exact H|].
  exact (check_twice_in_one_epoch _ _ _ _ H).
Defined.

(** C9, as stated, fails: the pass run on [z = x / y;] with
    division-by-zero checks on inserts the assertion [y != 0]; run again on
    its own output it starts from an empty cache and inserts the assertion a
    second time. *)
Lemma goto_check_twice_differs :
  (do once <- goto_check_function plain_services div_checks [] "f"
                [assign_z_div] ;
   goto_check_function plain_services div_checks [] "f" once) <>
  goto_check_function plain_services div_checks [] "f" [assign_z_div].
Proof. vm_compute. discriminate. Qed.

(** C10.  The driver processes a throw instruction (unless the thrown
    operand is not of pointer type, which violates an invariant), and
    afterwards the assertion cache is empty: no look-up in it succeeds, and
    an obligation submitted next that is not discarded as trivial is
    emitted, whatever was emitted before the throw. *)
Theorem throw_clears_cache (S : servicest) (function_identifier : irep_idt)
  (i : instructiont) (st : goto_checkt) :
  is_kind i THROW = true ->
  goto_check_instruction S function_identifier i st =
    Err (invariant_violation "to_pointer_type") \/
  exists out did st',
    goto_check_instruction S function_identifier i st = Ok (out, did, st') /\
    assertions st' = [] /\
    (forall e, set_mem e (assertions st') = false) /\
    (forall p h,
        trivial S st' p = false ->
        exists t,
          condition t = guarded h (simplified S st' p) /\
          new_code (add_guarded_property S p h st') = new_code st' ++ [t]).
Proof.
  intros Hk. apply is_kind_eq in Hk.
  unfold goto_check_instruction, has_condition, is_kind. rewrite Hk. simpl.
  unfold goto_check_dispatch, is_kind. rewrite Hk. simpl.
  set (s0 := error_label_checks i (begin_instruction i st)).
  match goal with
  | |- context [bind (bind ?m _) _] => destruct m as [s1|x] eqn:E
  end; simpl.
  - right. do 3 eexists. split; [reflexivity|].
    split; [reflexivity|]. split; [reflexivity|].
    intros p h Ht.
    match goal with
    | |- context [add_guarded_property S p h ?s] =>
        destruct (add_guarded_property_cases S p h s)
          as [[Ht' _]|[(_ & Hm & _)|(_ & _ & t & Hc & Et)]]
    end.
    + congruence.
    + discriminate Hm.
    + exists t. split; [exact Hc|]. now rewrite Et.
  - left.
    destruct (String.eqb _ _); [|discriminate].
    destruct (operands (code i)) as [|[? ? ? [|pointer [|? ?]]] [|? ?]];
      try discriminate.
    destruct (negb _); [|discriminate].
    now inversion E.
Qed.

Lemma throw_clears_cache_witness :
  is_kind throw_p THROW = true /\
  goto_check_instruction plain_services "f" throw_p after_assign_z_div =
    Ok ([throwing_null_assertion plain_services ID_C; throw_p], true,
        after_throw_p) /\
  assertions after_assign_z_div = [y_not_zero] /\
  assertions after_throw_p = [].
Proof.
  assert (H : goto_check_instruction plain_services "f" throw_p
                after_assign_z_div =
              Ok ([throwing_null_assertion plain_services ID_C; throw_p], true,
                  after_throw_p)) by (vm_compute; reflexivity).
  split; [reflexivity|]. split; [exact H|].
  split; [vm_compute; reflexivity|].
  destruct (throw_clears_cache plain_services "f" throw_p after_assign_z_div
              eq_refl) as [E|(out & did & st' & E & Ha & _)];
    rewrite H in E; [discriminate E|].
  inversion E; subst. exact Ha.
Defined.

(** C7 (amended).  After the driver has processed an assignment whose
    left-hand side is a symbol [x], no obligation in the cache mentions [x]
    or contains a dereference; and when the instruction is not a branch
    target and retain-trivial is off, every obligation that was in the cache
    before the instruction and mentions neither is still in it. *)
Theorem invalidation_locality (S : servicest) (function_identifier : irep_idt)
  (i : instructiont) (st : goto_checkt) (out : goto_programt) (did : bool)
  (st' : goto_checkt) (lhs rhs : exprt) :
  is_kind i ASSIGN = true ->
  operands (code i) = [lhs; rhs] ->
  is_id lhs ID_symbol = true ->
  goto_check_instruction S function_identifier i st = Ok (out, did, st') ->
  (forall a,
      In a (assertions st') ->
      has_symbol a [get_identifier lhs] = false /\
      has_subexpr a ID_dereference = false) /\
  (is_target i = false ->
   retain_trivial (flags st) = false ->
   forall a,
     In a (assertions st) ->
     has_symbol a [get_identifier lhs] = false ->
     has_subexpr a ID_dereference = false ->
     In a (assertions st')).
Proof.
  intros Hk Hops Hsym H. apply is_kind_eq in Hk.
  unfold goto_check_instruction, has_condition, is_kind in H.
  rewrite Hk in H. simpl in H.
  unfold goto_check_dispatch, is_kind in H. rewrite Hk in H. simpl in H.
  unfold to_binary_expr in H. rewrite Hops in H. simpl in H.
  set (s0 := error_label_checks i (begin_instruction i st)) in *.
  destruct (check S lhs s0) as [s1|] eqn:E1; [|discriminate]. simpl in H.
  destruct (check S rhs s1) as [s2|] eqn:E2; [|discriminate]. simpl in H.
  assert (Hinv : invalidate lhs s2 =
                 Ok (set_assertions s2
                       (filter
                          (fun a =>
                             negb (has_symbol a [get_identifier lhs] ||
                                   has_subexpr a ID_dereference))
                          (assertions s2)))).
  { destruct lhs as [li lt ln lo]. unfold is_id in Hsym. simpl in Hsym.
    apply String.eqb_eq in Hsym. subst li. reflexivity. }
  rewrite Hinv in H. simpl in H.
  match type of H with
  | context [bind (bind ?m _) _] => destruct m as [rhs'|x] eqn:E3
  end; simpl in H; [|discriminate].
  destruct (code i) as [ci ct cn co]. simpl in H.
  inversion H; subst. simpl. split.
  - intros a Ha. apply filter_In in Ha. destruct Ha as [_ Ha].
    apply negb_true_iff, orb_false_iff in Ha. exact Ha.
  - intros Ht Hr a Ha Hs Hd. apply filter_In. split.
    + eapply check_assertions; [exact E2|].
      eapply check_assertions; [exact E1|].
      unfold s0. rewrite error_label_checks_assertions.
      now apply begin_instruction_assertions.
    + now rewrite Hs, Hd.
Qed.

Lemma invalidation_locality_witness :
  is_kind assign_x ASSIGN = true /\
  operands (code assign_x) = [sym_x; from_integer 1 int32] /\
  is_id sym_x ID_symbol = true /\
  goto_check_instruction plain_services "f" assign_x after_assign_z_div =
    Ok ([assign_x], false, after_assign_x) /\
  In y_not_zero (assertions after_assign_z_div) /\
  In y_not_zero (assertions after_assign_x).
Proof.
  assert (H : goto_check_instruction plain_services "f" assign_x
                after_assign_z_div =
              Ok ([assign_x], false, after_assign_x))
    by (vm_compute; reflexivity).
  assert (Hin : In y_not_zero (assertions after_assign_z_div))
    by (vm_compute; auto).
  split; [reflexivity|]. split; [reflexivity|]. split; [reflexivity|].
  split; [exact H|]. split; [exact Hin|].
  exact (proj2 (invalidation_locality plain_services "f" assign_x
                  after_assign_z_div [assign_x] false after_assign_x sym_x
                  (from_integer 1 int32) eq_refl eq_refl eq_refl H)
               eq_refl eq_refl y_not_zero Hin eq_refl eq_refl).
Defined.

(** C7, as stated, fails at a branch target: [z = x / y;] leaves the
    obligation [y != 0] in the cache; it mentions neither [x] nor a
    dereference, and it is gone after the driver has processed [x = 1;] when
    that instruction is a branch target. *)
Lemma branch_target_assignment_clears_cache :
  (exists out1,
      goto_check_instruction plain_services "f" assign_z_div
        (example_state div_checks) = Ok (out1, true, after_assign_z_div)) /\
  goto_check_instruction plain_services "f" assign_x_target
    after_assign_z_div = Ok ([assign_x_target], false, after_assign_x_target) /\
  assertions after_assign_z_div = [y_not_zero] /\
  has_symbol y_not_zero ["x"] = false /\
  has_subexpr y_not_zero ID_dereference = false /\
  assertions after_assign_x_target = [].
Proof.
  split.
  { exists (map (backfill empty_location)
                (new_code (checked (check plain_services div_x_y
                                          (example_state div_checks)))) ++
            [assign_z_div]).
    vm_compute. reflexivity. }
  repeat split; vm_compute; reflexivity.
Qed.

(** ** The allocation registry *)

Lemma bind_err {A B : Type} (m : result A) (k : A -> result B) x :
  m = Err x -> bind m k = Err x.
Proof. now intros ->. Qed.

Section Collect.

Lemma allocated_memory_call_inv i args :
  allocated_memory_call i = Some args ->
  exists lhs function arguments,
    is_kind i FUNCTION_CALL = true /\
    operands (code i) = [lhs; function; arguments] /\
    is_id function ID_symbol = true /\
    String.eqb (get_identifier function)
               (CPROVER_PREFIX ++ "allocated_memory") = true /\
    operands arguments = args.
Proof.
  unfold allocated_memory_call.
  destruct (is_kind i FUNCTION_CALL); [|discriminate].
  destruct (operands (code i)) as [|lhs [|function [|arguments [|? ?]]]];
    try discriminate.
  destruct (is_id function ID_symbol) eqn:E1; [|discriminate].
  destruct (String.eqb _ _) eqn:E2; [|discriminate].
  simpl. intros H. inversion H; subst. eauto 10.
Qed.

Lemma collect_malformed i args st :
  allocated_memory_call i = Some args ->
  two_unsigned args = false ->
  collect_allocations_instruction i st = Err expected_two_unsigned.
Proof.
  intros H Hu.
  destruct (allocated_memory_call_inv _ _ H)
    as (lhs & fn & arguments & Hk & Hops & Hs & Hn & <-).
  unfold collect_allocations_instruction, to_code_function_call.
  rewrite Hk, Hops. cbn [negb bind]. rewrite Hs, Hn. cbn [negb orb].
  destruct (operands arguments) as [|a [|b [|? ?]]]; try reflexivity.
  simpl in Hu. apply andb_false_iff in Hu.
  destruct Hu as [Hu|Hu]; rewrite Hu; simpl; [reflexivity|].
  now rewrite orb_true_r.
Qed.

Lemma collect_unequal i args st :
  allocated_memory_call i = Some args ->
  two_unsigned args = true ->
  same_type args = false ->
  collect_allocations_instruction i st =
    Err (assertion_failed "args[0].type()==args[1].type()").
Proof.
  intros H Hu Ht.
  destruct (allocated_memory_call_inv _ _ H)
    as (lhs & fn & arguments & Hk & Hops & Hs & Hn & <-).
  unfold collect_allocations_instruction, to_code_function_call.
  rewrite Hk, Hops. cbn [negb bind]. rewrite Hs, Hn. cbn [negb orb].
  destruct (operands arguments) as [|a [|b [|? ?]]]; try discriminate.
  simpl in Hu, Ht. apply andb_true_iff in Hu. destruct Hu as [Ha Hb].
  now rewrite Ha, Hb, Ht.
Qed.

Lemma collect_well_formed i a b st :
  allocated_memory_call i = Some [a; b] ->
  two_unsigned [a; b] = true ->
  same_type [a; b] = true ->
  collect_allocations_instruction i st =
    Ok (set_allocations st (allocations st ++ [(a, b)])).
Proof.
  intros H Hu Ht.
  destruct (allocated_memory_call_inv _ _ H)
    as (lhs & fn & arguments & Hk & Hops & Hs & Hn & Ha).
  unfold collect_allocations_instruction, to_code_function_call.
  rewrite Hk, Hops. cbn [negb bind]. rewrite Hs, Hn. cbn [negb orb]. rewrite Ha.
  simpl in Hu, Ht. apply andb_true_iff in Hu. destruct Hu as [Hua Hub].
  now rewrite Hua, Hub, Ht.
Qed.

Lemma collect_instruction_aborts i args st :
  allocated_memory_call i = Some args ->
  two_unsigned args && same_type args = false ->
  exists x, collect_allocations_instruction i st = Err x.
Proof.
  intros H Hm. destruct (two_unsigned args) eqn:Hu.
  - simpl in Hm. eexists. now apply collect_unequal with (args := args).
  - eexists. now apply collect_malformed with (args := args).
Qed.

Lemma collect_body_aborts body i args :
  In i body ->
  allocated_memory_call i = Some args ->
  two_unsigned args && same_type args = false ->
  forall st, exists x, collect_allocations_body body st = Err x.
Proof.
  intros Hin H Hm. induction body as [|j r IH]; [contradiction|].
  intros st. cbn [collect_allocations_body].
  destruct Hin as [->|Hin].
  - destruct (collect_instruction_aborts _ _ st H Hm) as (x & Hx).
    exists x. apply bind_err. exact Hx.
  - destruct (collect_allocations_instruction j st) as [s1|x] eqn:E;
      simpl; [apply (IH Hin)|eauto].
Qed.

Lemma collect_functions_aborts fs f i args :
  In f fs -> In i (snd f) ->
  allocated_memory_call i = Some args ->
  two_unsigned args && same_type args = false ->
  forall st, exists x, collect_allocations_functions fs st = Err x.
Proof.
  intros Hf Hi H Hm. induction fs as [|f0 r IH]; [contradiction|].
  intros st. cbn [collect_allocations_functions].
  destruct Hf as [->|Hf].
  - destruct (collect_body_aborts _ _ _ Hi H Hm st) as (x & Hx).
    exists x. apply bind_err. exact Hx.
  - destruct (collect_allocations_body (@snd irep_idt goto_programt f0) st)
      as [s1|x] eqn:E;
      simpl; [apply (IH Hf)|eauto].
Qed.

Lemma set_allocations_self st :
  set_allocations st (allocations st ++ []) = st.
Proof. rewrite app_nil_r. now destruct st. Qed.

(** An instruction the collection passes adds its pair, if it has one. *)
Lemma collect_instruction_well_formed i st :
  well_formed_for_collection i = true ->
  collect_allocations_instruction i st =
    Ok (set_allocations st (allocations st ++ allocation_of i)).
Proof.
  unfold well_formed_for_collection, allocation_of, allocated_memory_call,
    collect_allocations_instruction, to_code_function_call.
  intros [Hshape Hargs]%andb_true_iff.
  destruct (is_kind i FUNCTION_CALL); cbn [negb orb] in *.
  2:{ now rewrite set_allocations_self. }
  destruct (operands (code i)) as [|lhs [|function [|arguments [|? ?]]]];
    try discriminate.
  cbn [bind].
  destruct (is_id function ID_symbol); cbn [negb orb andb] in *.
  2:{ now rewrite set_allocations_self. }
  destruct (String.eqb _ _); cbn [negb] in *.
  2:{ now rewrite set_allocations_self. }
  apply andb_true_iff in Hargs. destruct Hargs as [Hu Ht].
  destruct (operands arguments) as [|a [|b [|? ?]]]; try discriminate.
  cbn [two_unsigned same_type] in Hu, Ht.
  apply andb_true_iff in Hu. destruct Hu as [Ha Hb].
  now rewrite Ha, Hb, Ht.
Qed.

Lemma collect_body_app pre post st :
  collect_allocations_body (pre ++ post) st =
  (do s <- collect_allocations_body pre st ;
   collect_allocations_body post s).
Proof.
  revert st. induction pre as [|i r IH]; intros st; [reflexivity|].
  cbn [app collect_allocations_body].
  destruct (collect_allocations_instruction i st); [apply IH|reflexivity].
Qed.

Lemma collect_functions_flat fs st :
  collect_allocations_functions fs st =
  collect_allocations_body (program_instructions fs) st.
Proof.
  revert st. induction fs as [|[name body] r IH]; intros st; [reflexivity|].
  cbn [collect_allocations_functions program_instructions flat_map snd].
  rewrite collect_body_app.
  destruct (collect_allocations_body body st); [apply IH|reflexivity].
Qed.

Lemma collect_body_well_formed body st :
  Forall (fun i => well_formed_for_collection i = true) body ->
  collect_allocations_body body st =
    Ok (set_allocations st (allocations st ++ flat_map allocation_of body)).
Proof.
  intros H. revert st. induction H as [|i r Hi _ IH]; intros st.
  - cbn [collect_allocations_body flat_map]. now rewrite set_allocations_self.
  - cbn [collect_allocations_body flat_map].
    rewrite (collect_instruction_well_formed i st Hi). cbn [bind].
    rewrite IH. destruct st. cbn. now rewrite <- app_assoc.
Qed.

Lemma collect_enabled fs st :
  enable_pointer_check (flags st) || enable_bounds_check (flags st) = true ->
  collect_allocations fs st =
    collect_allocations_body (program_instructions fs) st.
Proof.
  intros He. unfold collect_allocations.
  assert (E : negb (enable_pointer_check (flags st)) &&
              negb (enable_bounds_check (flags st)) = false).
  { apply orb_true_iff in He.
    destruct He as [-> | ->]; simpl; [reflexivity|apply andb_false_r]. }
  rewrite E. apply collect_functions_flat.
Qed.

End Collect.

(** C8 (amended).  The collection of allocations is gated: with neither
    pointer-check nor bounds-check enabled nothing is validated and the
    registry stays as it is.  Otherwise the instructions of the program are
    scanned in order.  When every instruction is well formed the registry
    receives, in that order, the (address, size) pair of every call of the
    allocation intrinsic, and nothing else changes.  The first call of the
    intrinsic that is malformed stops the collection: without exactly two
    unsigned bit-vector arguments it throws "expected two unsigned arguments
    to __CPROVER_allocated_memory", with two unsigned arguments of different
    types it fails the assertion on their types.  The collection aborts on
    every program that contains a malformed call. *)
Theorem collect_allocations_gated (S : servicest) (st : goto_checkt)
  (goto_functions : goto_functionst) :
  (enable_pointer_check (flags st) = false ->
   enable_bounds_check (flags st) = false ->
   collect_allocations goto_functions st = Ok st) /\
  (enable_pointer_check (flags st) || enable_bounds_check (flags st) = true ->
   (Forall (fun i => well_formed_for_collection i = true)
           (program_instructions goto_functions) ->
    collect_allocations goto_functions st =
      Ok (set_allocations st
            (allocations st ++
             flat_map allocation_of (program_instructions goto_functions)))) /\
   (forall pre i post args,
       program_instructions goto_functions = pre ++ i :: post ->
       Forall (fun i => well_formed_for_collection i = true) pre ->
       allocated_memory_call i = Some args ->
       (two_unsigned args = false ->
        collect_allocations goto_functions st = Err expected_two_unsigned) /\
       (two_unsigned args = true -> same_type args = false ->
        collect_allocations goto_functions st =
          Err (assertion_failed "args[0].type()==args[1].type()"))) /\
   (forall f i args,
       In f goto_functions -> In i (snd f) ->
       allocated_memory_call i = Some args ->
       two_unsigned args && same_type args = false ->
       exists x, collect_allocations goto_functions st = Err x)).
Proof.
  split.
  - intros Hp Hb. unfold collect_allocations. now rewrite Hp, Hb.
  - intros He. split; [|split].
    + intros Hwf. rewrite (collect_enabled _ _ He).
      now apply collect_body_well_formed.
    + intros pre i post args Hprog Hpre Hcall.
      rewrite (collect_enabled _ _ He), Hprog, collect_body_app.
      rewrite (collect_body_well_formed pre st Hpre).
      cbn [bind collect_allocations_body]. split.
      * intros Hu. now rewrite (collect_malformed i args _ Hcall Hu).
      * intros Hu Ht. now rewrite (collect_unequal i args _ Hcall Hu Ht).
    + intros f i args Hf Hi Hcall Hm. unfold collect_allocations.
      assert (E : negb (enable_pointer_check (flags st)) &&
                  negb (enable_bounds_check (flags st)) = false).
      { apply orb_true_iff in He.
        destruct He as [-> | ->]; simpl; [reflexivity|apply andb_false_r]. }
      rewrite E. eapply collect_functions_aborts; eassumption.
Qed.

Lemma collect_allocations_gated_witness :
  enable_pointer_check (flags (example_state example_checks)) ||
  enable_bounds_check (flags (example_state example_checks)) = true /\
  Forall (fun i => well_formed_for_collection i = true)
         (program_instructions allocating_functions) /\
  collect_allocations allocating_functions (example_state example_checks) =
    Ok (set_allocations (example_state example_checks)
          [(sym_base, sym_size); (sym_size, sym_base)]) /\
  collect_allocations
    (allocating_functions ++ [("h", [call_allocated_memory [sym_base]])])
    (example_state example_checks) = Err expected_two_unsigned.
Proof.
  assert (He : enable_pointer_check (flags (example_state example_checks)) ||
               enable_bounds_check (flags (example_state example_checks)) =
               true) by reflexivity.
  assert (Hwf : Forall (fun i => well_formed_for_collection i = true)
                       (program_instructions allocating_functions))
    by (repeat constructor).
  split; [exact He|]. split; [exact Hwf|]. split.
  - exact (proj1 (proj2 (collect_allocations_gated plain_services
                           (example_state example_checks)
                           allocating_functions) He) Hwf).
  - exact (proj1
             (proj1 (proj2 (proj2 (collect_allocations_gated plain_services
                                     (example_state example_checks)
                                     (allocating_functions ++
                                      [("h", [call_allocated_memory
                                                [sym_base]])])) He))
                    (program_instructions allocating_functions)
                    (call_allocated_memory [sym_base]) [] [sym_base]
                    eq_refl Hwf eq_refl)
             eq_refl).
Defined.

(** C8, as stated, fails when neither pointer-check nor bounds-check is
    enabled: with division-by-zero checks only, the pass returns normally on
    a program that calls the allocation intrinsic with a single argument. *)
Lemma malformed_allocation_not_checked :
  goto_check_functions plain_services div_checks []
    [("f", [call_allocated_memory [sym_base]])] =
  Ok [("f", [call_allocated_memory [sym_base]])].
Proof. reflexivity. Qed.

(** ** The obligation builders *)

(** C2.  For [x << d] over signed 32-bit integers (C99, signed-overflow-check
    on) the pass emits the disjunction of [x < 0], [x < 0] again, [d > 32],
    [x = 0] and "the top 33 bits of the 64-bit shift are zero".  No disjunct
    compares the distance with zero: the disjunct meant for a negative
    distance compares the operand.  At [x = 1], [d = 32], a distance the
    undefined-shift check calls too large ([d < 32] is false), the
    obligation is false. *)
Theorem shl_overflow_disjunct_for_negative_distance :
  integer_overflow_check plain_services shl_x_d (example_state example_checks) =
    Ok [property plain_services shl_overflow_emitted
          "arithmetic overflow on signed shl" "overflow" shl_x_d] /\
  ~ In distance_negative (operands shl_overflow_emitted) /\
  holds (bv.atom one_shifted_by_width) shl_overflow_emitted = false /\
  bv.atom one_shifted_by_width
    (binary_relation_exprt sym_d ID_lt (from_integer 32 int32)) = false.
Proof.
  split; [reflexivity|]. split; [|split; vm_compute; reflexivity].
  simpl. intros H. repeat (destruct H as [H|H]; [discriminate H|]). exact H.
Qed.

(** C4.  For [a * b] over floats (nan-check on) the pass emits the negation
    of [(isinf(a) and b = 0) or (b = 0 and isinf(a))]: both disjuncts test
    the same operand order.  When [a] is zero and [b] is infinite the
    emitted obligation holds, while the obligation that tests both operand
    orders is violated. *)
Theorem nan_check_mult_misses_zero_times_infinity :
  nan_check plain_services mult_a_b (example_state example_checks) =
    Ok [property plain_services
          (not_exprt
             (or_exprt (and_exprt (isinf_exprt sym_a) b_is_zero)
                       (and_exprt b_is_zero (isinf_exprt sym_a))))
          "NaN on *" "NaN" mult_a_b] /\
  holds zero_times_infinity
    (not_exprt
       (or_exprt (and_exprt (isinf_exprt sym_a) b_is_zero)
                 (and_exprt b_is_zero (isinf_exprt sym_a)))) = true /\
  holds zero_times_infinity nan_mult_both_orders = false.
Proof. repeat split. Qed.

(** C3 (amended).  With every category of obligations disabled, the loop
    over the instructions of a function body puts before each instruction
    only the obligations of its error labels (the assertion of [false], of
    property class "error label", for a declared error label that the
    instruction carries) and, before a throw of an expression with a
    single operand, the obligation that the thrown pointer is not null;
    the instruction itself keeps its kind or becomes a skip. *)
Theorem disabled_checks_silence (S : servicest)
  (function_identifier : irep_idt) (body : goto_programt) :
  forall st out did st',
    checks_enabled (flags st) = false ->
    goto_check_loop S function_identifier body st = Ok (out, did, st') ->
    patched (fun i t => error_label_obligation (error_labels st) i t \/
                        throwing_null_obligation S (mode st) i t) body out.
Proof.
  induction body as [|i rest IH]; intros st out did st' Hoff H.
  - inversion H. constructor.
  - cbn [goto_check_loop] in H.
    destruct (goto_check_instruction S function_identifier i st)
      as [[[out1 did1] st1]|] eqn:E1; [|discriminate].
    cbn [bind] in H.
    destruct (goto_check_loop S function_identifier rest st1)
      as [[[out2 did2] st2]|] eqn:E2; [|discriminate].
    cbn [bind] in H. inversion H; subst out did st'. clear H.
    apply goto_check_instruction_disabled in E1; [|exact Hoff].
    destruct E1 as (Hf & Hm & He & patch & i' & -> & Hkept & Hok).
    rewrite <- app_assoc. cbn [app]. constructor; [exact Hok|exact Hkept|].
    rewrite <- Hm, <- He. eapply IH; [|exact E2]. now rewrite Hf.
Qed.

Lemma disabled_checks_silence_witness :
  checks_enabled (flags error_label_state) = false /\
  goto_check_loop plain_services "f" [labelled_skip; throw_p]
                  error_label_state =
    Ok ([error_label_assertion; labelled_skip;
         throwing_null_assertion plain_services (mode error_label_state);
         throw_p],
        true, after_labelled_throw) /\
  patched (fun i t => error_label_obligation
                        (error_labels error_label_state) i t \/
                      throwing_null_obligation plain_services
                        (mode error_label_state) i t)
          [labelled_skip; throw_p]
          [error_label_assertion; labelled_skip;
           throwing_null_assertion plain_services (mode error_label_state);
           throw_p].
Proof.
  assert (H : goto_check_loop plain_services "f" [labelled_skip; throw_p]
                error_label_state =
              Ok ([error_label_assertion; labelled_skip;
                   throwing_null_assertion plain_services
                     (mode error_label_state);
                   throw_p],
                  true, after_labelled_throw)) by (vm_compute; reflexivity).
  split; [reflexivity|]. split; [exact H|].
  exact (disabled_checks_silence plain_services "f" [labelled_skip; throw_p]
           error_label_state _ true after_labelled_throw eq_refl H).
Defined.

(** With every check option off and no error label declared, the pass run
    on the single instruction [throw p;] with [p] a pointer inserts the
    assertion [p != NULL] ("throwing null", of property class
    "pointer dereference") before it. *)
Lemma throw_null_asserted_with_all_checks_off :
  checks_enabled all_checks_off = false /\
  goto_check_function plain_services all_checks_off [] "f" [throw_p] =
    Ok [throwing_null_assertion plain_services ID_C; throw_p] /\
  is_kind (throwing_null_assertion plain_services ID_C) ASSERT = true /\
  loc_property_class
    (source_location (throwing_null_assertion plain_services ID_C)) <>
    "error label"%string.
Proof.
  split; [reflexivity|]. split; [vm_compute; reflexivity|].
  split; [reflexivity|]. vm_compute. discriminate.
Qed.

(** ** The trace validator *)

(** C5.  For the assignment step [x := byte_extract_little_endian(y, 0)],
    whose right-hand side has the non-constant operand [y], the validator
    raises the error that names the side "LHS". *)
Theorem byte_extract_rhs_error_names_lhs (pretty : exprt -> string) :
  java_trace_validation.check_trace_assumptions (fun e => e) pretty
    [step_byte_extract_rhs] =
  Err (runtime_error
         ("JBMC Check trace assumption failure on LHS expression:" ++
          String (Ascii.ascii_of_nat 10) EmptyString ++ pretty byte_extract_y)).
Proof. reflexivity. Qed.

(** C6.  The operand chain of [&byte_extract_little_endian(x, 0)] passes
    through a byte-extract node and ends at the symbol [x], and
    [get_inner_symbol_expr] returns the empty optional on it. *)
Theorem get_inner_symbol_expr_rejects_byte_extract :
  java_trace_validation.get_inner_symbol_expr address_of_byte_extract =
    Ok None.
Proof. reflexivity. Qed.

(** * Further properties *)

(** ** The trace validator *)

Lemma is_id_inj e a b : is_id e a = true -> is_id e b = true -> a = b.
Proof.
  unfold is_id. intros Ha Hb.
  apply String.eqb_eq in Ha. apply String.eqb_eq in Hb. congruence.
Qed.

(** Two identifier tests on one node with different identifiers. *)
Ltac clash :=
  match goal with
  | Ha : is_id ?e ?a = true, Hb : is_id ?e ?b = true |- _ =>
      exfalso; pose proof (is_id_inj _ _ _ Ha Hb); discriminate
  | Ha : is_id ?e ?a = true, Hb : is_id ?e ?a = false |- _ =>
      rewrite Ha in Hb; discriminate
  end.

Lemma valid_symbol_id e : valid_symbol e -> is_id e ID_symbol = true.
Proof. now intros [H _]. Qed.

(** The hypothesis [H] tests a node for a kind it does not have. *)
Ltac wrong_kind H :=
  first [ discriminate H
        | apply valid_symbol_id in H; clash
        | clash ].

Lemma validate_operands_Ok value number message :
  validate_operands value number message = Ok tt <->
  length (operands value) = number.
Proof.
  unfold validate_operands.
  destruct (Nat.eqb_spec (length (operands value)) number); split;
    congruence.
Qed.

Lemma validate_operands_Err value number message x :
  validate_operands value number message = Err x ->
  x = invariant_violation message /\ length (operands value) <> number.
Proof.
  unfold validate_operands.
  destruct (Nat.eqb_spec (length (operands value)) number); [discriminate|].
  intros [= <-]. auto.
Qed.

Lemma if_cast_eq {A : Type} T base (f : exprt -> result A) g :
  if_cast T base f g =
  if is_id base T then validate_expr T base ;; f base else g.
Proof.
  unfold if_cast, expr_try_dynamic_cast.
  destruct (is_id base T); cbn [negb bind]; [|reflexivity].
  now destruct (validate_expr T base) as [[]|].
Qed.

Lemma expr_try_dynamic_cast_constant e :
  expr_try_dynamic_cast ID_constant e =
  Ok (if is_id e ID_constant then Some e else None).
Proof.
  unfold expr_try_dynamic_cast. now destruct (is_id e ID_constant).
Qed.

Section TraceFacts.

Import java_trace_validation.

Variable simplify_expr : exprt -> exprt.
Variable pretty : exprt -> string.

Lemma check_symbol_structure_eq e :
  check_symbol_structure e =
  if is_id e ID_symbol then
    validate_operands e 0 "Symbols must not have operands" ;;
    Ok (negb (String.eqb (get_identifier e) ""))
  else Ok false.
Proof.
  unfold check_symbol_structure, expr_try_dynamic_cast.
  destruct (is_id e ID_symbol); cbn [negb bind]; [|reflexivity].
  change (validate_expr ID_symbol e)
    with (validate_operands e 0 "Symbols must not have operands").
  now destruct (validate_operands e 0 _) as [[]|].
Qed.

Lemma check_symbol_structure_true e :
  check_symbol_structure e = Ok true <-> valid_symbol e.
Proof.
  rewrite check_symbol_structure_eq. unfold valid_symbol.
  destruct (is_id e ID_symbol).
  - destruct (validate_operands e 0 _) as [[]|x] eqn:E; cbn [bind].
    + apply validate_operands_Ok in E. apply length_zero_iff_nil in E.
      destruct (String.eqb_spec (get_identifier e) ""); cbn [negb]; split.
      * discriminate.
      * intros (_ & _ & H). contradiction.
      * auto.
      * reflexivity.
    + apply validate_operands_Err in E. destruct E as [_ E].
      split; [discriminate|]. intros (_ & H & _). now rewrite H in E.
  - split; [discriminate|]. intros [H _]. discriminate.
Qed.

(** Without operands the symbol test does not fail. *)
Lemma check_symbol_structure_leaf e :
  operands e = [] ->
  check_symbol_structure e =
  Ok (is_id e ID_symbol && negb (String.eqb (get_identifier e) "")).
Proof.
  intros H. rewrite check_symbol_structure_eq. unfold validate_operands.
  rewrite H. now destruct (is_id e ID_symbol).
Qed.

Lemma check_symbol_structure_Err e x :
  check_symbol_structure e = Err x ->
  is_id e ID_symbol = true /\ operands e <> [] /\
  exists message, x = invariant_violation message.
Proof.
  rewrite check_symbol_structure_eq.
  destruct (is_id e ID_symbol); [|discriminate].
  destruct (validate_operands e 0 _) as [[]|y] eqn:E; [discriminate|].
  cbn [bind]. intros [= <-]. apply validate_operands_Err in E.
  destruct E as [-> E]. split; [reflexivity|]. split; [|eauto].
  intros H. now rewrite H in E.
Qed.

Lemma get_inner_symbol_expr_spec e s :
  get_inner_symbol_expr e = Ok (Some s) <->
  s = innermost e /\ check_symbol_structure s = Ok true /\
  forallb can_contain_symbol_operand (path_below e) = true.
Proof.
  revert s. induction e as [i t n ops IH] using exprt_ind'. intros s.
  destruct ops as [|o r].
  - cbn [get_inner_symbol_expr innermost path_below forallb].
    rewrite (check_symbol_structure_leaf (Expr i t n [])) by reflexivity.
    cbn [bind]. unfold expr_try_dynamic_cast.
    destruct (is_id (Expr i t n []) ID_symbol) eqn:Es; cbn [andb negb].
    + destruct (String.eqb (get_identifier (Expr i t n [])) "") eqn:En;
        cbn [negb bind].
      * split; [discriminate|]. intros (-> & H & _).
        rewrite check_symbol_structure_leaf in H by reflexivity.
        rewrite Es, En in H. discriminate.
      * split.
        -- intros [= <-]. split; [reflexivity|]. split; [|reflexivity].
           rewrite check_symbol_structure_leaf by reflexivity.
           now rewrite Es, En.
        -- intros (-> & _ & _). reflexivity.
    + split; [discriminate|]. intros (-> & H & _).
      rewrite check_symbol_structure_leaf in H by reflexivity.
      rewrite Es in H. discriminate.
  - inversion IH as [|? ? IHo _]; subst.
    cbn [get_inner_symbol_expr innermost path_below forallb].
    destruct (can_contain_symbol_operand o); cbn [negb andb].
    + apply IHo.
    + split; [discriminate|]. intros (_ & _ & H). discriminate.
Qed.

Lemma innermost_leaf e : operands (innermost e) = [].
Proof.
  induction e as [i t n ops IH] using exprt_ind'.
  destruct ops as [|o r]; [reflexivity|].
  inversion IH; subst. assumption.
Qed.

(** [get_inner_symbol_expr] does not fail, and it finds a symbol exactly on
    a nested symbol. *)
Lemma get_inner_symbol_expr_nested e :
  (nested_symbol e /\ get_inner_symbol_expr e = Ok (Some (innermost e))) \/
  (~ nested_symbol e /\ get_inner_symbol_expr e = Ok None).
Proof.
  unfold nested_symbol.
  induction e as [i t n ops IH] using exprt_ind'.
  destruct ops as [|o r].
  - cbn [get_inner_symbol_expr innermost path_below forallb].
    pose proof (check_symbol_structure_true (Expr i t n [])) as Ht.
    rewrite (check_symbol_structure_leaf (Expr i t n [])) in * by reflexivity.
    cbn [bind]. unfold expr_try_dynamic_cast.
    destruct (is_id (Expr i t n []) ID_symbol) eqn:Es; cbn [andb negb] in *.
    + destruct (negb (String.eqb (get_identifier (Expr i t n [])) ""));
        cbn [negb bind].
      * left. split; [|reflexivity]. split; [reflexivity|]. now apply Ht.
      * right. split; [|reflexivity]. intros [_ H]. apply Ht in H.
        discriminate.
    + right. split; [|reflexivity]. intros [_ H]. apply Ht in H.
      discriminate.
  - inversion IH as [|? ? IHo _]; subst.
    cbn [get_inner_symbol_expr innermost path_below forallb].
    destruct (can_contain_symbol_operand o); cbn [negb andb].
    + exact IHo.
    + right. split; [|reflexivity]. intros [H _]. discriminate.
Qed.

Lemma has_inner_symbol e :
  exists r, get_inner_symbol_expr e = Ok r /\
            (has_value r = true <-> nested_symbol e).
Proof.
  destruct (get_inner_symbol_expr_nested e) as [[H ->]|[H ->]];
    eexists; (split; [reflexivity|]); cbn [has_value]; split; intros H'.
  - exact H.
  - reflexivity.
  - discriminate.
  - contradiction.
Qed.

Lemma kinds_can_contain e :
  member_index_address_typecast_symbol e = true ->
  can_contain_symbol_operand e = true.
Proof.
  unfold member_index_address_typecast_symbol, can_contain_symbol_operand.
  intros ->. reflexivity.
Qed.

Lemma raise_if_Ok c side e :
  raise_if pretty c side e = Ok tt <-> c = false.
Proof. unfold raise_if, raise_error. destruct c; split; congruence. Qed.

Lemma raise_if_then c side e (k : result unit) :
  (raise_if pretty c side e ;; k) = Ok tt <-> c = false /\ k = Ok tt.
Proof.
  unfold raise_if, raise_error. destruct c; cbn [bind]; split;
    try tauto; try discriminate. intros [? _]. discriminate.
Qed.

Lemma check_member_structure_eq e :
  exists b,
    check_member_structure e = Ok b /\
    (b = true <->
     is_id e ID_member = true /\ operands e <> [] /\ nested_symbol e).
Proof.
  unfold check_member_structure, has_operands.
  destruct (is_id e ID_member) eqn:Em; cbn [negb].
  - destruct (operands e) as [|o r] eqn:Eo; cbn [negb].
    + exists false. split; [reflexivity|]. split; [discriminate|].
      intros (_ & H & _). contradiction.
    + destruct (has_inner_symbol e) as (r' & -> & Hr). cbn [bind].
      exists (has_value r'). split; [reflexivity|]. rewrite Hr.
      split; [intros H; repeat split; [discriminate|apply H..]|tauto].
  - exists false. split; [reflexivity|]. split; [discriminate|].
    intros [H _]. discriminate.
Qed.

(** The symbol test on an operand, as a step of a check. *)
Lemma symbol_step_Ok a side e (k : result unit) :
  (do ok <- check_symbol_structure a ;
   raise_if pretty (negb ok) side e ;; k) = Ok tt <->
  valid_symbol a /\ k = Ok tt.
Proof.
  rewrite <- check_symbol_structure_true.
  destruct (check_symbol_structure a) as [[]|x]; cbn [bind negb].
  - rewrite raise_if_then. tauto.
  - rewrite raise_if_then. split; [intros [H _]|intros [H _]]; discriminate.
  - split; [discriminate|]. intros [H _]. discriminate.
Qed.

Lemma length_one {A : Type} (l : list A) :
  length l = 1%nat <-> exists o, l = [o].
Proof.
  destruct l as [|o [|? ?]]; cbn; split; try discriminate; eauto.
  all: intros [? H]; discriminate.
Qed.

Lemma check_lhs_assumptions_Ok lhs :
  check_lhs_assumptions simplify_expr pretty lhs = Ok tt <->
  accepted_lhs simplify_expr lhs.
Proof.
  unfold check_lhs_assumptions, accepted_lhs, valid_lhs_expr_high_level.
  rewrite !if_cast_eq.
  destruct (is_id lhs ID_member) eqn:Em.
  { cbn [orb negb].
    change (validate_expr ID_member lhs)
      with (validate_operands lhs 1 "Extract member must have one operand").
    destruct (check_member_structure_eq lhs) as (b & Hb & Hbt).
    destruct (validate_operands lhs 1 _) as [[]|x] eqn:Ev; cbn [bind].
    - apply validate_operands_Ok in Ev. rewrite Hb. cbn [bind].
      rewrite raise_if_Ok, negb_false_iff, Hbt. split.
      + intros (_ & _ & H). left. split; [reflexivity|].
        split; [now apply length_one|exact H].
      + intros [(_ & (o & Ho) & H)|[H|[(H & _)|(H & _)]]];
          try wrong_kind H.
        split; [exact Em|]. split; [|exact H]. now rewrite Ho.
    - apply validate_operands_Err in Ev. destruct Ev as [_ Ev].
      split; [discriminate|].
      intros [(_ & Ho & _)|[H|[(H & _)|(H & _)]]]; try wrong_kind H.
      apply length_one in Ho. contradiction. }
  destruct (is_id lhs ID_symbol) eqn:Es.
  { cbn [orb negb].
    change (validate_expr ID_symbol lhs)
      with (validate_operands lhs 0 "Symbols must not have operands").
    pose proof (check_symbol_structure_true lhs) as Ht.
    destruct (validate_operands lhs 0 _) as [[]|x] eqn:Ev; cbn [bind].
    - destruct (check_symbol_structure lhs) as [[]|y]; cbn [bind negb].
      + rewrite raise_if_Ok. split; [intros _; right; left; now apply Ht|auto].
      + rewrite raise_if_Ok. split; [discriminate|].
        intros [(H & _)|[H|[(H & _)|(H & _)]]]; try wrong_kind H.
        apply Ht in H. discriminate.
      + split; [discriminate|].
        intros [(H & _)|[H|[(H & _)|(H & _)]]]; try wrong_kind H.
        apply Ht in H. discriminate.
    - apply validate_operands_Err in Ev. destruct Ev as [_ Ev].
      split; [discriminate|].
      intros [(H & _)|[H|[(H & _)|(H & _)]]]; try wrong_kind H.
      destruct H as (_ & H & _). now rewrite H in Ev. }
  destruct (is_id lhs ID_index) eqn:Ei.
  { cbn [orb negb].
    change (validate_expr ID_index lhs)
      with (validate_operands lhs 2 "Array index must have two operands").
    unfold validate_operands, op0, op1.
    destruct (operands lhs) as [|a [|i [|? ?]]] eqn:Eo;
      cbn [length Nat.eqb bind negb raise_if];
      try (split; [discriminate|];
           intros [(H & _)|[H|[(_ & a' & i' & Ho & _)|(H & _)]]];
           try wrong_kind H; discriminate).
    rewrite symbol_step_Ok. cbn [bind].
    rewrite expr_try_dynamic_cast_constant. cbn [bind].
    rewrite raise_if_Ok, negb_false_iff. split.
    - intros [Ha Hi]. right. right. left. split; [reflexivity|].
      exists a, i. split; [reflexivity|]. split; [exact Ha|].
      now destruct (is_id i ID_constant).
    - intros [(H & _)|[H|[(_ & a' & i' & [= <- <-] & Ha & Hi)|(H & _)]]];
        try wrong_kind H.
      split; [exact Ha|]. now rewrite Hi. }
  destruct (is_id lhs ID_byte_extract_little_endian) eqn:Eb.
  { cbn [orb negb]. unfold op0, op1.
    destruct (operands lhs) as [|a [|o r]] eqn:Eo; cbn [bind].
    - split; [discriminate|].
      intros [(H & _)|[H|[(H & _)|(_ & a' & o' & r' & Ho & _)]]];
        try wrong_kind H; discriminate.
    - rewrite symbol_step_Ok. split; [intros [_ H]; discriminate|].
      intros [(H & _)|[H|[(H & _)|(_ & a' & o' & r' & Ho & _)]]];
        try wrong_kind H; discriminate.
    - rewrite symbol_step_Ok. cbn [bind].
      rewrite expr_try_dynamic_cast_constant. cbn [bind].
      rewrite raise_if_Ok, negb_false_iff. split.
      + intros [Ha Hc]. right. right. right. split; [reflexivity|].
        exists a, o, r. split; [reflexivity|]. split; [exact Ha|].
        now destruct (is_id (simplify_expr o) ID_constant).
      + intros [(H & _)|[H|[(H & _)|(_ & a' & o' & r' & [= <- <- <-] & Ha & Hc)]]];
          try wrong_kind H.
        split; [exact Ha|]. now rewrite Hc. }
  cbn [orb negb]. unfold raise_error. split; [discriminate|].
  intros [(H & _)|[H|[(H & _)|(H & _)]]]; wrong_kind H.
Qed.

Lemma existsb_negb_false {A : Type} (f : A -> bool) l :
  existsb (fun o => negb (f o)) l = false <->
  Forall (fun o => f o = true) l.
Proof.
  induction l as [|x r IH]; cbn [existsb].
  - split; [constructor|reflexivity].
  - rewrite orb_false_iff, negb_false_iff, IH. split.
    + intros [? ?]. now constructor.
    + intros H. inversion H; auto.
Qed.

Lemma check_rhs_assumptions_Ok rhs :
  check_rhs_assumptions simplify_expr pretty rhs = Ok tt <->
  accepted_rhs simplify_expr rhs.
Proof.
  unfold check_rhs_assumptions, accepted_rhs, valid_rhs_expr_high_level.
  rewrite !if_cast_eq.
  change (validate_expr ID_struct rhs) with (@Ok unit tt).
  change (validate_expr ID_constant rhs) with (@Ok unit tt).
  destruct (is_id rhs ID_address_of) eqn:Ea.
  { rewrite !orb_true_r. cbn [orb negb].
    change (validate_expr ID_address_of rhs)
      with (validate_operands rhs 1 "Address of must have one operand").
    destruct (has_inner_symbol rhs) as (r & Hr & Hn).
    destruct (validate_operands rhs 1 _) as [[]|x] eqn:Ev; cbn [bind].
    - apply validate_operands_Ok in Ev. rewrite Hr. cbn [bind].
      rewrite raise_if_Ok, negb_false_iff, Hn. split.
      + intros H. left. split; [reflexivity|].
        split; [now apply length_one|exact H].
      + intros [(_ & _ & H)|[H|[(H & _)|[H|[H|[(H & _)|(H & _)]]]]]];
          try wrong_kind H. exact H.
    - apply validate_operands_Err in Ev. destruct Ev as [_ Ev].
      split; [discriminate|].
      intros [(_ & Ho & _)|[H|[(H & _)|[H|[H|[(H & _)|(H & _)]]]]]];
        try wrong_kind H.
      apply length_one in Ho. contradiction. }
  destruct (is_id rhs ID_symbol) eqn:Es.
  { rewrite !orb_true_r. cbn [orb negb].
    change (validate_expr ID_symbol rhs)
      with (validate_operands rhs 0 "Symbols must not have operands").
    pose proof (check_symbol_structure_true rhs) as Ht.
    destruct (validate_operands rhs 0 _) as [[]|x] eqn:Ev; cbn [bind].
    - destruct (check_symbol_structure rhs) as [[]|y]; cbn [bind negb].
      + rewrite raise_if_Ok. split; [intros _; right; left; now apply Ht|auto].
      + rewrite raise_if_Ok. split; [discriminate|].
        intros [(H & _)|[H|[(H & _)|[H|[H|[(H & _)|(H & _)]]]]]];
          try wrong_kind H.
        apply Ht in H. discriminate.
      + split; [discriminate|].
        intros [(H & _)|[H|[(H & _)|[H|[H|[(H & _)|(H & _)]]]]]];
          try wrong_kind H.
        apply Ht in H. discriminate.
    - apply validate_operands_Err in Ev. destruct Ev as [_ Ev].
      split; [discriminate|].
      intros [(H & _)|[H|[(H & _)|[H|[H|[(H & _)|(H & _)]]]]]];
        try wrong_kind H.
      destruct H as (_ & H & _). now rewrite H in Ev. }
  destruct (is_id rhs ID_struct) eqn:Et.
  { cbn [orb negb bind]. unfold has_operands, op0. split.
    - intros H. destruct (operands rhs) as [|s0 r] eqn:Ho; [discriminate|].
      cbn [negb raise_if bind] in H. apply raise_if_then in H.
      destruct H as [H0 H]. apply raise_if_Ok in H.
      right. right. left. split; [reflexivity|]. exists s0, r.
      split; [reflexivity|]. split.
      + apply andb_false_iff in H0.
        destruct H0 as [H0|H0]; apply negb_false_iff in H0; auto.
      + cbn [length tl] in H. destruct r as [|c r]; [constructor|].
        cbn [length Nat.ltb Nat.leb andb] in H.
        now apply existsb_negb_false.
    - intros [(H & _)|[H|[(_ & s0 & r & Ho & H0 & Hr)|[H|[H|[(H & _)|(H & _)]]]]]];
        try wrong_kind H.
      rewrite Ho. cbn [negb raise_if bind]. apply raise_if_then. split.
      + destruct H0 as [-> | ->]; [reflexivity|apply andb_false_r].
      + apply raise_if_Ok. cbn [tl].
        apply existsb_negb_false in Hr. rewrite Hr. apply andb_false_r. }
  destruct (is_id rhs ID_array) eqn:Ey.
  { cbn [orb negb]. split; [tauto|reflexivity]. }
  destruct (is_id rhs ID_array_list) eqn:El.
  { rewrite !orb_true_r. cbn [orb negb]. split; [tauto|reflexivity]. }
  destruct (is_id rhs ID_constant) eqn:Ec.
  { cbn [orb negb bind]. unfold has_operands, op0. split.
    - intros H. right. right. right. right. right. left.
      split; [reflexivity|].
      destruct (operands rhs) as [|o r].
      + apply raise_if_Ok in H. exact H.
      + cbn [bind] in H. apply raise_if_Ok in H. cbv zeta.
        destruct (is_id (skip_typecast o) ID_constant); [auto|].
        destruct (is_id (skip_typecast o) ID_address_of); [auto|].
        destruct (is_id (skip_typecast o) ID_plus); [auto|discriminate].
    - intros [(H & _)|[H|[(H & _)|[H|[H|[(_ & H)|(H & _)]]]]]];
        try wrong_kind H.
      destruct (operands rhs) as [|o r].
      + apply raise_if_Ok. exact H.
      + cbn [bind]. apply raise_if_Ok. cbv zeta in H.
        destruct H as [-> |[-> | ->]]; cbn [negb andb];
          rewrite ?andb_false_r; reflexivity. }
  destruct (is_id rhs ID_byte_extract_little_endian) eqn:Eb.
  { cbn [orb negb]. unfold op0, op1. split.
    - intros H.
      destruct (operands rhs) as [|a [|o r]]; try discriminate.
      + cbn [bind] in H. apply raise_if_then in H. destruct H as [_ H].
        discriminate.
      + cbn [bind] in H. apply raise_if_then in H. destruct H as [Ha H].
        cbn [bind] in H. apply raise_if_Ok in H.
        apply negb_false_iff in Ha. apply negb_false_iff in H.
        do 6 right. split; [reflexivity|]. exists a, o, r. auto.
    - intros [(H & _)|[H|[(H & _)|[H|[H|[(H & _)|(_ & a & o & r & Ho & Ha & Hc)]]]]]];
        try wrong_kind H.
      rewrite Ho. cbn [bind]. apply raise_if_then. rewrite Ha.
      split; [reflexivity|]. cbn [bind]. apply raise_if_Ok. now rewrite Hc. }
  cbn [orb negb]. unfold raise_error. split; [discriminate|].
  intros [(H & _)|[H|[(H & _)|[H|[H|[(H & _)|(H & _)]]]]]]; wrong_kind H.
Qed.

Lemma raise_if_Err c side e x :
  raise_if pretty c side e = Err x -> x = trace_assumption_failure pretty side e.
Proof. unfold raise_if, raise_error. destruct c; [|discriminate]. now intros [= <-]. Qed.

Lemma raise_if_then_Err c side e (k : result unit) x :
  (raise_if pretty c side e ;; k) = Err x ->
  x = trace_assumption_failure pretty side e \/ k = Err x.
Proof.
  unfold raise_if, raise_error. destruct c; cbn [bind]; [|auto].
  intros [= <-]. now left.
Qed.

(** On a node with the operands of its class the symbol test does not
    fail. *)
Lemma check_symbol_structure_total a :
  operand_count_ok a = true -> exists b, check_symbol_structure a = Ok b.
Proof.
  unfold operand_count_ok. rewrite check_symbol_structure_eq.
  unfold validate_operands.
  destruct (is_id a ID_symbol); [|eauto]. intros ->. cbn [bind]. eauto.
Qed.

Lemma symbol_step_Err a side e (k : result unit) x :
  operand_count_ok a = true ->
  (do ok <- check_symbol_structure a ;
   raise_if pretty (negb ok) side e ;; k) = Err x ->
  x = trace_assumption_failure pretty side e \/ k = Err x.
Proof.
  intros Ha. destruct (check_symbol_structure_total a Ha) as [b ->].
  cbn [bind]. apply raise_if_then_Err.
Qed.

Lemma check_lhs_assumptions_Err lhs x :
  well_formed_side lhs = true ->
  check_lhs_assumptions simplify_expr pretty lhs = Err x ->
  x = trace_assumption_failure pretty "LHS" lhs.
Proof.
  unfold well_formed_side. intros [Hc Hops]%andb_true_iff.
  unfold check_lhs_assumptions. rewrite !if_cast_eq.
  destruct (negb _); [now intros [= <-]|].
  unfold operand_count_ok in Hc.
  destruct (is_id lhs ID_symbol) eqn:Es.
  { destruct (is_id lhs ID_member) eqn:Em; [clash|].
    change (validate_expr ID_symbol lhs)
      with (validate_operands lhs 0 "Symbols must not have operands").
    unfold validate_operands. rewrite Hc. cbn [bind].
    destruct (check_symbol_structure_total lhs) as [b ->].
    { unfold operand_count_ok. now rewrite Es. }
    cbn [bind]. apply raise_if_Err. }
  destruct (is_id lhs ID_member) eqn:Em.
  { cbn [orb] in Hc.
    change (validate_expr ID_member lhs)
      with (validate_operands lhs 1 "Extract member must have one operand").
    unfold validate_operands. rewrite Hc. cbn [bind].
    destruct (check_member_structure_eq lhs) as (b & -> & _). cbn [bind].
    apply raise_if_Err. }
  destruct (is_id lhs ID_address_of) eqn:Ea.
  { destruct (is_id lhs ID_index) eqn:Ei; [clash|].
    destruct (is_id lhs ID_byte_extract_little_endian) eqn:Eb; [clash|].
    now intros [= <-]. }
  cbn [orb] in Hc.
  destruct (is_id lhs ID_index) eqn:Ei.
  { cbn [orb] in Hc.
    change (validate_expr ID_index lhs)
      with (validate_operands lhs 2 "Array index must have two operands").
    unfold validate_operands, op0, op1. rewrite Hc. cbn [bind negb raise_if].
    destruct (operands lhs) as [|a [|i [|? ?]]]; try discriminate.
    cbn [forallb] in Hops. apply andb_true_iff in Hops.
    destruct Hops as [Ha _]. intros H.
    apply symbol_step_Err in H; [|exact Ha].
    destruct H as [H|H]; [exact H|]. cbn [bind] in H.
    rewrite expr_try_dynamic_cast_constant in H. cbn [bind] in H.
    eapply raise_if_Err, H. }
  destruct (is_id lhs ID_byte_extract_little_endian) eqn:Eb;
    [|now intros [= <-]].
  cbn [orb] in Hc. unfold op0, op1.
  destruct (operands lhs) as [|a [|o [|? ?]]]; try discriminate.
  cbn [forallb] in Hops. apply andb_true_iff in Hops.
  destruct Hops as [Ha _]. cbn [bind]. intros H.
  apply symbol_step_Err in H; [|exact Ha].
  destruct H as [H|H]; [exact H|]. cbn [bind] in H.
  rewrite expr_try_dynamic_cast_constant in H. cbn [bind] in H.
  eapply raise_if_Err, H.
Qed.

Lemma check_rhs_assumptions_Err rhs x :
  operand_count_ok rhs = true ->
  is_id rhs ID_byte_extract_little_endian = false ->
  check_rhs_assumptions simplify_expr pretty rhs = Err x ->
  x = trace_assumption_failure pretty "RHS" rhs.
Proof.
  intros Hc Hb. unfold check_rhs_assumptions. rewrite !if_cast_eq.
  change (validate_expr ID_struct rhs) with (@Ok unit tt).
  change (validate_expr ID_constant rhs) with (@Ok unit tt).
  destruct (negb _); [now intros [= <-]|].
  unfold operand_count_ok in Hc.
  destruct (is_id rhs ID_symbol) eqn:Es.
  { destruct (is_id rhs ID_address_of) eqn:Ea; [clash|].
    change (validate_expr ID_symbol rhs)
      with (validate_operands rhs 0 "Symbols must not have operands").
    unfold validate_operands. rewrite Hc. cbn [bind].
    destruct (check_symbol_structure_total rhs) as [b ->].
    { unfold operand_count_ok. now rewrite Es. }
    cbn [bind]. apply raise_if_Err. }
  destruct (is_id rhs ID_address_of) eqn:Ea.
  { destruct (is_id rhs ID_member) eqn:Em; [clash|]. cbn [orb] in Hc.
    change (validate_expr ID_address_of rhs)
      with (validate_operands rhs 1 "Address of must have one operand").
    unfold validate_operands. rewrite Hc. cbn [bind].
    destruct (has_inner_symbol rhs) as (r & -> & _). cbn [bind].
    apply raise_if_Err. }
  destruct (is_id rhs ID_struct).
  { cbn [bind]. unfold has_operands, op0.
    destruct (operands rhs) as [|s0 r]; cbn [negb raise_if bind].
    - now intros [= <-].
    - intros H. apply raise_if_then_Err in H. destruct H as [H|H]; [exact H|].
      eapply raise_if_Err, H. }
  destruct (is_id rhs ID_array); [discriminate|].
  destruct (is_id rhs ID_array_list); [discriminate|].
  destruct (is_id rhs ID_constant).
  { cbn [bind]. unfold has_operands, op0. destruct (operands rhs) as [|o r].
    - intros H. eapply raise_if_Err, H.
    - cbn [bind]. intros H. eapply raise_if_Err, H. }
  rewrite Hb. now intros [= <-].
Qed.

Lemma check_trace_assumptions_Ok steps :
  check_trace_assumptions simplify_expr pretty steps = Ok tt <->
  Forall (fun step => check_step_assumptions simplify_expr pretty step = Ok tt)
         steps.
Proof.
  induction steps as [|step rest IH]; cbn [check_trace_assumptions].
  - split; [constructor|reflexivity].
  - destruct (check_step_assumptions simplify_expr pretty step) as [[]|x] eqn:E;
      cbn [bind].
    + rewrite IH. split.
      * intros H. now constructor.
      * intros H. now inversion H.
    + split; [discriminate|]. intros H. inversion H. congruence.
Qed.

Lemma check_step_assumptions_Ok step :
  check_step_assumptions simplify_expr pretty step = Ok tt <->
  (is_assignment step = false /\ is_decl step = false) \/
  (accepted_lhs simplify_expr (skip_typecast (full_lhs step)) /\
   accepted_rhs simplify_expr (skip_typecast (full_lhs_value step))).
Proof.
  unfold check_step_assumptions.
  destruct (is_assignment step) eqn:Ea, (is_decl step) eqn:Ed; cbn [negb andb].
  4:{ split; [now left|reflexivity]. }
  all: rewrite <- check_lhs_assumptions_Ok, <- check_rhs_assumptions_Ok;
    destruct (check_lhs_assumptions _ _ _) as [[]|]; cbn [bind];
    (split; [intros H; right; now split|]);
    intros [[? ?]|[? ?]]; congruence.
Qed.

Lemma check_trace_assumptions_accepted steps :
  check_trace_assumptions simplify_expr pretty steps = Ok tt <->
  Forall (accepted_step simplify_expr) steps.
Proof.
  rewrite check_trace_assumptions_Ok. split; intros H;
    (eapply Forall_impl; [|exact H]); intros step;
    apply check_step_assumptions_Ok.
Qed.

End TraceFacts.

(** X1.  [get_inner_symbol_expr] returns the expression at the end of the
    first-operand path, and it does so exactly when that expression is a
    symbol with a non-empty identifier and every node of the path below the
    root passes [can_contain_symbol_operand]; the kind of the root is not
    tested. *)
Theorem get_inner_symbol_expr_characterised (e s : exprt) :
  java_trace_validation.get_inner_symbol_expr e = Ok (Some s) <->
  s = innermost e /\
  java_trace_validation.check_symbol_structure s = Ok true /\
  forallb java_trace_validation.can_contain_symbol_operand (path_below e) =
    true.
Proof. apply get_inner_symbol_expr_spec. Qed.

(** X2.  Through member, index, address-of, typecast and symbol nodes the
    nested symbol is found: when every node below the root is of one of
    these kinds and the path ends at a symbol with a non-empty identifier,
    [get_inner_symbol_expr] returns that symbol. *)
Theorem get_inner_symbol_expr_through_accesses (e : exprt) :
  forallb member_index_address_typecast_symbol (path_below e) = true ->
  java_trace_validation.check_symbol_structure (innermost e) = Ok true ->
  java_trace_validation.get_inner_symbol_expr e = Ok (Some (innermost e)).
Proof.
  intros Hp Hs. apply get_inner_symbol_expr_spec.
  split; [reflexivity|]. split; [exact Hs|].
  apply forallb_forall. intros o Ho.
  apply kinds_can_contain. rewrite forallb_forall in Hp. now apply Hp.
Qed.

Lemma get_inner_symbol_expr_through_accesses_witness :
  forallb member_index_address_typecast_symbol (path_below address_of_x_f_g) =
    true /\
  java_trace_validation.check_symbol_structure (innermost address_of_x_f_g) =
    Ok true /\
  java_trace_validation.get_inner_symbol_expr address_of_x_f_g =
    Ok (Some sym_x).
Proof.
  split; [reflexivity|]. split; [reflexivity|].
  exact (get_inner_symbol_expr_through_accesses address_of_x_f_g
           eq_refl eq_refl).
Defined.

(** X3.  The validator accepts a left-hand side, neither raising an error
    nor violating an invariant of a cast, exactly when it is a member
    expression with one operand and a nested valid symbol, a valid symbol
    (a symbol without operands whose identifier is not empty), an index
    expression with two operands, a valid symbol and a constant, or a
    byte-extract of a valid symbol at an offset that simplifies to a
    constant. *)
Theorem lhs_accepted_shapes (simplify_expr : exprt -> exprt)
  (pretty : exprt -> string) (lhs : exprt) :
  java_trace_validation.check_lhs_assumptions simplify_expr pretty lhs =
    Ok tt <->
  accepted_lhs simplify_expr lhs.
Proof. apply check_lhs_assumptions_Ok. Qed.

(** X4.  The validator accepts a right-hand side, neither raising an error
    nor violating an invariant of a cast, exactly when it is an address-of
    with one operand and a nested valid symbol, a valid symbol, a struct
    whose first operand is a struct or a constant and whose other operands
    are constants, an array, an array list, a constant with a non-empty
    value or with a first operand that is, typecasts removed, a constant,
    an address-of or a sum, or a byte-extract whose two operands simplify to
    constants. *)
Theorem rhs_accepted_shapes (simplify_expr : exprt -> exprt)
  (pretty : exprt -> string) (rhs : exprt) :
  java_trace_validation.check_rhs_assumptions simplify_expr pretty rhs =
    Ok tt <->
  accepted_rhs simplify_expr rhs.
Proof. apply check_rhs_assumptions_Ok. Qed.

(** X5.  When a left-hand side and its operands have the operands of
    their classes (none for a symbol, one for a member and an address-of,
    two for an index and a byte-extract), the only failure of its check is
    the error that names the side LHS and prints the left-hand side,
    whichever test fails. *)
Theorem lhs_error_names_lhs (simplify_expr : exprt -> exprt)
  (pretty : exprt -> string) (lhs : exprt) (x : exceptiont) :
  well_formed_side lhs = true ->
  java_trace_validation.check_lhs_assumptions simplify_expr pretty lhs =
    Err x ->
  x = trace_assumption_failure pretty "LHS" lhs.
Proof. apply check_lhs_assumptions_Err. Qed.

Lemma lhs_error_names_lhs_witness :
  well_formed_side x_at_y = true /\
  java_trace_validation.check_lhs_assumptions no_simplification pretty_id
    x_at_y =
    Err (trace_assumption_failure pretty_id "LHS" x_at_y) /\
  trace_assumption_failure pretty_id "LHS" x_at_y =
    trace_assumption_failure pretty_id "LHS" x_at_y.
Proof.
  split; [reflexivity|]. split; [reflexivity|].
  exact (lhs_error_names_lhs no_simplification pretty_id x_at_y _
           eq_refl eq_refl).
Defined.

(** X6.  When a right-hand side that is not a byte-extract has the
    operands of its class (none for a symbol, one for an address-of), the
    only failure of its check is the error that names the side RHS and
    prints the right-hand side. *)
Theorem rhs_error_names_rhs (simplify_expr : exprt -> exprt)
  (pretty : exprt -> string) (rhs : exprt) (x : exceptiont) :
  operand_count_ok rhs = true ->
  is_id rhs ID_byte_extract_little_endian = false ->
  java_trace_validation.check_rhs_assumptions simplify_expr pretty rhs =
    Err x ->
  x = trace_assumption_failure pretty "RHS" rhs.
Proof. apply check_rhs_assumptions_Err. Qed.

Lemma rhs_error_names_rhs_witness :
  operand_count_ok x_f_g = true /\
  is_id x_f_g ID_byte_extract_little_endian = false /\
  java_trace_validation.check_rhs_assumptions no_simplification pretty_id
    x_f_g =
    Err (trace_assumption_failure pretty_id "RHS" x_f_g) /\
  trace_assumption_failure pretty_id "RHS" x_f_g =
    trace_assumption_failure pretty_id "RHS" x_f_g.
Proof.
  split; [reflexivity|]. split; [reflexivity|]. split; [reflexivity|].
  exact (rhs_error_names_rhs no_simplification pretty_id x_f_g _
           eq_refl eq_refl eq_refl).
Defined.

(** X7.  A trace is accepted exactly when each of its steps is: a step
    that is neither an assignment nor a declaration always, an assignment
    or declaration when both sides, outer typecasts removed, have an
    accepted shape. *)
Theorem trace_accepted_iff_steps_accepted (simplify_expr : exprt -> exprt)
  (pretty : exprt -> string)
  (steps : list java_trace_validation.goto_trace_stept) :
  java_trace_validation.check_trace_assumptions simplify_expr pretty steps =
    Ok tt <->
  Forall (accepted_step simplify_expr) steps.
Proof. apply check_trace_assumptions_accepted. Qed.

(** X8.  The validator stops at the first step it rejects: when the steps
    before a step are accepted and the step raises an error, the trace
    raises that error, whatever follows. *)
Theorem trace_error_of_first_rejected_step (simplify_expr : exprt -> exprt)
  (pretty : exprt -> string)
  (pre post : list java_trace_validation.goto_trace_stept)
  (step : java_trace_validation.goto_trace_stept) (x : exceptiont) :
  java_trace_validation.check_trace_assumptions simplify_expr pretty pre =
    Ok tt ->
  java_trace_validation.check_step_assumptions simplify_expr pretty step =
    Err x ->
  java_trace_validation.check_trace_assumptions simplify_expr pretty
    (pre ++ step :: post) = Err x.
Proof.
  intros Hpre Hstep. induction pre as [|s r IH];
    cbn [app java_trace_validation.check_trace_assumptions] in *.
  - now rewrite Hstep.
  - destruct (java_trace_validation.check_step_assumptions simplify_expr
                pretty s) as [[]|]; [|discriminate].
    cbn [bind] in *. now apply IH.
Qed.

Lemma trace_error_of_first_rejected_step_witness :
  java_trace_validation.check_trace_assumptions no_simplification pretty_id
    trace_prefix = Ok tt /\
  java_trace_validation.check_step_assumptions no_simplification pretty_id
    step_anonymous_lhs =
    Err (trace_assumption_failure pretty_id "LHS" anonymous_symbol) /\
  java_trace_validation.check_trace_assumptions no_simplification pretty_id
    (trace_prefix ++ step_anonymous_lhs :: [step_byte_extract_rhs]) =
    Err (trace_assumption_failure pretty_id "LHS" anonymous_symbol).
Proof.
  split; [reflexivity|]. split; [reflexivity|].
  exact (trace_error_of_first_rejected_step no_simplification pretty_id
           trace_prefix [step_byte_extract_rhs] step_anonymous_lhs _
           eq_refl eq_refl).
Defined.

(** X9.  Each trace builder of the Java checker returns exactly when the
    base checker returns a trace and, with validate-trace, every step of
    that trace is accepted.  It returns the trace of the base checker
    unchanged and logs the success message with validate-trace, nothing
    without. *)
Theorem trace_builders_return (simplify_expr : exprt -> exprt)
  (pretty : exprt -> string) (validate_trace : bool)
  (base : result java_multi_path_symex_checker.goto_tracet)
  (base_by_property :
     irep_idt -> result java_multi_path_symex_checker.goto_tracet)
  (property_id : irep_idt)
  (goto_trace : java_multi_path_symex_checker.goto_tracet)
  (log : list string) :
  (java_multi_path_symex_checker.build_full_trace simplify_expr pretty
     validate_trace base = Ok (goto_trace, log) <->
   base = Ok goto_trace /\
   if validate_trace
   then Forall (accepted_step simplify_expr) goto_trace /\
        log = ["Trace validation successful"]
   else log = []) /\
  (java_multi_path_symex_checker.build_trace simplify_expr pretty
     validate_trace base_by_property property_id = Ok (goto_trace, log) <->
   base_by_property property_id = Ok goto_trace /\
   if validate_trace
   then Forall (accepted_step simplify_expr) goto_trace /\
        log = ["Trace validation successful"]
   else log = []) /\
  (java_multi_path_symex_checker.build_shortest_trace simplify_expr pretty
     validate_trace base = Ok (goto_trace, log) <->
   base = Ok goto_trace /\
   if validate_trace
   then Forall (accepted_step simplify_expr) goto_trace /\
        log = ["Trace validation successful"]
   else log = []).
Proof.
  assert (H : forall b : result java_multi_path_symex_checker.goto_tracet,
             (do t <- b ;
              if validate_trace then
                java_trace_validation.check_trace_assumptions simplify_expr
                  pretty t ;;
                Ok (t, ["Trace validation successful"])
              else Ok (t, [])) = Ok (goto_trace, log) <->
             b = Ok goto_trace /\
             if validate_trace
             then Forall (accepted_step simplify_expr) goto_trace /\
                  log = ["Trace validation successful"]
             else log = []).
  { intros [t|y]; cbn [bind].
    2:{ split; [discriminate|]. intros [[=] _]. }
    destruct validate_trace.
    - pose proof (check_trace_assumptions_accepted simplify_expr pretty t)
        as Ht.
      destruct (java_trace_validation.check_trace_assumptions simplify_expr
                  pretty t) as [[]|] eqn:E; cbn [bind].
      + split.
        * intros [= <- <-]. split; [reflexivity|].
          split; [now apply Ht|reflexivity].
        * intros ([= <-] & _ & ->). reflexivity.
      + split; [discriminate|]. intros ([= <-] & Hacc & _).
        apply Ht in Hacc. discriminate.
    - split.
      + intros [= <- <-]. auto.
      + intros ([= <-] & ->). reflexivity. }
  split; [|split].
  - apply H.
  - apply (H (base_by_property property_id)).
  - apply H.
Qed.

(** ** The emitter *)

Section EmitterFacts.

Variable S : servicest.

Lemma is_true_guarded h phi :
  is_true (guarded h phi) = true -> is_true phi = true.
Proof.
  unfold guarded. destruct (guard_is_true h); [auto|]. discriminate.
Qed.

Lemma NoDup_snoc {A : Type} (l : list A) x :
  NoDup l -> ~ In x l -> NoDup (l ++ [x]).
Proof.
  intros Hl Hx. apply NoDup_app; [exact Hl|repeat constructor; auto|].
  intros y Hy [<-|[]]. contradiction.
Qed.

(** One submission: nothing, or one instruction whose condition enters the
    cache. *)
Lemma add_guarded_property_emits p h st :
  exists emitted,
    add_guarded_property S p h st =
      with_cache st (assertions st ++ map condition emitted)
                 (new_code st ++ emitted) /\
    Forall (obligation_instruction (flags st)) emitted /\
    Forall (fun t => loc_property_class (source_location t) =
                     property_class p) emitted /\
    (NoDup (assertions st) ->
     NoDup (assertions st ++ map condition emitted)).
Proof.
  assert (Hnone : exists emitted,
             st = with_cache st (assertions st ++ map condition emitted)
                    (new_code st ++ emitted) /\
             Forall (obligation_instruction (flags st)) emitted /\
             Forall (fun t => loc_property_class (source_location t) =
                              property_class p) emitted /\
             (NoDup (assertions st) ->
              NoDup (assertions st ++ map condition emitted))).
  { exists []. cbn [map]. rewrite !app_nil_r, with_cache_self. auto. }
  unfold add_guarded_property.
  fold (simplified S st p). fold (guarded h (simplified S st p)).
  fold (trivial S st p).
  destruct (trivial S st p) eqn:Ht; [exact Hnone|].
  destruct (set_mem (guarded h (simplified S st p)) (assertions st)) eqn:Hm;
    [exact Hnone|].
  match goal with |- context [new_code st ++ [?i]] => exists [i] end.
  split; [now destruct (enable_assert_to_assume (flags st))|].
  split; [|split].
  - constructor; [|constructor]. split; [|split].
    + now destruct (enable_assert_to_assume (flags st)).
    + now destruct (enable_assert_to_assume (flags st)).
    + intros Hr.
      assert (Hc : is_true (guarded h (simplified S st p)) = false).
      { destruct (is_true (guarded h (simplified S st p))) eqn:E; [|reflexivity].
        apply is_true_guarded in E. unfold trivial in Ht.
        now rewrite Hr, E in Ht. }
      now destruct (enable_assert_to_assume (flags st)).
  - constructor; [|constructor].
    now destruct (enable_assert_to_assume (flags st)).
  - intros Hnd. cbn [map].
    replace (condition _) with (guarded h (simplified S st p))
      by now destruct (enable_assert_to_assume (flags st)).
    apply NoDup_snoc; [exact Hnd|]. intros Hin.
    apply set_mem_In in Hin. congruence.
Qed.

Lemma submit_list_emits subs : forall st,
  exists emitted,
    submit_list S subs st =
      with_cache st (assertions st ++ map condition emitted)
                 (new_code st ++ emitted) /\
    Forall (obligation_instruction (flags st)) emitted /\
    Forall (fun t => exists ph,
                In ph subs /\
                loc_property_class (source_location t) =
                  property_class (fst ph)) emitted /\
    (NoDup (assertions st) ->
     NoDup (assertions st ++ map condition emitted)).
Proof.
  induction subs as [|[p h] r IH]; intros st.
  - exists []. cbn [map submit_list fold_left].
    rewrite !app_nil_r, with_cache_self. auto.
  - unfold submit_list. cbn [fold_left fst snd].
    fold (submit_list S r (add_guarded_property S p h st)).
    destruct (add_guarded_property_emits p h st) as (e1 & E1 & K1 & C1 & N1).
    destruct (IH (add_guarded_property S p h st)) as (e2 & E2 & K2 & C2 & N2).
    rewrite E2. rewrite E1 in *. cbn [assertions new_code flags with_cache
      set_new_code set_assertions] in *.
    exists (e1 ++ e2). split; [|split; [|split]].
    + rewrite map_app, !app_assoc. reflexivity.
    + apply Forall_app. split; assumption.
    + apply Forall_app. split.
      * eapply Forall_impl; [|exact C1]. intros t Ht.
        exists (p, h). split; [now left|exact Ht].
      * eapply Forall_impl; [|exact C2]. intros t (ph & Hin & Ht).
        exists ph. split; [now right|exact Ht].
    + intros Hnd. rewrite map_app, app_assoc. auto.
Qed.

End EmitterFacts.

(** ** Every obligation the walker submits comes from a builder *)

Section WalkSubmits.

Variable S : servicest.
Variable st : goto_checkt.

Lemma walk_submits_ext w w' g Q :
  (forall s, w s = w' s) -> walk_submits S st w' g Q -> walk_submits S st w g Q.
Proof.
  intros E [(subs & Hs & H)|(x & H)]; [left; exists subs|right; exists x].
  - split; [exact Hs|]. intros a n. now rewrite E.
  - intros a n. now rewrite E.
Qed.

Lemma walk_submits_ret g Q : walk_submits S st (fun s => Ok (g, s)) g Q.
Proof. left. exists []. split; [constructor|reflexivity]. Qed.

Lemma walk_submits_err x g Q : walk_submits S st (fun _ => Err x) g Q.
Proof. right. now exists x. Qed.

Lemma walk_submits_bind (w1 : goto_checkt -> walkt)
  (k : guardt * goto_checkt -> walkt) g1 g2 Q :
  walk_submits S st w1 g1 Q ->
  walk_submits S st (fun s => k (g1, s)) g2 Q ->
  walk_submits S st (fun s => do x <- w1 s ; k x) g2 Q.
Proof.
  intros [(l1 & Q1 & H1)|(x & H1)].
  - intros [(l2 & Q2 & H2)|(x & H2)].
    + left. exists (l1 ++ l2). split; [now apply Forall_app|].
      intros a n. rewrite H1. cbn [bind].
      destruct (submit_list_cache S l1 st a n) as (a' & n' & E).
      rewrite E, H2, <- E. now rewrite submit_list_app.
    + right. exists x. intros a n. rewrite H1. cbn [bind].
      destruct (submit_list_cache S l1 st a n) as (a' & n' & E).
      now rewrite E, H2.
  - intros _. right. exists x. intros a n. now rewrite H1.
Qed.

Lemma walk_submits_submit (b : goto_checkt -> result (list propertyt)) g :
  (forall a n, b (with_cache st a n) = b st) ->
  (forall l, b st = Ok l -> built S st l) ->
  walk_submits S st (fun s => submit S (b s) g s) g (from_builder S st).
Proof.
  intros Hb Hl. unfold submit.
  destruct (b st) as [l|x] eqn:E.
  - left. exists (map (fun p => (p, g)) l). split.
    + apply Forall_forall. intros ph Hin. apply in_map_iff in Hin.
      destruct Hin as (p & <- & Hp). exists l. split; [now apply Hl|exact Hp].
    + intros a n. cbv beta. rewrite (Hb a n). cbn [bind].
      now rewrite add_guarded_properties_submit_list.
  - right. exists x. intros a n. cbv beta. now rewrite (Hb a n).
Qed.

Lemma walk_submits_and_then w1 (w2 : guardt -> goto_checkt -> walkt) g1 g2 Q :
  walk_submits S st w1 g1 Q ->
  walk_submits S st (w2 g1) g2 Q ->
  walk_submits S st (fun s => and_then (w1 s) w2) g2 Q.
Proof.
  intros H1 H2. unfold and_then.
  apply (walk_submits_bind w1 (fun x => w2 (fst x) (snd x)) g1 g2 Q H1).
  exact H2.
Qed.

Lemma walk_submits_guarded {A : Type} (r : result A) w g Q :
  walk_submits S st w g Q -> walk_submits S st (fun s => r ;; w s) g Q.
Proof.
  intros H. destruct r as [a|x]; cbn [bind]; [|apply walk_submits_err].
  eapply walk_submits_ext; [|exact H]. reflexivity.
Qed.

(** The call of a builder. *)
Ltac builds :=
  apply walk_submits_submit;
  [reflexivity|let l := fresh "l" in let H := fresh "H" in
               intros l H; econstructor; exact H].

Lemma built_check_rec_div e g :
  walk_submits S st (check_rec_div S e g) g (from_builder S st).
Proof.
  unfold check_rec_div.
  apply walk_submits_and_then with (g1 := g).
  - builds.
  - destruct (type_is (type e) ID_signedbv).
    + builds.
    + destruct (type_is (type e) ID_floatbv).
      * apply walk_submits_and_then with (g1 := g); builds.
      * apply walk_submits_ret.
Qed.

Lemma built_check_rec_arithmetic_op e g :
  walk_submits S st (check_rec_arithmetic_op S e g) g (from_builder S st).
Proof.
  unfold check_rec_arithmetic_op.
  destruct (_ || _).
  - builds.
  - destruct (type_is (type e) ID_floatbv).
    + apply walk_submits_and_then with (g1 := g); builds.
    + destruct (type_is (type e) ID_pointer).
      * builds.
      * apply walk_submits_ret.
Qed.

Lemma built_check_rec_node e g :
  walk_submits S st (check_rec_node S e g) g (from_builder S st).
Proof.
  unfold check_rec_node.
  destruct (is_id e ID_index).
  { apply walk_submits_guarded; builds. }
  destruct (is_id e ID_div).
  { apply walk_submits_guarded, (built_check_rec_div e g). }
  destruct (_ || _).
  { apply walk_submits_guarded.
    apply walk_submits_and_then with (g1 := g).
    - builds.
    - destruct (_ && _); [|apply walk_submits_ret].
      builds. }
  destruct (is_id e ID_mod).
  { apply walk_submits_guarded.
    apply walk_submits_and_then with (g1 := g); builds. }
  destruct (_ || _).
  { apply (built_check_rec_arithmetic_op e g). }
  destruct (is_id e ID_typecast).
  { builds. }
  destruct (_ || _).
  { apply walk_submits_guarded; builds. }
  destruct (is_id e ID_dereference).
  { apply walk_submits_guarded; builds. }
  apply walk_submits_ret.
Qed.

Lemma built_for_operands (rec : exprt -> guardt -> goto_checkt -> walkt) Q ops :
  Forall (fun o => forall g, walk_submits S st (rec o g) g Q) ops ->
  forall g, walk_submits S st (for_operands rec ops g) g Q.
Proof.
  induction 1 as [|o r Ho _ IH]; intros g.
  - apply walk_submits_ret.
  - eapply walk_submits_ext; [intros s; cbn [for_operands]; reflexivity|].
    apply walk_submits_bind with (g1 := g); [apply (Ho g)|]. apply (IH g).
Qed.

Lemma built_logical_op_loop (rec : exprt -> guardt -> goto_checkt -> walkt) Q
  is_or ops :
  Forall (fun o => forall g, walk_submits S st (rec o g) g Q) ops ->
  forall g,
    exists g_out,
      walk_submits S st (logical_op_loop S rec is_or ops g) g_out Q.
Proof.
  induction 1 as [|o r Ho _ IH]; intros g.
  - exists g. apply walk_submits_ret.
  - cbn [logical_op_loop]. destruct (negb (is_boolean o)).
    + exists g. apply walk_submits_err.
    + destruct (IH (guard_add g (if is_or then boolean_negate S o else o)))
        as (g_out & Hout).
      exists g_out.
      apply walk_submits_bind with (g1 := g); [apply (Ho g)|exact Hout].
Qed.

Lemma built_check_rec_logical_op rec Q e ops g :
  Forall (fun o => forall g, walk_submits S st (rec o g) g Q) ops ->
  walk_submits S st (check_rec_logical_op S rec e ops g) g Q.
Proof.
  intros H. unfold check_rec_logical_op.
  destruct (negb (is_boolean e)); [apply walk_submits_err|].
  destruct (built_logical_op_loop rec Q (is_id e ID_or) ops H g)
    as (g_out & Hout).
  apply walk_submits_bind with (g1 := g_out); [exact Hout|].
  apply walk_submits_ret.
Qed.

Lemma built_check_rec_if rec Q c t f g :
  (forall g, walk_submits S st (rec c g) g Q) ->
  (forall g, walk_submits S st (rec t g) g Q) ->
  (forall g, walk_submits S st (rec f g) g Q) ->
  walk_submits S st (check_rec_if rec c t f g) g Q.
Proof.
  intros Hc Ht Hf. unfold check_rec_if.
  destruct (negb (is_boolean c)); [apply walk_submits_err|].
  apply walk_submits_bind with (g1 := g); [apply (Hc g)|]. cbv beta iota.
  apply walk_submits_bind with (g1 := g).
  - apply walk_submits_bind with (g1 := guard_add g c);
      [apply (Ht (guard_add g c))|apply walk_submits_ret].
  - cbv beta iota.
    apply walk_submits_bind with (g1 := guard_add g (not_exprt c));
      [apply (Hf (guard_add g (not_exprt c)))|apply walk_submits_ret].
Qed.

Lemma built_check_rec_member rec member pointer g
  (K : guardt -> goto_checkt -> walkt) :
  (forall g, walk_submits S st (rec pointer g) g (from_builder S st)) ->
  walk_submits S st (K g) g (from_builder S st) ->
  walk_submits S st
    (fun s =>
       do m <- check_rec_member S rec member pointer g s ;
       if fst m then Ok (snd m) else K (fst (snd m)) (snd (snd m)))
    g (from_builder S st).
Proof.
  intros Hp HK. unfold check_rec_member.
  destruct (Hp g) as [(l1 & Q1 & H1)|(x & H1)].
  2:{ right. exists x. intros a n. now rewrite H1. }
  destruct (enable_pointer_check (flags st)) eqn:Ef.
  - destruct (member_offset_expr S member) as [off|] eqn:Eo.
    + destruct (negb (type_is (type pointer) ID_pointer)) eqn:Ep.
      { right. eexists. intros a n. rewrite H1. cbn [bind].
        destruct (submit_list_cache S l1 st a n) as (a' & n' & E).
        rewrite E. cbn. rewrite Ef. cbn. reflexivity. }
      set (d := dereference_exprt _).
      destruct (walk_submits_submit
                  (fun s => pointer_validity_check S d member s) g
                  (fun _ _ => eq_refl)
                  (fun l H => built_pointer_validity S st d member l H))
        as [(l2 & Q2 & H2)|(y & H2)].
      * left. exists (l1 ++ l2). split; [now apply Forall_app|].
        intros a n. rewrite H1. cbn [bind].
        destruct (submit_list_cache S l1 st a n) as (a' & n' & E).
        rewrite E. cbn. rewrite Ef. cbn. try rewrite Eo.
        fold d. specialize (H2 a' n'). cbv beta in H2. rewrite H2. cbn.
        rewrite <- E. now rewrite submit_list_app.
      * right. exists y. intros a n. rewrite H1. cbn [bind].
        destruct (submit_list_cache S l1 st a n) as (a' & n' & E).
        rewrite E. cbn. rewrite Ef. cbn. try rewrite Eo.
        fold d. specialize (H2 a' n'). cbv beta in H2. now rewrite H2.
    + destruct HK as [(l2 & Q2 & H2)|(y & H2)].
      * left. exists (l1 ++ l2). split; [now apply Forall_app|].
        intros a n. rewrite H1. cbn [bind].
        destruct (submit_list_cache S l1 st a n) as (a' & n' & E).
        rewrite E. cbn. rewrite Ef. cbn. try rewrite Eo. cbn.
        rewrite H2, <- E. now rewrite submit_list_app.
      * right. exists y. intros a n. rewrite H1. cbn [bind].
        destruct (submit_list_cache S l1 st a n) as (a' & n' & E).
        rewrite E. cbn. rewrite Ef. cbn. try rewrite Eo. cbn. now rewrite H2.
  - left. exists l1. split; [exact Q1|].
    intros a n. rewrite H1. cbn [bind].
    destruct (submit_list_cache S l1 st a n) as (a' & n' & E).
    rewrite E. cbn. rewrite Ef. cbn. reflexivity.
Qed.

Lemma walker_built_strong e :
  built_on S st e /\ Forall (built_on S st) (operands e).
Proof.
  induction e as [i t n ops IH] using exprt_ind'.
  assert (IHops : Forall (built_on S st) ops).
  { eapply Forall_impl; [|exact IH]. intros o [Ho _]. exact Ho. }
  assert (Hrec : Forall (fun o => forall g,
                           walk_submits S st (check_rec S o g) g
                                        (from_builder S st)) ops).
  { eapply Forall_impl; [|exact IHops]. intros o Ho g. apply Ho. }
  assert (Hadr : Forall (fun o => forall g,
                           walk_submits S st (check_rec_address S o g) g
                                        (from_builder S st)) ops).
  { eapply Forall_impl; [|exact IHops]. intros o Ho g. apply Ho. }
  split; [|exact IHops].
  intros g. split.
  - eapply walk_submits_ext; [intros s; cbn [check_rec]; reflexivity|].
    destruct (_ || _); [apply walk_submits_ret|].
    destruct (i =? ID_address_of)%string.
    { destruct ops as [|o [|? ?]]; try apply walk_submits_err.
      inversion Hadr; subst. auto. }
    destruct (_ || _).
    { now apply built_check_rec_logical_op. }
    destruct (i =? ID_if)%string.
    { destruct ops as [|c [|t0 [|f [|? ?]]]]; try apply walk_submits_err.
      inversion Hrec as [|? ? Hc Hr1]; subst.
      inversion Hr1 as [|? ? Ht Hr2]; subst.
      inversion Hr2 as [|? ? Hf _]; subst.
      now apply built_check_rec_if. }
    assert (HK : walk_submits S st
                   (fun s => do x <- for_operands (check_rec S) ops g s ;
                             check_rec_node S (Expr i t n ops) (fst x) (snd x))
                   g (from_builder S st)).
    { apply walk_submits_bind with (g1 := g);
      [exact (built_for_operands (check_rec S) _ ops Hrec g)|].
      apply (built_check_rec_node (Expr i t n ops) g). }
    destruct (i =? ID_member)%string.
    + destruct ops as [|[di dt dn dops] [|? ?]]; try apply walk_submits_err.
      destruct (di =? ID_dereference)%string.
      * destruct dops as [|pointer [|? ?]]; try apply walk_submits_err.
        inversion IH as [|? ? [_ Hd] _]; subst. cbn [operands] in Hd.
        inversion Hd as [|? ? Hp _]; subst.
        apply built_check_rec_member with
          (K := fun g s => do x <- for_operands (check_rec S) _ g s ;
                           check_rec_node S _ (fst x) (snd x)).
        -- intros g'. apply Hp.
        -- exact HK.
      * exact HK.
    + exact HK.
  - eapply walk_submits_ext; [intros s; cbn [check_rec_address]; reflexivity|].
    destruct (_ || _); [apply walk_submits_ret|].
    destruct (i =? ID_dereference)%string.
    { destruct ops as [|o [|? ?]]; try apply walk_submits_err.
      inversion Hrec; subst. auto. }
    destruct (i =? ID_index)%string.
    { destruct ops as [|a [|ix [|? ?]]]; try apply walk_submits_err.
      inversion Hadr as [|? ? Ha _]; subst.
      inversion Hrec as [|? ? _ Hr1]; subst.
      inversion Hr1 as [|? ? Hi _]; subst.
      apply walk_submits_bind with (g1 := g); [apply (Ha g)|]. apply (Hi g). }
    exact (built_for_operands (check_rec_address S) _ ops Hadr g).
Qed.

Lemma check_rec_built e g :
  walk_submits S st (check_rec S e g) g (from_builder S st).
Proof. apply (proj1 (walker_built_strong e)). Qed.

End WalkSubmits.

Lemma check_built S e st st' :
  check S e st = Ok st' ->
  exists subs,
    Forall (from_builder S st) subs /\ st' = submit_list S subs st.
Proof.
  unfold check. intros H.
  destruct (check_rec_built S st e guard_true) as [(subs & Q & E)|(x & E)];
    specialize (E (assertions st) (new_code st));
    rewrite with_cache_self in E; rewrite E in H; [|discriminate].
  cbn [bind snd] in H. inversion H; subst. eauto.
Qed.

(** ** The guard of every obligation is that of the path to its expression *)

Section GuardPaths.

Variable S : servicest.
Variable st : goto_checkt.

Lemma walk_submits_weaken w g (Q Q' : submissiont -> Prop) :
  (forall ph, Q ph -> Q' ph) ->
  walk_submits S st w g Q -> walk_submits S st w g Q'.
Proof.
  intros HQ [(subs & Hs & H)|(x & H)]; [left; exists subs|right; exists x].
  - split; [|exact H]. eapply Forall_impl; [|exact Hs]. exact HQ.
  - exact H.
Qed.

(** The call of a builder for the expression [e] under the guard [g]. *)
Lemma walk_submits_builder (b : goto_checkt -> result (list propertyt)) e g :
  (forall a n, b (with_cache st a n) = b st) ->
  (forall l, b st = Ok l -> built_for S st e l) ->
  walk_submits S st (fun s => submit S (b s) g s) g (on_path S st false e g).
Proof.
  intros Hb Hl. unfold submit.
  destruct (b st) as [l|x] eqn:E.
  - left. exists (map (fun p => (p, g)) l). split.
    + apply Forall_forall. intros ph Hin. apply in_map_iff in Hin.
      destruct Hin as (p & <- & Hp). exists e, l.
      split; [apply path_here|]. split; [now apply Hl|exact Hp].
    + intros a n. cbv beta. rewrite (Hb a n). cbn [bind].
      now rewrite add_guarded_properties_submit_list.
  - right. exists x. intros a n. cbv beta. now rewrite (Hb a n).
Qed.

(** The call of a builder. *)
Ltac builds_for :=
  apply walk_submits_builder;
  [reflexivity|let l := fresh "l" in let H := fresh "H" in
               intros l H; econstructor; exact H].

Lemma guarded_check_rec_div e g :
  walk_submits S st (check_rec_div S e g) g (on_path S st false e g).
Proof.
  unfold check_rec_div.
  apply walk_submits_and_then with (g1 := g).
  - builds_for.
  - destruct (type_is (type e) ID_signedbv).
    + builds_for.
    + destruct (type_is (type e) ID_floatbv).
      * apply walk_submits_and_then with (g1 := g); builds_for.
      * apply walk_submits_ret.
Qed.

Lemma guarded_check_rec_arithmetic_op e g :
  walk_submits S st (check_rec_arithmetic_op S e g) g
               (on_path S st false e g).
Proof.
  unfold check_rec_arithmetic_op.
  destruct (_ || _).
  - builds_for.
  - destruct (type_is (type e) ID_floatbv).
    + apply walk_submits_and_then with (g1 := g); builds_for.
    + destruct (type_is (type e) ID_pointer).
      * builds_for.
      * apply walk_submits_ret.
Qed.

Lemma guarded_check_rec_node e g :
  walk_submits S st (check_rec_node S e g) g (on_path S st false e g).
Proof.
  unfold check_rec_node.
  destruct (is_id e ID_index).
  { apply walk_submits_guarded; builds_for. }
  destruct (is_id e ID_div).
  { apply walk_submits_guarded, (guarded_check_rec_div e g). }
  destruct (_ || _).
  { apply walk_submits_guarded.
    apply walk_submits_and_then with (g1 := g).
    - builds_for.
    - destruct (_ && _); [|apply walk_submits_ret].
      builds_for. }
  destruct (is_id e ID_mod).
  { apply walk_submits_guarded.
    apply walk_submits_and_then with (g1 := g); builds_for. }
  destruct (_ || _).
  { apply (guarded_check_rec_arithmetic_op e g). }
  destruct (is_id e ID_typecast).
  { builds_for. }
  destruct (_ || _).
  { apply walk_submits_guarded; builds_for. }
  destruct (is_id e ID_dereference).
  { apply walk_submits_guarded; builds_for. }
  apply walk_submits_ret.
Qed.

(** The loop over the operands, each walked under the guard [g]. *)
Lemma guarded_for_operands (rec : exprt -> guardt -> goto_checkt -> walkt)
  Q ops g :
  Forall (fun o => walk_submits S st (rec o g) g Q) ops ->
  walk_submits S st (for_operands rec ops g) g Q.
Proof.
  induction 1 as [|o r Ho _ IH].
  - apply walk_submits_ret.
  - eapply walk_submits_ext; [intros s; cbn [for_operands]; reflexivity|].
    apply walk_submits_bind with (g1 := g); [exact Ho|exact IH].
Qed.

(** The loop of a logical operator: each operand is walked under the guard
    extended by the operands before it. *)
Lemma guarded_logical_op_loop (rec : exprt -> guardt -> goto_checkt -> walkt)
  Q (is_or : bool) (rest : list exprt) :
  forall h : guardt,
    (forall (pre : list exprt) (b : exprt) (post : list exprt),
        rest = pre ++ b :: post ->
        let k :=
          h ++ map (fun o => if is_or then boolean_negate S o else o) pre in
        walk_submits S st (rec b k) k Q) ->
    exists g_out,
      walk_submits S st (logical_op_loop S rec is_or rest h) g_out Q.
Proof.
  induction rest as [|o r IH]; intros h H.
  - exists h. apply walk_submits_ret.
  - cbn [logical_op_loop]. destruct (negb (is_boolean o)).
    + exists h. apply walk_submits_err.
    + destruct (IH (guard_add h (if is_or then boolean_negate S o else o)))
        as (g_out & Hout).
      { intros pre b post ->. cbv zeta. unfold guard_add.
        rewrite <- app_assoc.
        exact (H (o :: pre) b post eq_refl). }
      exists g_out.
      apply walk_submits_bind with (g1 := h); [|exact Hout].
      specialize (H [] o r eq_refl). cbv zeta in H. cbn [map] in H.
      now rewrite app_nil_r in H.
Qed.

Lemma guarded_check_rec_logical_op
  (rec : exprt -> guardt -> goto_checkt -> walkt) Q (e : exprt)
  (ops : list exprt) (g : guardt) :
  (forall (pre : list exprt) (b : exprt) (post : list exprt),
      ops = pre ++ b :: post ->
      let k :=
        g ++ map (fun o => if is_id e ID_or then boolean_negate S o else o)
                 pre in
      walk_submits S st (rec b k) k Q) ->
  walk_submits S st (check_rec_logical_op S rec e ops g) g Q.
Proof.
  intros H. unfold check_rec_logical_op.
  destruct (negb (is_boolean e)); [apply walk_submits_err|].
  destruct (guarded_logical_op_loop rec Q (is_id e ID_or) ops g H)
    as (g_out & Hout).
  apply walk_submits_bind with (g1 := g_out); [exact Hout|].
  apply walk_submits_ret.
Qed.

Lemma guarded_check_rec_if rec Q c t f g :
  walk_submits S st (rec c g) g Q ->
  walk_submits S st (rec t (guard_add g c)) (guard_add g c) Q ->
  walk_submits S st (rec f (guard_add g (not_exprt c)))
               (guard_add g (not_exprt c)) Q ->
  walk_submits S st (check_rec_if rec c t f g) g Q.
Proof.
  intros Hc Ht Hf. unfold check_rec_if.
  destruct (negb (is_boolean c)); [apply walk_submits_err|].
  apply walk_submits_bind with (g1 := g); [exact Hc|]. cbv beta iota.
  apply walk_submits_bind with (g1 := g).
  - apply walk_submits_bind with (g1 := guard_add g c);
      [exact Ht|apply walk_submits_ret].
  - cbv beta iota.
    apply walk_submits_bind with (g1 := guard_add g (not_exprt c));
      [exact Hf|apply walk_submits_ret].
Qed.

Lemma guarded_check_rec_member rec Q member pointer g
  (K : guardt -> goto_checkt -> walkt) :
  walk_submits S st (rec pointer g) g Q ->
  (forall d,
      walk_submits S st
        (fun s => submit S (pointer_validity_check S d member s) g s) g Q) ->
  walk_submits S st (K g) g Q ->
  walk_submits S st
    (fun s =>
       do m <- check_rec_member S rec member pointer g s ;
       if fst m then Ok (snd m) else K (fst (snd m)) (snd (snd m)))
    g Q.
Proof.
  intros Hp Hv HK. unfold check_rec_member.
  destruct Hp as [(l1 & Q1 & H1)|(x & H1)].
  2:{ right. exists x. intros a n. now rewrite H1. }
  destruct (enable_pointer_check (flags st)) eqn:Ef.
  - destruct (member_offset_expr S member) as [off|] eqn:Eo.
    + destruct (negb (type_is (type pointer) ID_pointer)) eqn:Ep.
      { right. eexists. intros a n. rewrite H1. cbn [bind].
        destruct (submit_list_cache S l1 st a n) as (a' & n' & E).
        rewrite E. cbn. rewrite Ef. cbn. reflexivity. }
      set (d := dereference_exprt _).
      destruct (Hv d) as [(l2 & Q2 & H2)|(y & H2)].
      * left. exists (l1 ++ l2). split; [now apply Forall_app|].
        intros a n. rewrite H1. cbn [bind].
        destruct (submit_list_cache S l1 st a n) as (a' & n' & E).
        rewrite E. cbn. rewrite Ef. cbn. try rewrite Eo.
        fold d. specialize (H2 a' n'). cbv beta in H2. rewrite H2. cbn.
        rewrite <- E. now rewrite submit_list_app.
      * right. exists y. intros a n. rewrite H1. cbn [bind].
        destruct (submit_list_cache S l1 st a n) as (a' & n' & E).
        rewrite E. cbn. rewrite Ef. cbn. try rewrite Eo.
        fold d. specialize (H2 a' n'). cbv beta in H2. now rewrite H2.
    + destruct HK as [(l2 & Q2 & H2)|(y & H2)].
      * left. exists (l1 ++ l2). split; [now apply Forall_app|].
        intros a n. rewrite H1. cbn [bind].
        destruct (submit_list_cache S l1 st a n) as (a' & n' & E).
        rewrite E. cbn. rewrite Ef. cbn. try rewrite Eo. cbn.
        rewrite H2, <- E. now rewrite submit_list_app.
      * right. exists y. intros a n. rewrite H1. cbn [bind].
        destruct (submit_list_cache S l1 st a n) as (a' & n' & E).
        rewrite E. cbn. rewrite Ef. cbn. try rewrite Eo. cbn. now rewrite H2.
  - left. exists l1. split; [exact Q1|].
    intros a n. rewrite H1. cbn [bind].
    destruct (submit_list_cache S l1 st a n) as (a' & n' & E).
    rewrite E. cbn. rewrite Ef. cbn. reflexivity.
Qed.

(** A path from an operand is continued to the node. *)
Lemma on_path_step (a a' : bool) o k e g ph :
  (forall e' h, path S a o k e' h -> path S a' e g e' h) ->
  on_path S st a o k ph -> on_path S st a' e g ph.
Proof.
  intros Hstep (e' & l & Hp & Hb & Hin). exists e', l. auto.
Qed.

Lemma walker_guarded_strong e :
  guarded_on S st e /\ Forall (guarded_on S st) (operands e).
Proof.
  induction e as [i t n ops IH] using exprt_ind'.
  assert (IHops : Forall (guarded_on S st) ops).
  { eapply Forall_impl; [|exact IH]. intros o [Ho _]. exact Ho. }
  split; [|exact IHops].
  rewrite Forall_forall in IHops.
  intros g. split.
  - eapply walk_submits_ext; [intros s; cbn [check_rec]; reflexivity|].
    destruct (String.eqb i ID_exists || String.eqb i ID_forall) eqn:Eq;
      [apply walk_submits_ret|].
    destruct (i =? ID_address_of)%string eqn:Ea.
    { apply String.eqb_eq in Ea. subst i.
      destruct ops as [|o [|? ?]]; try apply walk_submits_err.
      eapply walk_submits_weaken; [|apply (IHops o (or_introl eq_refl) g)].
      intros ph. apply on_path_step. intros e' h. apply path_address_of. }
    destruct (String.eqb i ID_and || String.eqb i ID_or) eqn:El.
    { apply guarded_check_rec_logical_op.
      intros pre b post Hops. cbv zeta.
      eapply walk_submits_weaken;
        [|apply (IHops b); rewrite Hops; apply in_elt].
      intros ph. apply on_path_step. intros e' h.
      unfold is_id. cbn [id].
      destruct (String.eqb i ID_or) eqn:Eo.
      - apply String.eqb_eq in Eo. subst i ops. apply path_or.
      - rewrite orb_false_r in El. apply String.eqb_eq in El. subst i ops.
        rewrite map_id. apply path_and. }
    destruct (i =? ID_if)%string eqn:Ei.
    { apply String.eqb_eq in Ei. subst i.
      destruct ops as [|c [|t0 [|f [|? ?]]]]; try apply walk_submits_err.
      apply guarded_check_rec_if.
      - eapply walk_submits_weaken; [|apply (IHops c); cbn; tauto].
        intros ph. apply on_path_step. intros e' h. apply path_if_cond.
      - eapply walk_submits_weaken; [|apply (IHops t0); cbn; tauto].
        intros ph. apply on_path_step. intros e' h. apply path_if_true.
      - eapply walk_submits_weaken; [|apply (IHops f); cbn; tauto].
        intros ph. apply on_path_step. intros e' h. apply path_if_false. }
    assert (Hv : value_operands i = true).
    { unfold value_operands. rewrite orb_false_iff in Eq, El.
      destruct Eq as [-> ->]. destruct El as [-> ->].
      now rewrite Ea, Ei. }
    assert (HK : walk_submits S st
                   (fun s => do x <- for_operands (check_rec S) ops g s ;
                             check_rec_node S (Expr i t n ops) (fst x) (snd x))
                   g (on_path S st false (Expr i t n ops) g)).
    { apply walk_submits_bind with (g1 := g).
      - apply guarded_for_operands. apply Forall_forall. intros o Ho.
        eapply walk_submits_weaken; [|apply (IHops o Ho g)].
        intros ph. apply on_path_step. intros e' h.
        now apply path_operand.
      - apply (guarded_check_rec_node (Expr i t n ops) g). }
    destruct (i =? ID_member)%string.
    + destruct ops as [|[di dt dn dops] [|? ?]]; try apply walk_submits_err.
      destruct (di =? ID_dereference)%string eqn:Ed.
      * destruct dops as [|pointer [|? ?]]; try apply walk_submits_err.
        inversion IH as [|? ? [_ Hd] _]; subst. cbn [operands] in Hd.
        inversion Hd as [|? ? Hp _]; subst.
        apply guarded_check_rec_member with
          (K := fun g s => do x <- for_operands (check_rec S) _ g s ;
                           check_rec_node S _ (fst x) (snd x)).
        -- eapply walk_submits_weaken; [|apply (Hp g)].
           intros ph. apply on_path_step. intros e' h Hpath.
           apply path_operand with (o := Expr di dt dn [pointer]);
             [exact Hv|now left|].
           apply String.eqb_eq in Ed. subst di.
           apply path_operand with (o := pointer);
             [reflexivity|now left|exact Hpath].
        -- intros d. apply walk_submits_builder; [reflexivity|].
           intros l H. eapply built_for_pointer_validity. exact H.
        -- exact HK.
      * exact HK.
    + exact HK.
  - eapply walk_submits_ext; [intros s; cbn [check_rec_address]; reflexivity|].
    destruct (String.eqb i ID_exists || String.eqb i ID_forall) eqn:Eq;
      [apply walk_submits_ret|].
    destruct (i =? ID_dereference)%string eqn:Ed.
    { apply String.eqb_eq in Ed. subst i.
      destruct ops as [|o [|? ?]]; try apply walk_submits_err.
      eapply walk_submits_weaken; [|apply (IHops o (or_introl eq_refl) g)].
      intros ph. apply on_path_step. intros e' h. apply path_dereferenced. }
    destruct (i =? ID_index)%string eqn:Ei.
    { apply String.eqb_eq in Ei. subst i.
      destruct ops as [|a [|ix [|? ?]]]; try apply walk_submits_err.
      apply walk_submits_bind with (g1 := g).
      - eapply walk_submits_weaken;
          [|exact (proj2 (IHops a (or_introl eq_refl) g))].
        intros ph. apply on_path_step. intros e' h. apply path_index_array.
      - eapply walk_submits_weaken;
          [|exact (proj1 (IHops ix (or_intror (or_introl eq_refl)) g))].
        intros ph. apply on_path_step. intros e' h. apply path_index_value. }
    assert (Hv : address_operands i = true).
    { unfold address_operands. rewrite orb_false_iff in Eq.
      destruct Eq as [-> ->]. now rewrite Ed, Ei. }
    apply guarded_for_operands. apply Forall_forall. intros o Ho.
    eapply walk_submits_weaken; [|apply (IHops o Ho g)].
    intros ph. apply on_path_step. intros e' h. now apply path_address_operand.
Qed.

Lemma check_rec_guarded e g :
  walk_submits S st (check_rec S e g) g (on_path S st false e g).
Proof. apply (proj1 (walker_guarded_strong e)). Qed.

Lemma submit_list_flags subs s : flags (submit_list S subs s) = flags s.
Proof.
  revert s. induction subs as [|[p h] r IH]; intros s; [reflexivity|].
  unfold submit_list in *. cbn [fold_left fst snd]. rewrite IH.
  apply add_guarded_property_flags.
Qed.

(** Every instruction the submissions emit carries the obligation of one of
    them, simplified, under the guard of that submission. *)
Lemma submit_list_conditions subs : forall s,
  flags s = flags st ->
  exists emitted,
    new_code (submit_list S subs s) = new_code s ++ emitted /\
    Forall (fun t => exists ph,
                In ph subs /\
                condition t = guarded (snd ph) (simplified S st (fst ph)))
           emitted.
Proof.
  induction subs as [|[p h] r IH]; intros s Hf.
  - exists []. now rewrite app_nil_r.
  - unfold submit_list in *. cbn [fold_left fst snd].
    destruct (IH (add_guarded_property S p h s)) as (em & Hem & Hok).
    { now rewrite add_guarded_property_flags. }
    assert (Hs : simplified S s p = simplified S st p)
      by (unfold simplified; now rewrite Hf).
    assert (Hem' : Forall (fun t => exists ph,
                             In ph ((p, h) :: r) /\
                             condition t =
                               guarded (snd ph) (simplified S st (fst ph)))
                          em).
    { eapply Forall_impl; [|exact Hok]. intros t (ph & Hin & Hc).
      exists ph. split; [now right|exact Hc]. }
    destruct (add_guarded_property_cases S p h s)
      as [[_ H]|[(_ & _ & H)|(_ & _ & i & Hi & H)]]; rewrite H in *.
    + exists em. auto.
    + exists em. auto.
    + exists (i :: em). split.
      * rewrite Hem. cbn. now rewrite <- app_assoc.
      * constructor; [|exact Hem'].
        exists (p, h). split; [now left|]. cbn [fst snd]. now rewrite <- Hs.
Qed.

End GuardPaths.

(** C1 (amended).  Guard correctness of the walker in value mode.  When
    [check_rec] returns on [e] under the guard [g], the guard is restored,
    and the walker has submitted a list of obligations such that: every
    submission is an obligation that a builder produced for a
    sub-expression of [e], under the guard of the evaluation path to that
    sub-expression, which is [g] with exactly the conditions of the path
    conjoined (the condition of an [if] for its true case, the negated
    condition for its false case, the operands that precede for a
    conjunction, their Boolean negations for a disjunction, nothing on the
    way through an address); and every instruction emitted asserts the
    obligation of one of the submissions, simplified when simplification
    is on: the obligation itself under the true guard, and the implication
    from the conjunction of the guard otherwise. *)
Theorem check_rec_guard_correctness (S : servicest) (e : exprt) (g : guardt)
  (st : goto_checkt) (g' : guardt) (st' : goto_checkt) :
  check_rec S e g st = Ok (g', st') ->
  g' = g /\
  exists subs,
    st' = submit_list S subs st /\
    Forall (on_path S st false e g) subs /\
    exists emitted,
      new_code st' = new_code st ++ emitted /\
      Forall (fun t =>
                exists p h,
                  In (p, h) subs /\
                  condition t =
                    (if guard_is_true h then simplified S st p
                     else implies_exprt (guard_as_expr h)
                                        (simplified S st p)))
             emitted.
Proof.
  intros H.
  destruct (check_rec_guarded S st e g) as [(subs & Q & E)|(x & E)];
    specialize (E (assertions st) (new_code st));
    rewrite with_cache_self in E; rewrite E in H; [|discriminate].
  inversion H; subst g' st'. split; [reflexivity|].
  exists subs. split; [reflexivity|]. split; [exact Q|].
  destruct (submit_list_conditions S st subs st eq_refl) as (em & Hem & Hok).
  exists em. split; [exact Hem|].
  eapply Forall_impl; [|exact Hok].
  intros t ([p h] & Hin & Hc). exists p, h. split; [exact Hin|exact Hc].
Qed.

Lemma check_rec_guard_correctness_witness :
  check_rec plain_services if_c_div guard_true (example_state div_checks) =
    Ok (guard_true, if_c_div_walked) /\
  map condition (new_code if_c_div_walked) = [implies_exprt sym_c y_not_zero] /\
  path plain_services false if_c_div guard_true div_x_y [sym_c] /\
  exists subs,
    if_c_div_walked =
      submit_list plain_services subs (example_state div_checks) /\
    Forall (on_path plain_services (example_state div_checks) false
                    if_c_div guard_true) subs /\
    exists emitted,
      new_code if_c_div_walked =
        new_code (example_state div_checks) ++ emitted /\
      Forall (fun t =>
                exists p h,
                  In (p, h) subs /\
                  condition t =
                    (if guard_is_true h
                     then simplified plain_services
                            (example_state div_checks) p
                     else implies_exprt (guard_as_expr h)
                            (simplified plain_services
                               (example_state div_checks) p)))
             emitted.
Proof.
  assert (H : check_rec plain_services if_c_div guard_true
                        (example_state div_checks) =
              Ok (guard_true, if_c_div_walked))
    by (vm_compute; reflexivity).
  split; [exact H|].
  split; [vm_compute; reflexivity|].
  split; [apply path_if_true, path_here|].
  exact (proj2 (check_rec_guard_correctness _ _ _ _ _ _ H)).
Defined.


(** ** The property class of an obligation and the option that enables it *)

(** Case analysis on the tests a builder makes. *)
Ltac crack :=
  repeat match goal with
  | H : context [if negb ?c then _ else _] |- _ =>
      let E := fresh "E" in destruct c eqn:E; cbn [negb andb orb] in H
  | H : context [if ?c then _ else _] |- _ =>
      let E := fresh "E" in destruct c eqn:E
  | H : context [bind ?m _] |- _ =>
      let E := fresh "E" in destruct m eqn:E; cbn [bind] in H
  | H : context [match ?x with _ => _ end] |- _ =>
      let E := fresh "E" in destruct x eqn:E
  | H : Err _ = Ok _ |- _ => discriminate H
  | H : Ok _ = Ok _ |- _ => inversion H; clear H; subst
  end.

Ltac class_ok :=
  unfold property_enabled, class_enabled;
  cbn [property_class property true_guard_property String.eqb Ascii.eqb
       Bool.eqb];
  repeat match goal with
  | E : _ = true |- _ => rewrite E
  end;
  cbn [orb]; rewrite ?orb_true_r; reflexivity.

Section ClassFacts.

Variable S : servicest.
Variable st : goto_checkt.


Lemma div_by_zero_check_class e l :
  div_by_zero_check S e st = Ok l -> Forall (property_enabled (flags st)) l.
Proof.
  unfold div_by_zero_check. intros H. crack; repeat constructor; class_ok.
Qed.

Lemma undefined_shift_check_class e l :
  undefined_shift_check S e st = Ok l -> Forall (property_enabled (flags st)) l.
Proof.
  unfold undefined_shift_check. intros H. crack;
    repeat (apply Forall_app; split); repeat constructor; class_ok.
Qed.

Lemma mod_by_zero_check_class e l :
  mod_by_zero_check S e st = Ok l -> Forall (property_enabled (flags st)) l.
Proof.
  unfold mod_by_zero_check. intros H.
  destruct (enable_div_by_zero_check (flags st)) eqn:E; cbn [negb orb] in H.
  - crack; repeat constructor; class_ok.
  - inversion H. constructor.
Qed.

Lemma mod_overflow_check_class e l :
  mod_overflow_check S e st = Ok l -> Forall (property_enabled (flags st)) l.
Proof.
  unfold mod_overflow_check. intros H. crack; repeat constructor; class_ok.
Qed.

Lemma conversion_check_class e l :
  conversion_check S e st = Ok l -> Forall (property_enabled (flags st)) l.
Proof.
  unfold conversion_check. intros H.
  destruct (enable_conversion_check (flags st)) eqn:E; cbn [negb] in H;
    [|inversion H; constructor].
  crack; repeat constructor; class_ok.
Qed.

Lemma property_enabled_map {A : Type} (f : A -> propertyt) (l : list A) :
  (forall x, property_enabled (flags st) (f x)) -> Forall (property_enabled (flags st)) (map f l).
Proof. intros H. apply Forall_forall. intros p (x & <- & _)%in_map_iff. apply H. Qed.

Lemma integer_overflow_check_class e l :
  integer_overflow_check S e st = Ok l -> Forall (property_enabled (flags st)) l.
Proof.
  unfold integer_overflow_check. intros H.
  destruct (enable_signed_overflow_check (flags st)) eqn:Es,
    (enable_unsigned_overflow_check (flags st)) eqn:Eu;
    cbn [negb andb] in H; rewrite ?andb_false_r, ?andb_true_r in H;
    try (inversion H; constructor);
    crack; try apply property_enabled_map; repeat constructor; intros; class_ok.
Qed.

Lemma float_overflow_binary_class e l :
  enable_float_overflow_check (flags st) = true ->
  float_overflow_binary S e = Ok l -> Forall (property_enabled (flags st)) l.
Proof.
  unfold float_overflow_binary. intros Hf H. crack; repeat constructor; class_ok.
Qed.

Lemma float_overflow_check_class e l :
  float_overflow_check S e st = Ok l -> Forall (property_enabled (flags st)) l.
Proof.
  unfold float_overflow_check. intros H.
  destruct (enable_float_overflow_check (flags st)) eqn:Ef; cbn [negb] in H;
    [|inversion H; constructor].
  destruct (negb (type_is (type e) ID_floatbv)); [inversion H; constructor|].
  destruct (is_id e ID_typecast).
  { crack; repeat constructor; class_ok. }
  destruct (is_id e ID_div).
  { crack; repeat constructor; class_ok. }
  destruct (is_id e ID_mod); [inversion H; constructor|].
  destruct (is_id e ID_unary_minus); [inversion H; constructor|].
  destruct (_ || _); [|inversion H; constructor].
  destruct (_ =? 2)%nat; [eapply float_overflow_binary_class; eassumption|].
  destruct (3 <=? _)%nat; [|inversion H; constructor].
  destruct (is_id e ID_minus); [discriminate|].
  eapply float_overflow_binary_class; eassumption.
Qed.

Lemma nan_check_binary_class e l :
  enable_nan_check (flags st) = true ->
  nan_check_binary S e = Ok l -> Forall (property_enabled (flags st)) l.
Proof.
  unfold nan_check_binary. intros Hf H.
  match type of H with
  | bind ?m _ = _ => destruct m; cbn [bind] in H; [|discriminate]
  end.
  inversion H. repeat constructor. class_ok.
Qed.

Lemma nan_check_class e l :
  nan_check S e st = Ok l -> Forall (property_enabled (flags st)) l.
Proof.
  unfold nan_check. intros H.
  destruct (enable_nan_check (flags st)) eqn:Ef; cbn [negb] in H;
    [|inversion H; constructor].
  destruct (negb (type_is (type e) ID_floatbv)); [inversion H; constructor|].
  destruct (_ && _); [inversion H; constructor|].
  destruct (_ && _); eapply nan_check_binary_class; eassumption.
Qed.

Lemma pointer_rel_check_class e l :
  pointer_rel_check S e st = Ok l -> Forall (property_enabled (flags st)) l.
Proof.
  unfold pointer_rel_check. intros H. crack; repeat constructor; class_ok.
Qed.

Lemma pointer_overflow_check_class e l :
  pointer_overflow_check S e st = Ok l -> Forall (property_enabled (flags st)) l.
Proof.
  unfold pointer_overflow_check. intros H.
  destruct (enable_pointer_overflow_check (flags st)) eqn:Ef; cbn [negb] in H;
    [|inversion H; constructor].
  crack; repeat constructor; class_ok.
Qed.

Lemma pointer_validity_check_class e src l :
  pointer_validity_check S e src st = Ok l -> Forall (property_enabled (flags st)) l.
Proof.
  unfold pointer_validity_check. intros H.
  destruct (enable_pointer_check (flags st)) eqn:Ef; cbn [negb] in H;
    [|inversion H; constructor].
  destruct (to_unary_expr e); cbn [bind] in H; [|discriminate].
  destruct (size_of_expr S (type e)); [|discriminate].
  destruct (address_check S _ _ st); cbn [bind] in H; [|discriminate].
  inversion H. apply property_enabled_map. intros c. class_ok.
Qed.

Lemma bounds_check_class e l :
  bounds_check S e st = Ok l -> Forall (property_enabled (flags st)) l.
Proof.
  unfold bounds_check. intros H.
  destruct (enable_bounds_check (flags st)) eqn:Ef; cbn [negb] in H;
    [|inversion H; constructor].
  match type of H with
  | (if ?c then _ else _) = _ => destruct c; [inversion H; constructor|]
  end.
  destruct (to_binary_expr e) as [[array index]|]; cbn [bind] in H;
    [|discriminate].
  destruct (type_is (type array) ID_pointer); [discriminate|].
  destruct (negb _ && negb _); [discriminate|].
  match type of H with
  | bind ?m _ = _ =>
      destruct m as [lower|] eqn:EL; cbn [bind] in H; [|discriminate]
  end.
  match type of H with
  | bind ?m _ = _ =>
      destruct m as [[dynamic_upper type_matches_size]|] eqn:ED;
        cbn [bind] in H; [|discriminate]
  end.
  match type of H with
  | bind ?m _ = _ =>
      destruct m as [upper|] eqn:EU; cbn [bind] in H; [|discriminate]
  end.
  inversion H; subst l; clear H.
  apply Forall_app; split; [|apply Forall_app; split].
  - clear ED EU. crack; repeat constructor; class_ok.
  - clear EL EU. crack; repeat constructor; class_ok.
  - clear EL ED. crack; repeat constructor; class_ok.
Qed.

Lemma built_class l :
  built S st l -> Forall (property_enabled (flags st)) l.
Proof.
  intros [e l' H|e l' H|e l' H|e l' H|e l' H|e l' H|e l' H|e l' H|e l' H
         |e l' H|e l' H|e src l' H].
  - eapply bounds_check_class, H.
  - eapply div_by_zero_check_class, H.
  - eapply integer_overflow_check_class, H.
  - eapply nan_check_class, H.
  - eapply float_overflow_check_class, H.
  - eapply undefined_shift_check_class, H.
  - eapply mod_by_zero_check_class, H.
  - eapply mod_overflow_check_class, H.
  - eapply pointer_overflow_check_class, H.
  - eapply conversion_check_class, H.
  - eapply pointer_rel_check_class, H.
  - eapply pointer_validity_check_class, H.
Qed.

End ClassFacts.

(** ** The instruction driver *)

Section DriverEmits.

Variable S : servicest.

Lemma emits_only_refl ok s : emits_only ok s s.
Proof.
  exists (assertions s), []. rewrite app_nil_r, with_cache_self. auto.
Qed.

Lemma emits_only_trans ok s1 s2 s3 :
  emits_only ok s1 s2 -> emits_only ok s2 s3 -> emits_only ok s1 s3.
Proof.
  intros (a1 & l1 & -> & H1) (a2 & l2 & -> & H2).
  exists a2, (l1 ++ l2). split; [|now apply Forall_app].
  cbn [new_code with_cache set_new_code set_assertions].
  now rewrite app_assoc.
Qed.

Lemma emits_only_weaken (ok ok' : instructiont -> Prop) s s' :
  (forall t, ok t -> ok' t) -> emits_only ok s s' -> emits_only ok' s s'.
Proof.
  intros H (a & l & E & Hl). exists a, l. split; [exact E|].
  eapply Forall_impl; eassumption.
Qed.

Lemma emits_only_flags ok s s' : emits_only ok s s' -> flags s' = flags s.
Proof. now intros (a & l & -> & _). Qed.

Lemma emits_only_mode ok s s' : emits_only ok s s' -> mode s' = mode s.
Proof. now intros (a & l & -> & _). Qed.

Lemma emits_only_cache ok s a :
  emits_only ok s (set_assertions s a).
Proof. exists a, []. rewrite app_nil_r. split; [reflexivity|constructor]. Qed.

Lemma submit_list_walker subs st :
  Forall (from_builder S st) subs ->
  emits_only (walker_instruction (flags st)) st (submit_list S subs st).
Proof.
  intros Hb.
  destruct (submit_list_emits S subs st) as (emitted & E & K & C & _).
  exists (assertions st ++ map condition emitted), emitted.
  split; [exact E|].
  apply Forall_forall. intros t Ht. split.
  - rewrite Forall_forall in K. now apply K.
  - rewrite Forall_forall in C. destruct (C t Ht) as (ph & Hin & ->).
    rewrite Forall_forall in Hb. destruct (Hb ph Hin) as (l & Hl & Hp).
    apply built_class in Hl. rewrite Forall_forall in Hl. now apply Hl.
Qed.

Lemma check_emits e st st' :
  check S e st = Ok st' ->
  emits_only (walker_instruction (flags st)) st st'.
Proof.
  intros H. apply check_built in H. destruct H as (subs & Hb & ->).
  now apply submit_list_walker.
Qed.

Lemma check_all_emits l : forall st st',
  check_all S l st = Ok st' ->
  emits_only (walker_instruction (flags st)) st st'.
Proof.
  induction l as [|e r IH]; cbn [check_all]; intros st st' H.
  - inversion H. apply emits_only_refl.
  - destruct (check S e st) as [s|] eqn:E; [|discriminate]. cbn [bind] in H.
    apply check_emits in E. apply IH in H.
    rewrite (emits_only_flags _ _ _ E) in H.
    eapply emits_only_trans; eassumption.
Qed.

Lemma add_guarded_property_emits_only p h st :
  emits_only (fun t => obligation_instruction (flags st) t /\
                       loc_property_class (source_location t) =
                         property_class p)
             st (add_guarded_property S p h st).
Proof.
  destruct (add_guarded_property_emits S p h st) as (emitted & E & K & C & _).
  exists (assertions st ++ map condition emitted), emitted.
  split; [exact E|].
  apply Forall_forall. intros t Ht. rewrite Forall_forall in K, C. auto.
Qed.

Lemma error_label_checks_emits i st :
  emits_only (fun t => itype t = (if enable_assert_to_assume (flags st)
                                  then ASSUME else ASSERT) /\
                       loc_property_class (source_location t) = "error label")
             st (error_label_checks i st).
Proof.
  unfold error_label_checks.
  set (f := fun (st : goto_checkt) (label : string) => _).
  assert (Hstep : forall s x,
             emits_only (fun t => itype t = (if enable_assert_to_assume (flags s)
                                             then ASSUME else ASSERT) /\
                                  loc_property_class (source_location t) =
                                    "error label") s (f s x)).
  { intros s x. unfold f. destruct (existsb _ _); [|apply emits_only_refl].
    eexists (assertions s), [_]. split; [reflexivity|].
    constructor; [|constructor].
    split; [now destruct (enable_assert_to_assume (flags s))|reflexivity]. }
  clearbody f.
  generalize (error_labels st) as labels'. intros labels'. revert st.
  induction labels' as [|x r IH]; intros st; cbn [fold_left].
  - apply emits_only_refl.
  - pose proof (emits_only_flags _ _ _ (Hstep st x)) as Hf.
    specialize (IH (f st x)). rewrite Hf in IH.
    eapply emits_only_trans; [apply Hstep|exact IH].
Qed.

End DriverEmits.

(** X10.  Checking an expression changes the assertion cache and the patch
    buffer only: it appends instructions to the patch buffer and their
    conditions to the cache.  A cache without duplicates stays without
    duplicates, so the conditions emitted are pairwise different and none
    was in the cache before. *)
Theorem check_changes_cache_and_patch_buffer (S : servicest) (e : exprt)
  (st st' : goto_checkt) :
  check S e st = Ok st' ->
  exists emitted,
    st' = with_cache st (assertions st ++ map condition emitted)
                     (new_code st ++ emitted) /\
    (NoDup (assertions st) ->
     NoDup (assertions st ++ map condition emitted)).
Proof.
  intros H. apply check_built in H. destruct H as (subs & _ & ->).
  destruct (submit_list_emits S subs st) as (emitted & E & _ & _ & N).
  eauto.
Qed.

Lemma check_changes_cache_and_patch_buffer_witness :
  check plain_services div_x_y (example_state div_checks) =
    Ok div_x_y_checked /\
  exists emitted,
    div_x_y_checked =
      with_cache (example_state div_checks)
        (assertions (example_state div_checks) ++ map condition emitted)
        (new_code (example_state div_checks) ++ emitted) /\
    (NoDup (assertions (example_state div_checks)) ->
     NoDup (assertions (example_state div_checks) ++ map condition emitted)).
Proof.
  assert (H : check plain_services div_x_y (example_state div_checks) =
              Ok div_x_y_checked) by (vm_compute; reflexivity).
  split; [exact H|].
  exact (check_changes_cache_and_patch_buffer plain_services div_x_y
           (example_state div_checks) div_x_y_checked H).
Defined.

(** X11.  Every instruction that checking an expression appends to the
    patch buffer is an assumption when assert-to-assume is set and an
    assertion otherwise, carries no code, and, unless retain-trivial is
    set, has a condition that is not the constant true. *)
Theorem check_emits_obligation_instructions (S : servicest) (e : exprt)
  (st st' : goto_checkt) :
  check S e st = Ok st' ->
  exists emitted,
    new_code st' = new_code st ++ emitted /\
    Forall (obligation_instruction (flags st)) emitted.
Proof.
  intros H. apply check_emits in H. destruct H as (a & l & -> & Hl).
  exists l. split; [reflexivity|].
  eapply Forall_impl; [|exact Hl]. now intros t [H _].
Qed.

Lemma check_emits_obligation_instructions_witness :
  check plain_services div_x_y (example_state div_checks) =
    Ok div_x_y_checked /\
  exists emitted,
    new_code div_x_y_checked =
      new_code (example_state div_checks) ++ emitted /\
    Forall (obligation_instruction (flags (example_state div_checks)))
           emitted.
Proof.
  assert (H : check plain_services div_x_y (example_state div_checks) =
              Ok div_x_y_checked) by (vm_compute; reflexivity).
  split; [exact H|].
  exact (check_emits_obligation_instructions plain_services div_x_y
           (example_state div_checks) div_x_y_checked H).
Defined.

(** X12.  Checking an expression emits obligations of enabled classes
    only: the property class of every instruction appended to the patch
    buffer is one whose option is on (array bounds with bounds-check,
    pointer dereference and pointer with pointer-check, division-by-zero
    with div-by-zero-check, undefined-shift with undefined-shift-check, NaN
    with nan-check, overflow with one of the five overflow and conversion
    options). *)
Theorem check_emits_enabled_classes (S : servicest) (e : exprt)
  (st st' : goto_checkt) :
  check S e st = Ok st' ->
  exists emitted,
    new_code st' = new_code st ++ emitted /\
    Forall (fun t => class_enabled (flags st)
                       (loc_property_class (source_location t)) = true)
           emitted.
Proof.
  intros H. apply check_emits in H. destruct H as (a & l & -> & Hl).
  exists l. split; [reflexivity|].
  eapply Forall_impl; [|exact Hl]. now intros t [_ H].
Qed.

Lemma check_emits_enabled_classes_witness :
  check plain_services div_x_y (example_state div_checks) =
    Ok div_x_y_checked /\
  exists emitted,
    new_code div_x_y_checked =
      new_code (example_state div_checks) ++ emitted /\
    Forall (fun t => class_enabled (flags (example_state div_checks))
                       (loc_property_class (source_location t)) = true)
           emitted.
Proof.
  assert (H : check plain_services div_x_y (example_state div_checks) =
              Ok div_x_y_checked) by (vm_compute; reflexivity).
  split; [exact H|].
  exact (check_emits_enabled_classes plain_services div_x_y
           (example_state div_checks) div_x_y_checked H).
Defined.

Section DriverDispatch.

Variable S : servicest.

Lemma walker_inserted f i t :
  walker_instruction f t -> inserted_instruction f i t.
Proof.
  intros [(Hk & _) Hc]. right. split; [exact Hk|]. right. now right.
Qed.

Lemma check_inserted e i st st' :
  check S e st = Ok st' ->
  emits_only (inserted_instruction (flags st) i) st st'.
Proof.
  intros H. eapply emits_only_weaken; [|apply (check_emits S e), H].
  intros t. apply walker_inserted.
Qed.

Lemma check_all_inserted l i st st' :
  check_all S l st = Ok st' ->
  emits_only (inserted_instruction (flags st) i) st st'.
Proof.
  intros H. eapply emits_only_weaken; [|apply (check_all_emits S l), H].
  intros t. apply walker_inserted.
Qed.

Lemma invalidate_inserted ok lhs st st' :
  invalidate lhs st = Ok st' -> emits_only ok st st'.
Proof.
  intros H. apply invalidate_Ok in H. destruct H as [a ->].
  apply emits_only_cache.
Qed.

(** The dispatch on the instruction kind: what it appends to the patch
    buffer and what it leaves in the place of the instruction. *)
Lemma dispatch_emits function_identifier i st i' skipped st' :
  goto_check_dispatch S function_identifier i st = Ok (i', skipped, st') ->
  emits_only (inserted_instruction (flags st) i) st st' /\
  kept i i' /\
  (enable_assertions (flags st) = true ->
   enable_built_in_assertions (flags st) = true ->
   enable_assumptions (flags st) = true ->
   itype i' = itype i /\ skipped = false).
Proof.
  intros H.
  unfold goto_check_dispatch, is_kind in H.
  destruct (itype i) eqn:Hk; cbn [instr_kind_eqb] in H.
  all: try (inversion H; subst; split; [apply emits_only_refl|];
            split; [now left|]; intros; now split).
  - (* ASSUME *)
    destruct (enable_assumptions (flags st)) eqn:Ea; cbn [negb] in H;
      inversion H; subst; (split; [apply emits_only_refl|]).
    + split; [now left|]. intros; now split.
    + split; [now right|]. intros; discriminate.
  - (* ASSERT *)
    destruct (enable_assertions (flags st)) eqn:Ea,
      (enable_built_in_assertions (flags st)) eqn:Eb;
      cbn [negb andb orb] in H; rewrite ?andb_false_r, ?orb_false_r in H;
      cbn [negb andb orb] in H.
    all: repeat match type of H with
         | (if ?c then _ else _) = _ => destruct c
         end;
      inversion H; subst; (split; [apply emits_only_refl|]);
      (split; [first [now left|now right]|]); intros; try discriminate;
      now split.
  - (* OTHER *)
    destruct (String.eqb _ ID_expression).
    { destruct (check S (code i) st) as [s|] eqn:E; [|discriminate].
      inversion H; subst. split; [eapply check_inserted, E|].
      split; [now left|]. intros; now split. }
    destruct (String.eqb _ ID_printf).
    { destruct (check_all S (operands (code i)) st) as [s|] eqn:E;
        [|discriminate].
      inversion H; subst. split; [eapply check_all_inserted, E|].
      split; [now left|]. intros; now split. }
    inversion H; subst. split; [apply emits_only_refl|].
    split; [now left|]. intros; now split.
  - (* ASSIGN *)
    destruct (to_binary_expr (code i)) as [[lhs rhs]|]; [|discriminate].
    cbn [bind] in H.
    destruct (check S lhs st) as [s1|] eqn:E1; [|discriminate].
    cbn [bind] in H.
    destruct (check S rhs s1) as [s2|] eqn:E2; [|discriminate].
    cbn [bind] in H.
    destruct (invalidate lhs s2) as [s3|] eqn:E3; [|discriminate].
    cbn [bind] in H.
    destruct (rewrite_rw_ok S rhs s3); [|discriminate]. cbn [bind] in H.
    destruct (code i). inversion H; subst.
    apply (check_inserted _ i) in E1. apply (check_inserted _ i) in E2.
    rewrite (emits_only_flags _ _ _ E1) in E2.
    split.
    + eapply emits_only_trans; [exact E1|].
      eapply emits_only_trans; [exact E2|].
      eapply invalidate_inserted, E3.
    + split; [now left|]. intros; now split.
  - (* DEAD *)
    destruct (enable_pointer_check (flags st)).
    2:{ inversion H; subst. split; [apply emits_only_refl|].
        split; [now left|]. intros; now split. }
    destruct (operands (code i)) as [|variable [|? ?]]; try discriminate.
    destruct (local_bitvector_analysis st) as [analysis|]; [|discriminate].
    destruct (lba_dirty analysis variable); inversion H; subst.
    + split; [|split; [now left|intros; now split]].
      eexists (assertions st), [_]. split; [reflexivity|].
      constructor; [|constructor]. now left.
    + split; [apply emits_only_refl|].
      split; [now left|]. intros; now split.
  - (* FUNCTION_CALL *)
    destruct (to_code_function_call (code i)) as [[[lhs f] args]|];
      [|discriminate].
    cbn [bind] in H.
    match type of H with
    | bind ?m _ = _ =>
        assert (Hthis : forall s1, m = Ok s1 ->
                  emits_only (inserted_instruction (flags st) i) st s1);
          [|destruct m as [s1|]; [|discriminate]]
    end.
    { intros s1.
      destruct (String.eqb (mode st) ID_java); cbn [andb];
        [|intros [= <-]; apply emits_only_refl].
      destruct (enable_pointer_check (flags st)) eqn:Ep; cbn [andb];
        [|intros [= <-]; apply emits_only_refl].
      destruct (_ && _); [|intros [= <-]; apply emits_only_refl].
      destruct (local_bitvector_analysis st); [|discriminate].
      destruct (current_target st); [|discriminate].
      destruct (_ || _); [|intros [= <-]; apply emits_only_refl].
      destruct (negb _); [discriminate|]. intros [= <-].
      eapply emits_only_weaken; [|apply add_guarded_property_emits_only].
      intros t [(Hk' & _) Hc]. right. split; [exact Hk'|]. right. right.
      rewrite Hc. unfold class_enabled. cbn. exact Ep. }
    specialize (Hthis s1 eq_refl). cbn [bind] in H.
    destruct (check_all S (operands (code i)) s1) as [s2|] eqn:E;
      [|discriminate].
    cbn [bind] in H. injection H as <- <- <-.
    apply (check_all_inserted _ i) in E.
    rewrite (emits_only_flags _ _ _ Hthis) in E.
    split; [|split; [now left|intros; now split]].
    eapply emits_only_trans; [exact Hthis|].
    eapply emits_only_trans; [exact E|]. apply emits_only_cache.
  - (* RETURN *)
    destruct (operands (code i)) as [|return_value [|? ?]].
    1,3: injection H as <- <- <-; split; [apply emits_only_refl|];
      split; [now left|]; intros; now split.
    destruct (check S return_value st) as [s1|] eqn:E1; [|discriminate].
    cbn [bind] in H.
    destruct (invalidate return_value s1) as [s2|] eqn:E2; [|discriminate].
    cbn [bind] in H.
    destruct (rewrite_rw_ok S return_value s2); [|discriminate].
    cbn [bind] in H. destruct (code i). injection H as <- <- <-.
    split; [|split; [now left|intros; now split]].
    eapply emits_only_trans; [eapply check_inserted, E1|].
    eapply invalidate_inserted, E2.
  - (* THROW *)
    assert (Hthrow : is_kind i THROW = true)
      by (unfold is_kind; now rewrite Hk).
    match type of H with
    | bind ?m _ = _ =>
        assert (Hnull : forall s1, m = Ok s1 ->
                  emits_only (inserted_instruction (flags st) i) st s1);
          [|destruct m as [s1|]; [|discriminate]]
    end.
    { intros s1.
      destruct (String.eqb _ ID_expression);
        [|intros [= <-]; apply emits_only_refl].
      destruct (operands (code i)) as [|[j ty n [|pointer [|? ?]]] [|? ?]];
        try (intros [= <-]; apply emits_only_refl).
      destruct (negb _); [discriminate|]. intros [= <-].
      eapply emits_only_weaken; [|apply add_guarded_property_emits_only].
      intros t [(Hk' & _) Hc]. right. split; [exact Hk'|]. right. left.
      split; [exact Hthrow|exact Hc]. }
    specialize (Hnull s1 eq_refl). cbn [bind] in H. injection H as <- <- <-.
    split; [|split; [now left|intros; now split]].
    eapply emits_only_trans; [exact Hnull|]. apply emits_only_cache.
  - (* END_FUNCTION *)
    destruct (String.eqb function_identifier (entry_point S)); cbn [andb] in H.
    2:{ injection H as <- <- <-. split; [apply emits_only_refl|].
        split; [now left|]. intros; now split. }
    destruct (enable_memory_leak_check (flags st)) eqn:El.
    2:{ injection H as <- <- <-. split; [apply emits_only_refl|].
        split; [now left|]. intros; now split. }
    destruct (negb _); [discriminate|]. injection H as <- <- <-.
    split; [|split; [now left|intros; now split]].
    eapply emits_only_trans; cycle 1.
    + eapply emits_only_weaken; [|apply add_guarded_property_emits_only].
      intros t [(Hk' & _) Hc]. right. split; [exact Hk'|]. right. right.
      rewrite Hc. unfold class_enabled. cbn. exact El.
    + eexists (assertions st), [_]. split; [reflexivity|].
      constructor; [|constructor]. now left.
Qed.

Lemma apply_pragma_other_flags pragmas f :
  let f' := fold_left apply_pragma pragmas f in
  enable_simplify f' = enable_simplify f /\
  retain_trivial f' = retain_trivial f /\
  enable_assert_to_assume f' = enable_assert_to_assume f /\
  enable_assertions f' = enable_assertions f /\
  enable_built_in_assertions f' = enable_built_in_assertions f /\
  enable_assumptions f' = enable_assumptions f.
Proof.
  revert f. induction pragmas as [|d r IH]; intros f; cbn [fold_left].
  - repeat split.
  - destruct (IH (apply_pragma f d)) as (H1 & H2 & H3 & H4 & H5 & H6).
    cbv zeta. rewrite H1, H2, H3, H4, H5, H6. repeat split.
Qed.

Lemma begin_instruction_eq i st :
  exists a,
    begin_instruction i st =
      set_flags (with_cache (set_current_target st (Some i)) a [])
                (pragma_flags i (flags st)).
Proof.
  unfold begin_instruction, pragma_flags.
  match goal with
  | |- context [if ?c then _ else _] => destruct c
  end; eexists; reflexivity.
Qed.

Lemma backfill_inserted f i from t :
  inserted_instruction f i t -> inserted_instruction f i (backfill from t).
Proof.
  unfold inserted_instruction, backfill.
  destruct (loc_nil (source_location t)); auto.
Qed.

Lemma backfill_location from t :
  loc_nil (source_location (backfill from t)) = false.
Proof.
  unfold backfill. destruct (loc_nil (source_location t)) eqn:E;
    [reflexivity|exact E].
Qed.

Lemma inserted_same_kind f i1 i t :
  itype i1 = itype i ->
  inserted_instruction f i1 t -> inserted_instruction f i t.
Proof.
  unfold inserted_instruction, is_kind. intros ->. auto.
Qed.

(** One iteration of the loop over the instructions. *)
Lemma goto_check_instruction_Ok function_identifier i st out did st' :
  goto_check_instruction S function_identifier i st = Ok (out, did, st') ->
  exists a patch i',
    st' = set_current_target (with_cache st a []) (Some i) /\
    out = patch ++ [i'] /\
    Forall (inserted_instruction (pragma_flags i (flags st)) i) patch /\
    kept i i' /\
    (enable_assertions (flags st) = true ->
     enable_built_in_assertions (flags st) = true ->
     enable_assumptions (flags st) = true ->
     itype i' = itype i /\ did = negb (is_empty patch)) /\
    Forall (fun t => loc_nil (source_location t) = false) patch.
Proof.
  intros H. unfold goto_check_instruction in H.
  destruct (begin_instruction_eq i st) as (a0 & E0).
  set (f' := pragma_flags i (flags st)) in *.
  set (s0 := begin_instruction i st) in *.
  assert (Hf0 : flags s0 = f') by now rewrite E0.
  match type of H with
  | context [bind ?m _] =>
      assert (Hci : forall i1 s1, m = Ok (i1, s1) ->
                itype i1 = itype i /\
                emits_only (inserted_instruction f' i) s0 s1);
        [|destruct m as [[i1 s1]|]; [|discriminate]]
  end.
  { intros i1 s1. destruct (has_condition i).
    - destruct (check S (condition i) s0) as [s|] eqn:E; [|discriminate].
      cbn [bind].
      destruct (rewrite_rw_ok S (condition i) s); [|discriminate].
      cbn [bind]. intros [= <- <-]. split; [reflexivity|].
      apply (check_inserted _ i) in E. now rewrite Hf0 in E.
    - intros [= <- <-]. split; [reflexivity|apply emits_only_refl]. }
  destruct (Hci i1 s1 eq_refl) as (Hk1 & Hem1). clear Hci.
  cbn [bind] in H.
  pose proof (error_label_checks_emits i1 s1) as Hel.
  set (s2 := error_label_checks i1 s1) in *.
  destruct (goto_check_dispatch S function_identifier i1 s2)
    as [[[i2 skipped] s3]|] eqn:Ed; [|discriminate].
  cbn [bind] in H. injection H as <- <- <-.
  apply dispatch_emits in Ed. destruct Ed as (Hem3 & Hkept & Hkeep).
  pose proof (emits_only_flags _ _ _ Hem1) as Hf1.
  pose proof (emits_only_flags _ _ _ Hel) as Hf2.
  rewrite Hf1, Hf0 in Hf2. rewrite Hf1, Hf0 in Hel. rewrite Hf2 in Hem3, Hkeep.
  assert (Hall : emits_only (inserted_instruction f' i) s0 s3).
  { eapply emits_only_trans; [exact Hem1|].
    eapply emits_only_trans.
    - eapply emits_only_weaken; [|exact Hel].
      intros t [Hk Hc]. right. split; [exact Hk|now left].
    - eapply emits_only_weaken; [|exact Hem3].
      intros t. now apply inserted_same_kind. }
  destruct Hall as (a & l & E3 & Hl).
  rewrite E3. subst s0. rewrite E0.
  cbn [new_code with_cache set_new_code set_assertions set_flags
       set_current_target app].
  exists a, (map (backfill (source_location i2)) l), i2.
  split; [reflexivity|]. split; [reflexivity|]. split; [|split; [|split]].
  - apply Forall_forall. intros t (t0 & <- & Ht0)%in_map_iff.
    apply backfill_inserted. rewrite Forall_forall in Hl. now apply Hl.
  - destruct Hkept as [Hkept|Hkept]; [left; congruence|now right].
  - intros Ha Hb Hc.
    destruct (apply_pragma_other_flags (loc_pragmas (source_location i))
                (flags st)) as (_ & _ & _ & Pa & Pb & Pc).
    fold (pragma_flags i (flags st)) in Pa, Pb, Pc. fold f' in Pa, Pb, Pc.
    destruct Hkeep as [Hk2 ->]; [congruence..|].
    split; [congruence|reflexivity].
  - apply Forall_forall. intros t (t0 & <- & Ht0)%in_map_iff.
    apply backfill_location.
Qed.

End DriverDispatch.

Section DriverLoop.

Variable S : servicest.

Lemma goto_check_loop_frame function_identifier body :
  forall st out did st',
    goto_check_loop S function_identifier body st = Ok (out, did, st') ->
    flags st' = flags st /\ error_labels st' = error_labels st /\
    allocations st' = allocations st /\ mode st' = mode st /\
    local_bitvector_analysis st' = local_bitvector_analysis st.
Proof.
  induction body as [|i rest IH]; intros st out did st' H.
  - inversion H. auto.
  - cbn [goto_check_loop] in H.
    destruct (goto_check_instruction S function_identifier i st)
      as [[[out1 did1] st1]|] eqn:E1; [|discriminate].
    cbn [bind] in H.
    destruct (goto_check_loop S function_identifier rest st1)
      as [[[out2 did2] st2]|] eqn:E2; [|discriminate].
    cbn [bind] in H. injection H as <- <- <-.
    apply goto_check_instruction_Ok in E1.
    destruct E1 as (a & patch & i' & -> & _).
    apply IH in E2. exact E2.
Qed.

Lemma pragma_closed_form d proj l :
  In (d, proj) check_pragmas ->
  forall f,
    proj (fold_left apply_pragma l f) =
    proj f && negb (existsb (fun p => String.eqb p d) l).
Proof.
  intros Hin. induction l as [|p r IH]; intros f; cbn [fold_left existsb].
  - now rewrite andb_true_r.
  - rewrite IH, negb_orb, andb_assoc. f_equal.
    unfold check_pragmas in Hin. cbn [In] in Hin.
    repeat (destruct Hin as [[= <- <-]|Hin]; [reflexivity|]).
    contradiction.
Qed.

Lemma invalidate_removes lhs : forall st st',
  invalidate lhs st = Ok st' ->
  exists a,
    st' = set_assertions st a /\ incl a (assertions st) /\
    Forall (fun c => has_subexpr c ID_dereference = false) a.
Proof.
  induction lhs as [i t n ops IH] using exprt_ind'. intros st st' H.
  cbn [invalidate] in H.
  destruct (i =? ID_index)%string.
  { destruct ops as [|a [|ix [|? ?]]]; try discriminate.
    inversion IH; subst. eauto. }
  destruct (i =? ID_member)%string.
  { destruct ops as [|a [|? ?]]; try discriminate.
    inversion IH; subst. eauto. }
  destruct (i =? ID_symbol)%string; injection H as <-.
  - eexists. split; [reflexivity|]. split.
    + intros c Hc. now apply filter_In in Hc.
    + apply Forall_forall. intros c Hc. apply filter_In in Hc.
      destruct Hc as [_ Hc]. apply negb_true_iff, orb_false_iff in Hc. tauto.
  - exists []. split; [reflexivity|]. split; [intros c []|constructor].
Qed.

Lemma invalidate_rooted x lhs st :
  is_id x ID_symbol = true ->
  rooted_at x lhs ->
  invalidate lhs st =
    Ok (set_assertions st
          (filter (fun a => negb (has_symbol a [get_identifier x] ||
                                  has_subexpr a ID_dereference))
                  (assertions st))).
Proof.
  intros Hx. induction 1 as [|a ix t n _ IH|s t n _ IH].
  - destruct x as [i t n ops]. unfold is_id in Hx. cbn [id] in Hx.
    apply String.eqb_eq in Hx. subst i. reflexivity.
  - exact IH.
  - exact IH.
Qed.

Lemma for_operands_unchanged (rec : exprt -> guardt -> goto_checkt -> walkt)
  ops g st :
  Forall (fun o => rec o g st = Ok (g, st)) ops ->
  for_operands rec ops g st = Ok (g, st).
Proof.
  induction 1 as [|o r Ho _ IH]; cbn [for_operands]; [reflexivity|].
  rewrite Ho. exact IH.
Qed.

Lemma check_rec_address_plain e : forall g st,
  no_dereference_or_index e = true ->
  check_rec_address S e g st = Ok (g, st).
Proof.
  induction e as [i t n ops IH] using exprt_ind'. intros g st H.
  cbn [no_dereference_or_index] in H.
  apply andb_true_iff in H. destruct H as [H Hops].
  apply andb_true_iff in H. destruct H as [Hd Hi].
  apply negb_true_iff in Hd. apply negb_true_iff in Hi.
  cbn [check_rec_address]. rewrite Hd, Hi.
  destruct (_ || _); [reflexivity|].
  apply for_operands_unchanged.
  induction IH as [|o r Ho _ IHr]; [constructor|].
  apply andb_true_iff in Hops. destruct Hops as [H1 H2].
  constructor; [now apply Ho|now apply IHr].
Qed.

Lemma collect_allocations_instruction_Ok i st st' :
  collect_allocations_instruction i st = Ok st' ->
  exists l,
    st' = set_allocations st (allocations st ++ l) /\
    Forall well_formed_allocation l.
Proof.
  assert (Hnone : exists l,
             st = set_allocations st (allocations st ++ l) /\
             Forall well_formed_allocation l).
  { exists []. rewrite app_nil_r. destruct st. auto. }
  unfold collect_allocations_instruction.
  destruct (negb (is_kind i FUNCTION_CALL)); [now intros [= <-]|].
  destruct (to_code_function_call (code i)) as [[[lhs f] args]|];
    [|discriminate].
  cbn [bind]. destruct (_ || _); [now intros [= <-]|].
  destruct args as [|a0 [|a1 [|? ?]]]; try discriminate.
  destruct (type_is (type a0) ID_unsignedbv) eqn:E0; [|discriminate].
  destruct (type_is (type a1) ID_unsignedbv) eqn:E1; [|discriminate].
  cbn [negb orb].
  destruct (typet_eqb (type a0) (type a1)) eqn:Et; [|discriminate].
  cbn [negb]. intros [= <-]. exists [(a0, a1)]. split; [reflexivity|].
  constructor; [|constructor]. repeat split; try assumption.
  now apply typet_eqb_eq.
Qed.

Lemma set_allocations_app st l1 l2 :
  set_allocations (set_allocations st (allocations st ++ l1))
                  (allocations (set_allocations st (allocations st ++ l1)) ++ l2) =
  set_allocations st (allocations st ++ l1 ++ l2).
Proof.
  unfold set_allocations. cbn. now rewrite app_assoc.
Qed.

Lemma collect_allocations_body_Ok body : forall st st',
  collect_allocations_body body st = Ok st' ->
  exists l,
    st' = set_allocations st (allocations st ++ l) /\
    Forall well_formed_allocation l.
Proof.
  induction body as [|i rest IH]; cbn [collect_allocations_body];
    intros st st' H.
  - injection H as <-. exists []. rewrite app_nil_r. destruct st. auto.
  - destruct (collect_allocations_instruction i st) as [s1|] eqn:E;
      [|discriminate].
    cbn [bind] in H. apply collect_allocations_instruction_Ok in E.
    destruct E as (l1 & -> & H1). apply IH in H.
    destruct H as (l2 & -> & H2). exists (l1 ++ l2).
    split; [apply set_allocations_app|now apply Forall_app].
Qed.

Lemma collect_allocations_functions_Ok fs : forall st st',
  collect_allocations_functions fs st = Ok st' ->
  exists l,
    st' = set_allocations st (allocations st ++ l) /\
    Forall well_formed_allocation l.
Proof.
  induction fs as [|f rest IH]; cbn [collect_allocations_functions];
    intros st st' H.
  - injection H as <-. exists []. rewrite app_nil_r. destruct st. auto.
  - destruct (collect_allocations_body (snd f) st) as [s1|] eqn:E;
      [|discriminate].
    cbn [bind] in H. apply collect_allocations_body_Ok in E.
    destruct E as (l1 & -> & H1). apply IH in H.
    destruct H as (l2 & -> & H2). exists (l1 ++ l2).
    split; [apply set_allocations_app|now apply Forall_app].
Qed.

Lemma goto_check_each_names fs : forall st r,
  goto_check_each S fs st = Ok r -> map fst (fst r) = map fst fs.
Proof.
  induction fs as [|f rest IH]; cbn [goto_check_each]; intros st r H.
  - now injection H as <-.
  - destruct (goto_check S (fst f) (snd f) st) as [r1|]; [|discriminate].
    cbn [bind] in H.
    destruct (goto_check_each S rest (snd r1)) as [r2|] eqn:E; [|discriminate].
    cbn [bind] in H. injection H as <-. cbn [fst map]. f_equal.
    eapply IH, E.
Qed.

Lemma error_label_checks_closed i st :
  exists l,
    error_label_checks i st = set_new_code st (new_code st ++ l) /\
    length l =
      length (filter (fun label => existsb (String.eqb label) (labels i))
                     (error_labels st)) /\
    Forall (fun t =>
              itype t = (if enable_assert_to_assume (flags st)
                         then ASSUME else ASSERT) /\
              condition t = false_exprt /\
              loc_property_class (source_location t) = "error label" /\
              loc_user_provided (source_location t) = true) l.
Proof.
  unfold error_label_checks.
  generalize (error_labels st) as labels'. intros labels'. revert st.
  induction labels' as [|x r IH]; intros st; cbn [fold_left filter].
  - exists []. rewrite app_nil_r. split; [now destruct st|].
    split; [reflexivity|constructor].
  - destruct (existsb (String.eqb x) (labels i)); [|exact (IH st)].
    match goal with
    | |- context [fold_left _ r ?s1] =>
        destruct (IH s1) as (l & E & Hlen & Hl); rewrite E
    end.
    cbn [new_code set_new_code flags] in *.
    match goal with
    | |- context [(new_code st ++ [?t]) ++ l] => exists (t :: l)
    end.
    split; [destruct st; cbn; now rewrite <- app_assoc|].
    split; [cbn [length]; now rewrite Hlen|].
    constructor; [|exact Hl].
    now destruct (enable_assert_to_assume (flags st)).
Qed.

End DriverLoop.

(** X13.  Taking the address of an expression that contains no
    dereference and no index, such as [&x] or [&s.f], emits nothing and
    cannot fail, whatever the options are. *)
Theorem address_of_plain_object_unchecked (S : servicest) (e : exprt)
  (w : N) (st : goto_checkt) :
  no_dereference_or_index e = true ->
  check S (address_of_exprt e w) st = Ok st.
Proof.
  intros H. unfold check, address_of_exprt. cbn [check_rec].
  change (String.eqb ID_address_of ID_exists) with false.
  change (String.eqb ID_address_of ID_forall) with false.
  change (String.eqb ID_address_of ID_address_of) with true.
  cbn [orb]. now rewrite check_rec_address_plain.
Qed.

Lemma address_of_plain_object_unchecked_witness :
  no_dereference_or_index x_f_g = true /\
  check plain_services (address_of_exprt x_f_g 64)
        (example_state all_checks_on) = Ok (example_state all_checks_on).
Proof.
  split; [reflexivity|].
  exact (address_of_plain_object_unchecked plain_services x_f_g 64
           (example_state all_checks_on) eq_refl).
Defined.

(** X14.  The pass over a function body leaves the options, the error
    labels and the allocation registry of the checker as they were: what
    the pragmas of an instruction switch off is switched on again when the
    instruction has been processed. *)
Theorem goto_check_restores_options (S : servicest)
  (function_identifier : irep_idt) (body goto_program : goto_programt)
  (st st' : goto_checkt) :
  goto_check S function_identifier body st = Ok (goto_program, st') ->
  flags st' = flags st /\ error_labels st' = error_labels st /\
  allocations st' = allocations st.
Proof.
  unfold goto_check. intros H.
  match type of H with
  | bind (goto_check_loop _ _ _ ?s) _ = _ =>
      destruct (goto_check_loop S function_identifier body s)
        as [[[out did] s1]|] eqn:E; [|discriminate]
  end.
  cbn [bind] in H. injection H as _ <-.
  apply goto_check_loop_frame in E.
  destruct E as (Hf & Hl & Ha & _). auto.
Qed.

Lemma goto_check_restores_options_witness :
  goto_check plain_services "f" two_divisions (new_goto_checkt div_checks []) =
    Ok ([assign_z_div_unchecked; y_not_zero_assertion; assign_z_div],
        snd two_divisions_checked) /\
  flags (snd two_divisions_checked) = div_checks.
Proof.
  assert (H : goto_check plain_services "f" two_divisions
                (new_goto_checkt div_checks []) =
              Ok ([assign_z_div_unchecked; y_not_zero_assertion; assign_z_div],
                  snd two_divisions_checked)) by (vm_compute; reflexivity).
  split; [exact H|].
  exact (proj1 (goto_check_restores_options plain_services "f" two_divisions
                  _ (new_goto_checkt div_checks [])
                  (snd two_divisions_checked) H)).
Defined.

(** X15.  Every instruction inserted before an instruction is an
    assignment, or an assertion (an assumption with assert-to-assume) that
    belongs to an error label, to the pointer-dereference class when the
    instruction is a throw, or to a class whose option is on once the
    pragmas of the instruction are applied. *)
Theorem inserted_instructions_by_class (S : servicest)
  (function_identifier : irep_idt) (i : instructiont) (st : goto_checkt)
  (out : goto_programt) (did : bool) (st' : goto_checkt) :
  goto_check_instruction S function_identifier i st = Ok (out, did, st') ->
  exists patch i',
    out = patch ++ [i'] /\
    Forall (inserted_instruction (pragma_flags i (flags st)) i) patch.
Proof.
  intros H. apply goto_check_instruction_Ok in H.
  destruct H as (a & patch & i' & _ & -> & Hp & _). eauto.
Qed.

Lemma inserted_instructions_by_class_witness :
  goto_check_instruction plain_services "f" assign_z_div
    (example_state div_checks) =
    Ok ([y_not_zero_assertion; assign_z_div], true, after_assign_z_div) /\
  exists patch i',
    [y_not_zero_assertion; assign_z_div] = patch ++ [i'] /\
    Forall (inserted_instruction
              (pragma_flags assign_z_div (flags (example_state div_checks)))
              assign_z_div) patch.
Proof.
  assert (H : goto_check_instruction plain_services "f" assign_z_div
                (example_state div_checks) =
              Ok ([y_not_zero_assertion; assign_z_div], true,
                  after_assign_z_div)) by (vm_compute; reflexivity).
  split; [exact H|].
  exact (inserted_instructions_by_class plain_services "f" assign_z_div
           (example_state div_checks) _ true after_assign_z_div H).
Defined.

(** X16.  While an instruction is processed a check is on exactly when it
    was on before and no pragma of the instruction names it; the options
    that are not checks keep their values. *)
Theorem pragmas_switch_checks_off (i : instructiont) (f : check_flagst)
  (d : irep_idt) (proj : check_flagst -> bool) :
  In (d, proj) check_pragmas ->
  proj (pragma_flags i f) =
    proj f &&
    negb (existsb (fun p => String.eqb p d)
                  (loc_pragmas (source_location i))) /\
  enable_simplify (pragma_flags i f) = enable_simplify f /\
  retain_trivial (pragma_flags i f) = retain_trivial f /\
  enable_assert_to_assume (pragma_flags i f) = enable_assert_to_assume f /\
  enable_assertions (pragma_flags i f) = enable_assertions f /\
  enable_built_in_assertions (pragma_flags i f) =
    enable_built_in_assertions f /\
  enable_assumptions (pragma_flags i f) = enable_assumptions f.
Proof.
  intros H. split.
  - now apply pragma_closed_form.
  - apply apply_pragma_other_flags.
Qed.

Lemma pragmas_switch_checks_off_witness :
  In ("disable:div-by-zero-check"%string, enable_div_by_zero_check)
     check_pragmas /\
  enable_div_by_zero_check (pragma_flags assign_z_div_unchecked div_checks) =
    false /\
  enable_assumptions (pragma_flags assign_z_div_unchecked div_checks) = true.
Proof.
  assert (H : In ("disable:div-by-zero-check"%string, enable_div_by_zero_check)
                 check_pragmas) by (cbn; tauto).
  split; [exact H|].
  destruct (pragmas_switch_checks_off assign_z_div_unchecked div_checks
              _ _ H) as (H1 & _ & _ & _ & _ & _ & H7).
  split; [exact H1|exact H7].
Defined.

(** X17.  With user assertions, built-in assertions and assumptions kept,
    the instruction that is processed keeps its kind, and something is
    reported as done exactly when an instruction is inserted before it. *)
Theorem default_options_keep_instruction_kinds (S : servicest)
  (function_identifier : irep_idt) (i : instructiont) (st : goto_checkt)
  (out : goto_programt) (did : bool) (st' : goto_checkt) :
  enable_assertions (flags st) = true ->
  enable_built_in_assertions (flags st) = true ->
  enable_assumptions (flags st) = true ->
  goto_check_instruction S function_identifier i st = Ok (out, did, st') ->
  exists patch i',
    out = patch ++ [i'] /\ itype i' = itype i /\
    did = negb (is_empty patch).
Proof.
  intros Ha Hb Hc H. apply goto_check_instruction_Ok in H.
  destruct H as (a & patch & i' & _ & -> & _ & _ & Hk & _).
  destruct (Hk Ha Hb Hc) as [H1 H2]. eauto.
Qed.

Lemma default_options_keep_instruction_kinds_witness :
  goto_check_instruction plain_services "f" assign_z_div
    (example_state div_checks) =
    Ok ([y_not_zero_assertion; assign_z_div], true, after_assign_z_div) /\
  exists patch i',
    [y_not_zero_assertion; assign_z_div] = patch ++ [i'] /\
    itype i' = itype assign_z_div /\ true = negb (is_empty patch).
Proof.
  assert (H : goto_check_instruction plain_services "f" assign_z_div
                (example_state div_checks) =
              Ok ([y_not_zero_assertion; assign_z_div], true,
                  after_assign_z_div)) by (vm_compute; reflexivity).
  split; [exact H|].
  exact (default_options_keep_instruction_kinds plain_services "f"
           assign_z_div (example_state div_checks) _ true after_assign_z_div
           eq_refl eq_refl eq_refl H).
Defined.

(** X18.  Invalidation on any left-hand side changes the assertion cache
    only, never adds an entry to it, and leaves no entry that contains a
    dereference. *)
Theorem invalidate_drops_dereferences (lhs : exprt) (st st' : goto_checkt) :
  invalidate lhs st = Ok st' ->
  exists a,
    st' = set_assertions st a /\ incl a (assertions st) /\
    Forall (fun c => has_subexpr c ID_dereference = false) a.
Proof. apply invalidate_removes. Qed.

Lemma invalidate_drops_dereferences_witness :
  invalidate sym_y after_assign_z_div =
    Ok (set_assertions after_assign_z_div []) /\
  exists a,
    set_assertions after_assign_z_div [] =
      set_assertions after_assign_z_div a /\
    incl a (assertions after_assign_z_div) /\
    Forall (fun c => has_subexpr c ID_dereference = false) a.
Proof.
  assert (H : invalidate sym_y after_assign_z_div =
              Ok (set_assertions after_assign_z_div []))
    by (vm_compute; reflexivity).
  split; [exact H|].
  exact (invalidate_drops_dereferences sym_y after_assign_z_div _ H).
Defined.

(** X19.  A write through index and member accesses invalidates like a
    write to the symbol underneath: for a left-hand side built from the
    symbol [x] by index and member accesses, invalidation succeeds and
    keeps exactly the cached obligations that mention neither [x] nor a
    dereference. *)
Theorem invalidate_through_index_and_member (x lhs : exprt)
  (st : goto_checkt) :
  is_id x ID_symbol = true ->
  rooted_at x lhs ->
  invalidate lhs st =
    Ok (set_assertions st
          (filter (fun a => negb (has_symbol a [get_identifier x] ||
                                  has_subexpr a ID_dereference))
                  (assertions st))).
Proof. apply invalidate_rooted. Qed.

Lemma invalidate_through_index_and_member_witness :
  is_id sym_x ID_symbol = true /\
  rooted_at sym_x x_f_g /\
  invalidate x_f_g after_assign_z_div =
    Ok (set_assertions after_assign_z_div [y_not_zero]).
Proof.
  assert (R : rooted_at sym_x x_f_g) by (repeat constructor).
  split; [reflexivity|]. split; [exact R|].
  exact (invalidate_through_index_and_member sym_x x_f_g after_assign_z_div
           eq_refl R).
Defined.

(** X20.  Collecting the allocations changes the allocation registry only
    and only appends to it, and every pair it appends consists of two
    unsigned bit-vector expressions of the same type. *)
Theorem collect_allocations_appends_well_formed_pairs
  (goto_functions : goto_functionst) (st st' : goto_checkt) :
  collect_allocations goto_functions st = Ok st' ->
  exists l,
    st' = set_allocations st (allocations st ++ l) /\
    Forall well_formed_allocation l.
Proof.
  unfold collect_allocations.
  destruct (_ && _); [|apply collect_allocations_functions_Ok].
  intros [= <-]. exists []. rewrite app_nil_r. destruct st. auto.
Qed.

Lemma collect_allocations_appends_well_formed_pairs_witness :
  collect_allocations allocating_program (example_state example_checks) =
    Ok (set_allocations (example_state example_checks)
                        [(sym_base, sym_size)]) /\
  exists l,
    set_allocations (example_state example_checks) [(sym_base, sym_size)] =
      set_allocations (example_state example_checks)
        (allocations (example_state example_checks) ++ l) /\
    Forall well_formed_allocation l.
Proof.
  assert (H : collect_allocations allocating_program
                (example_state example_checks) =
              Ok (set_allocations (example_state example_checks)
                                  [(sym_base, sym_size)]))
    by (vm_compute; reflexivity).
  split; [exact H|].
  exact (collect_allocations_appends_well_formed_pairs allocating_program
           (example_state example_checks) _ H).
Defined.

(** X21.  The pass over a program returns the functions it was given, by
    name and in order: no function is added, dropped or moved. *)
Theorem goto_check_functions_keeps_function_names (S : servicest)
  (options : check_flagst) (labels : list irep_idt)
  (goto_functions checked_functions : goto_functionst) :
  goto_check_functions S options labels goto_functions =
    Ok checked_functions ->
  map fst checked_functions = map fst goto_functions.
Proof.
  unfold goto_check_functions. intros H.
  destruct (collect_allocations goto_functions _) as [st1|]; [|discriminate].
  cbn [bind] in H.
  destruct (goto_check_each S goto_functions st1) as [r|] eqn:E;
    [|discriminate].
  cbn [bind] in H. injection H as <-. eapply goto_check_each_names, E.
Qed.

Lemma goto_check_functions_keeps_function_names_witness :
  goto_check_functions plain_services div_checks []
    [("f"%string, two_divisions); ("g"%string, [assign_z_div])] =
    Ok [("f"%string,
         [assign_z_div_unchecked; y_not_zero_assertion; assign_z_div]);
        ("g"%string, [y_not_zero_assertion; assign_z_div])] /\
  map fst
    [("f"%string,
      [assign_z_div_unchecked; y_not_zero_assertion; assign_z_div]);
     ("g"%string, [y_not_zero_assertion; assign_z_div])] =
  map fst [("f"%string, two_divisions); ("g"%string, [assign_z_div])].
Proof.
  assert (H : goto_check_functions plain_services div_checks []
                [("f"%string, two_divisions); ("g"%string, [assign_z_div])] =
              Ok [("f"%string,
                   [assign_z_div_unchecked; y_not_zero_assertion;
                    assign_z_div]);
                  ("g"%string, [y_not_zero_assertion; assign_z_div])])
    by (vm_compute; reflexivity).
  split; [exact H|].
  exact (goto_check_functions_keeps_function_names plain_services div_checks
           [] _ _ H).
Defined.

(** ** What the obligations of the builders mean *)

Section BuilderMeaning.

Local Open Scope Z_scope.

Variable S : servicest.
Variable st : goto_checkt.
Variable env : irep_idt -> Z.

Lemma value_from_integer z t : bv.value env (from_integer z t) = Some z.
Proof. reflexivity. Qed.

Lemma holds_relation a i b x y :
  bv.value env a = Some x -> bv.value env b = Some y ->
  (i = ID_lt \/ i = ID_gt \/ i = ID_ge \/ i = ID_le \/ i = ID_equal) ->
  holds (bv.atom env) (binary_relation_exprt a i b) =
  if String.eqb i ID_lt then x <? y
  else if String.eqb i ID_gt then y <? x
  else if String.eqb i ID_ge then y <=? x
  else if String.eqb i ID_le then x <=? y
  else x =? y.
Proof.
  intros Ha Hb Hi.
  destruct Hi as [-> |[-> |[-> |[-> | ->]]]];
    cbn; unfold bv.atom; cbn [operands]; rewrite Ha, Hb; reflexivity.
Qed.

Lemma holds_and v a b :
  holds v (and_exprt a b) = holds v a && holds v b.
Proof. cbn. now rewrite andb_true_r. Qed.

Lemma holds_not v a : holds v (not_exprt a) = negb (holds v a).
Proof. reflexivity. Qed.

Lemma type_is_exclusive t :
  type_is t ID_signedbv = true -> type_is t ID_unsignedbv = false.
Proof.
  unfold type_is. intros H. apply String.eqb_eq in H. now rewrite H.
Qed.

Lemma size_t_small z : 0 <= z < 2 ^ 64 -> size_t z = z.
Proof. intros H. unfold size_t. now apply Z.mod_small. Qed.

Lemma pow2_le a b : a <= b -> 2 ^ a <= 2 ^ b.
Proof. intros H. apply Z.pow_le_mono_r; lia. Qed.

Lemma obligations_hold_app l1 l2 :
  obligations_hold env (l1 ++ l2) =
  obligations_hold env l1 && obligations_hold env l2.
Proof. apply forallb_app. Qed.

End BuilderMeaning.

Open Scope Z_scope.

(** X22.  For a typecast between signed and unsigned bit-vector types
    whose widths are sizes of the machine (the target at least one bit
    wide, the source narrower than the largest size) the conversion
    obligations say that the value fits the target type: for a value of
    the source type they hold exactly when it is a value of the target
    type. *)
Theorem conversion_check_meaning (S : servicest) (st : goto_checkt)
  (env : irep_idt -> Z) (op : exprt) (new_type : typet) (v : Z) :
  enable_conversion_check (flags st) = true ->
  is_integer_type new_type = true ->
  is_integer_type (type op) = true ->
  0 < Z.of_N (get_width new_type) < 2 ^ 64 ->
  Z.of_N (get_width (type op)) < 2 ^ 64 - 1 ->
  bv.value env op = Some v ->
  representable (type op) v = true ->
  exists l,
    conversion_check S (typecast_exprt op new_type) st = Ok l /\
    obligations_hold env l = representable new_type v.
Proof.
  intros Hf Hn Ho Hnw' Hw Hv Hr.
  unfold conversion_check. rewrite Hf. cbn [negb].
  change (type (typecast_exprt op new_type)) with new_type.
  change (is_id (typecast_exprt op new_type) ID_typecast) with true.
  change (to_unary_expr (typecast_exprt op new_type)) with (Ok op).
  cbn [bind]. cbv zeta.
  rewrite !(size_t_small (Z.of_N (get_width new_type) - 1)) by lia.
  unfold is_integer_type in Hn, Ho. unfold representable in *.
  set (nw := Z.of_N (get_width new_type)) in *.
  set (ow := Z.of_N (get_width (type op))) in *.
  assert (Hnw : 0 <= nw) by apply N2Z.is_nonneg.
  assert (How : 0 <= ow) by apply N2Z.is_nonneg.
  pose proof (Z.pow_nonneg 2 (ow - 1)) as P1.
  pose proof (Z.pow_nonneg 2 (nw - 1)) as P2.
  pose proof (Z.pow_nonneg 2 ow) as P3.
  pose proof (Z.pow_nonneg 2 nw) as P4.
  assert (Hpos : 0 < ow -> 2 ^ ow = 2 * 2 ^ (ow - 1)).
  { intros H. replace ow with (Z.succ (ow - 1)) at 1 by lia.
    rewrite Z.pow_succ_r; lia. }
  assert (Hposn : 0 < nw -> 2 ^ nw = 2 * 2 ^ (nw - 1)).
  { intros H. replace nw with (Z.succ (nw - 1)) at 1 by lia.
    rewrite Z.pow_succ_r; lia. }
  assert (Hzero : 2 ^ (0 - 1) = 0) by reflexivity.
  destruct (type_is new_type ID_signedbv) eqn:Ens.
  - rewrite (type_is_exclusive _ Ens). cbn [negb andb].
    destruct (type_is (type op) ID_signedbv) eqn:Eos.
    + (* signed -> signed *)
      destruct (nw >=? ow) eqn:Ec.
      * eexists. split; [reflexivity|]. cbn [obligations_hold forallb].
        symmetry. apply andb_true_iff in Hr. destruct Hr as [H1 H2].
        pose proof (pow2_le (ow - 1) (nw - 1)). lia.
      * eexists. split; [reflexivity|].
        cbn [obligations_hold forallb asserted_expr property].
        rewrite holds_and, andb_true_r.
        rewrite (holds_relation env op ID_ge _ v _ Hv (value_from_integer env _ _))
          by tauto.
        rewrite (holds_relation env op ID_le _ v _ Hv (value_from_integer env _ _))
          by tauto.
        reflexivity.
    + (* unsigned -> signed *)
      cbn [orb] in Ho. rewrite Ho.
      rewrite size_t_small by lia.
      apply andb_true_iff in Hr. destruct Hr as [H1 H2].
      destruct (nw >=? ow + 1) eqn:Ec.
      * eexists. split; [reflexivity|]. cbn [obligations_hold forallb].
        symmetry. pose proof (pow2_le ow (nw - 1)). lia.
      * eexists. split; [reflexivity|].
        cbn [obligations_hold forallb asserted_expr property].
        rewrite andb_true_r.
        rewrite (holds_relation env op ID_le _ v _ Hv (value_from_integer env _ _))
          by tauto.
        cbn [String.eqb Ascii.eqb Bool.eqb]. symmetry.
        replace (- 2 ^ (nw - 1) <=? v) with true by lia. reflexivity.
  - cbn [orb] in Hn. rewrite Hn. cbn [negb andb].
    destruct (type_is (type op) ID_signedbv) eqn:Eos.
    + (* signed -> unsigned *)
      apply andb_true_iff in Hr. destruct Hr as [H1 H2].
      destruct (Z.eq_dec ow 0) as [E0|E0].
      { exfalso. rewrite E0 in *. cbn in H1, H2. lia. }
      rewrite size_t_small by lia.
      destruct (nw >=? ow - 1) eqn:Ec.
      * eexists. split; [reflexivity|].
        cbn [obligations_hold forallb asserted_expr property].
        rewrite andb_true_r.
        rewrite (holds_relation env op ID_ge _ v _ Hv (value_from_integer env _ _))
          by tauto.
        cbn [String.eqb Ascii.eqb Bool.eqb].
        pose proof (pow2_le (ow - 1) nw).
        replace (v <=? 2 ^ nw - 1) with true by lia.
        now rewrite andb_true_r.
      * eexists. split; [reflexivity|].
        cbn [obligations_hold forallb asserted_expr property].
        rewrite holds_and, andb_true_r.
        rewrite (holds_relation env op ID_ge _ v _ Hv (value_from_integer env _ _))
          by tauto.
        rewrite (holds_relation env op ID_le _ v _ Hv (value_from_integer env _ _))
          by tauto.
        reflexivity.
    + (* unsigned -> unsigned *)
      cbn [orb] in Ho. rewrite Ho.
      apply andb_true_iff in Hr. destruct Hr as [H1 H2].
      destruct (nw >=? ow) eqn:Ec.
      * eexists. split; [reflexivity|]. cbn [obligations_hold forallb].
        symmetry. pose proof (pow2_le ow nw). lia.
      * eexists. split; [reflexivity|].
        cbn [obligations_hold forallb asserted_expr property].
        rewrite andb_true_r.
        rewrite (holds_relation env op ID_le _ v _ Hv (value_from_integer env _ _))
          by tauto.
        cbn [String.eqb Ascii.eqb Bool.eqb]. symmetry.
        replace (0 <=? v) with true by lia. reflexivity.
Qed.

Lemma conversion_check_meaning_witness :
  enable_conversion_check (flags (example_state all_checks_on)) = true /\
  is_integer_type int8 = true /\
  is_integer_type (type sym_x) = true /\
  0 < Z.of_N (get_width int8) < 2 ^ 64 /\
  Z.of_N (get_width (type sym_x)) < 2 ^ 64 - 1 /\
  bv.value x_is_200 sym_x = Some 200 /\
  representable (type sym_x) 200 = true /\
  exists l,
    conversion_check plain_services (typecast_exprt sym_x int8)
                     (example_state all_checks_on) = Ok l /\
    obligations_hold x_is_200 l = false.
Proof.
  assert (Hw : Z.of_N (get_width (type sym_x)) < 2 ^ 64 - 1)
    by (vm_compute; reflexivity).
  assert (Hn : 0 < Z.of_N (get_width int8) < 2 ^ 64)
    by (split; vm_compute; reflexivity).
  repeat (split; [first [reflexivity|exact Hw|exact Hn]|]).
  exact (conversion_check_meaning plain_services
           (example_state all_checks_on) x_is_200 sym_x int8 200
           eq_refl eq_refl eq_refl Hn Hw eq_refl eq_refl).
Defined.

(** X23.  For a shift of an integer by an integer distance whose type can
    hold the width of the shifted operand, the operand and the distance
    being values of their types, the undefined-shift obligations hold
    exactly when the distance is not negative (asked only of a signed
    distance), the distance is smaller than the width of the shifted
    operand, and, for a left shift of a signed operand, the operand is not
    negative. *)
Theorem undefined_shift_check_meaning (S : servicest) (st : goto_checkt)
  (env : irep_idt -> Z) (e op distance : exprt) (x d : Z) :
  enable_undefined_shift_check (flags st) = true ->
  operands e = [op; distance] ->
  is_integer_type (type op) = true ->
  is_integer_type (type distance) = true ->
  representable (type distance) (Z.of_N (get_width (type op))) = true ->
  bv.value env op = Some x ->
  representable (type op) x = true ->
  bv.value env distance = Some d ->
  representable (type distance) d = true ->
  exists l,
    undefined_shift_check S e st = Ok l /\
    obligations_hold env l =
    (if type_is (type distance) ID_signedbv then 0 <=? d else true) &&
    (d <? Z.of_N (get_width (type op))) &&
    (if type_is (type op) ID_signedbv && is_id e ID_shl then 0 <=? x
     else true).
Proof.
  intros Hf Ho Hi _ _ Hx _ Hd _.
  unfold undefined_shift_check, to_binary_expr. rewrite Hf, Ho.
  cbn [negb bind]. cbv zeta.
  unfold is_integer_type in Hi. rewrite orb_comm in Hi. rewrite Hi.
  eexists. split; [reflexivity|].
  rewrite !obligations_hold_app. rewrite <- andb_assoc. f_equal; [|f_equal].
  - destruct (type_is (type distance) ID_signedbv); [|reflexivity].
    cbn [obligations_hold forallb asserted_expr property].
    rewrite andb_true_r.
    now rewrite (holds_relation env distance ID_ge _ d _ Hd
                   (value_from_integer env _ _)) by tauto.
  - cbn [obligations_hold forallb asserted_expr property].
    rewrite andb_true_r.
    now rewrite (holds_relation env distance ID_lt _ d _ Hd
                   (value_from_integer env _ _)) by tauto.
  - destruct (_ && _); [|reflexivity].
    cbn [obligations_hold forallb asserted_expr property].
    rewrite andb_true_r.
    now rewrite (holds_relation env op ID_ge _ x _ Hx
                   (value_from_integer env _ _)) by tauto.
Qed.

Lemma undefined_shift_check_meaning_witness :
  enable_undefined_shift_check (flags (example_state all_checks_on)) = true /\
  operands shl_x_d = [sym_x; sym_d] /\
  is_integer_type (type sym_x) = true /\
  is_integer_type (type sym_d) = true /\
  representable (type sym_d) (Z.of_N (get_width (type sym_x))) = true /\
  bv.value one_shifted_by_width sym_x = Some 1 /\
  representable (type sym_x) 1 = true /\
  bv.value one_shifted_by_width sym_d = Some 32 /\
  representable (type sym_d) 32 = true /\
  exists l,
    undefined_shift_check plain_services shl_x_d
                          (example_state all_checks_on) = Ok l /\
    obligations_hold one_shifted_by_width l = false.
Proof.
  repeat (split; [reflexivity|]).
  exact (undefined_shift_check_meaning plain_services
           (example_state all_checks_on) one_shifted_by_width
           shl_x_d sym_x sym_d 1 32 eq_refl eq_refl eq_refl eq_refl eq_refl
           eq_refl eq_refl eq_refl eq_refl).
Defined.

(** X24.  The overflow obligation of a signed division fails exactly when
    the dividend is the smallest value of the type and the divisor is
    minus one. *)
Theorem signed_division_overflow_meaning (S : servicest) (st : goto_checkt)
  (env : irep_idt -> Z) (e dividend divisor : exprt) (x y : Z) :
  enable_signed_overflow_check (flags st) = true ->
  is_id e ID_div = true ->
  type_is (type e) ID_signedbv = true ->
  operands e = [dividend; divisor] ->
  bv.value env dividend = Some x ->
  bv.value env divisor = Some y ->
  exists l,
    integer_overflow_check S e st = Ok l /\
    obligations_hold env l =
    negb ((x =? - 2 ^ (Z.of_N (get_width (type e)) - 1)) && (y =? -1)).
Proof.
  intros Hf Hdiv Hs Ho Hx Hy.
  unfold integer_overflow_check, to_binary_expr.
  rewrite Hf, Hdiv, Hs, Ho. cbn [negb andb bind].
  rewrite (type_is_exclusive _ Hs). cbn [andb]. cbv zeta.
  eexists. split; [reflexivity|].
  cbn [obligations_hold forallb asserted_expr property].
  rewrite andb_true_r, holds_not, holds_and.
  unfold equal_exprt.
  rewrite (holds_relation env dividend ID_equal _ x _ Hx) by (reflexivity || tauto).
  rewrite (holds_relation env divisor ID_equal _ y _ Hy
             (value_from_integer env _ _)) by tauto.
  reflexivity.
Qed.

Lemma signed_division_overflow_meaning_witness :
  enable_signed_overflow_check (flags (example_state all_checks_on)) = true /\
  is_id div_x_y ID_div = true /\
  type_is (type div_x_y) ID_signedbv = true /\
  operands div_x_y = [sym_x; sym_y] /\
  bv.value int_min_by_minus_one sym_x = Some (- 2 ^ 31) /\
  bv.value int_min_by_minus_one sym_y = Some (-1) /\
  exists l,
    integer_overflow_check plain_services div_x_y
                           (example_state all_checks_on) = Ok l /\
    obligations_hold int_min_by_minus_one l = false.
Proof.
  repeat (split; [reflexivity|]).
  exact (signed_division_overflow_meaning plain_services
           (example_state all_checks_on) int_min_by_minus_one
           div_x_y sym_x sym_y (- 2 ^ 31) (-1)
           eq_refl eq_refl eq_refl eq_refl eq_refl eq_refl).
Defined.



Close Scope Z_scope.



(** X26.  The error-label obligations of an instruction are appended to the
    patch buffer, one for every declared error label the instruction
    carries; each asserts [false] (assumes it with assert-to-assume), is in
    the class [error label] and is marked user-provided.  Nothing else of
    the checker changes, whatever the options. *)
Theorem error_label_obligations (i : instructiont) (st : goto_checkt) :
  exists l,
    error_label_checks i st = set_new_code st (new_code st ++ l) /\
    length l =
      length (filter (fun label => existsb (String.eqb label) (labels i))
                     (error_labels st)) /\
    Forall (fun t =>
              itype t = (if enable_assert_to_assume (flags st)
                         then ASSUME else ASSERT) /\
              condition t = false_exprt /\
              loc_property_class (source_location t) = "error label" /\
              loc_user_provided (source_location t) = true) l.
Proof.
  apply error_label_checks_closed.
Qed.

(** X27.  In Java mode the address check of a pointer yields nothing, or
    the single condition that the pointer differs from null, with the
    description [reference is null]; the allocation registry and the size
    play no role. *)
Theorem java_address_check_null_only (S : servicest)
  (address size : exprt) (st : goto_checkt) (l : list conditiont) :
  mode st = ID_java ->
  address_check S address size st = Ok l ->
  l = [] \/
  l = [mk_condition
         (notequal_exprt address (null_pointer_exprt (type address)))
         "reference is null"].
Proof.
  intros Hm H. unfold address_check in H.
  destruct (local_bitvector_analysis st) as [analysis|]; [|discriminate].
  destruct (current_target st) as [target|]; [|discriminate].
  destruct (negb (type_is (type address) ID_pointer)); [discriminate|].
  rewrite Hm in H. cbn [String.eqb] in H.
  replace (String.eqb ID_java ID_java) with true in H by reflexivity.
  destruct (is_unknown _ || is_null _); inversion H; auto.
Qed.

Lemma java_address_check_null_only_witness :
  mode java_state = ID_java /\
  address_check plain_services sym_p (from_integer 4 int32) java_state =
    Ok [mk_condition
          (notequal_exprt sym_p (null_pointer_exprt (type sym_p)))
          "reference is null"] /\
  ([mk_condition
      (notequal_exprt sym_p (null_pointer_exprt (type sym_p)))
      "reference is null"] = [] \/
   [mk_condition
      (notequal_exprt sym_p (null_pointer_exprt (type sym_p)))
      "reference is null"] =
   [mk_condition
      (notequal_exprt sym_p (null_pointer_exprt (type sym_p)))
      "reference is null"]).
Proof.
  assert (Hm : mode java_state = ID_java) by reflexivity.
  assert (H : address_check plain_services sym_p (from_integer 4 int32)
                java_state =
              Ok [mk_condition
                    (notequal_exprt sym_p (null_pointer_exprt (type sym_p)))
                    "reference is null"]) by (vm_compute; reflexivity).
  split; [exact Hm|]. split; [exact H|].
  exact (java_address_check_null_only plain_services sym_p
           (from_integer 4 int32) java_state _ Hm H).
Defined.


